(** * AB1: extraction of product records from "Curva ABC" report text

    A shallow embedding of the core of [src/app.py]: the numeric normaliser
    [br_to_float], the sector guesser [guess_setor] and the line parser and
    aggregator [parse_lince_lines], together with the parts of Python's
    [str], [float], [re] and of pandas they call, and of the places where
    the page script uses them: the text it assembles from the pages of the
    document, the default selection and the rows selected.

    Conventions of the model.
    - A Python [str] is a list of characters; a character is a code point
      below 256 (Rocq's [ascii], read as Latin-1).  The character classes
      below are the Unicode ones restricted to that range.
    - A Python [float] is the exact rational its decimal text denotes, or an
      infinity, or NaN; binary rounding, overflow and underflow are not
      modelled.
    - A Python exception is a value of the monad [exc]; [try]/[except] is
      [try_except]. *)

From Stdlib Require Import String Ascii Bool Arith ZArith QArith Qpower Lia Lqa.
From Stdlib Require Import List Permutation Sorted.
Import ListNotations.

Local Open Scope list_scope.
Local Open Scope nat_scope.

(** ** Characters and strings *)

Definition str := list ascii.

Definition lit (s : string) : str := list_ascii_of_string s.

Definition code (c : ascii) : N := N_of_ascii c.

Definition chr (n : N) : ascii := ascii_of_N n.

Definition in_range (lo hi : N) (c : ascii) : bool :=
  (N.leb lo (code c) && N.leb (code c) hi)%bool.

Definition is_char (n : N) (c : ascii) : bool := N.eqb (code c) n.

Definition ascii_eqb (a b : ascii) : bool := N.eqb (code a) (code b).

(** [str.isspace] on one character, which is also [\s] of [re] on [str]
    patterns: TAB..CR, FS..US, space, NEL, NBSP. *)
Definition is_space (c : ascii) : bool :=
  (in_range 9 13 c || in_range 28 32 c || is_char 133 c || is_char 160 c)%bool.

(** [\d]: the decimal digits (category Nd). *)
Definition is_digit (c : ascii) : bool := in_range 48 57 c.

(** [str.isupper] and [str.islower] on one character. *)
Definition is_upper (c : ascii) : bool :=
  (in_range 65 90 c || in_range 192 214 c || in_range 216 222 c)%bool.

Definition is_lower (c : ascii) : bool :=
  (in_range 97 122 c || is_char 170 c || is_char 181 c || is_char 186 c
   || in_range 223 246 c || in_range 248 255 c)%bool.

(** [\w]: alphanumeric (letters, and everything numeric) or underscore. *)
Definition is_word (c : ascii) : bool :=
  (is_digit c || is_upper c || is_lower c || is_char 95 c
   || is_char 178 c || is_char 179 c || is_char 185 c || in_range 188 190 c)%bool.

(** The line boundaries of [str.splitlines]: LF, VT, FF, CR, FS, GS, RS, NEL. *)
Definition is_linebreak (c : ascii) : bool :=
  (in_range 10 13 c || in_range 28 30 c || is_char 133 c)%bool.

Definition LF : ascii := chr 10.
Definition CR : ascii := chr 13.

(** [str.upper] on one character.  Sharp s becomes "SS".  The upper-case
    forms of U+00B5 and U+00FF are U+039C and U+0178, outside the modelled
    range: the model keeps these two characters as they are.  Neither the
    originals nor their images occur in a keyword of [guess_setor] or survive
    its final [re.sub], so [guess_setor] cannot tell the difference. *)
Definition upper_char (c : ascii) : str :=
  if is_char 223 c then [chr 83; chr 83]
  else if (in_range 97 122 c || in_range 224 246 c || in_range 248 254 c)%bool
       then [chr (code c - 32)]
       else [c].

Definition upper (s : str) : str := flat_map upper_char s.

Fixpoint str_eqb (a b : str) : bool :=
  match a, b with
  | [], [] => true
  | x :: a', y :: b' => ascii_eqb x y && str_eqb a' b'
  | _, _ => false
  end.

(** Python's [<=] on [str]: lexicographic on code points. *)
Fixpoint str_leb (a b : str) : bool :=
  match a, b with
  | [], _ => true
  | _ :: _, [] => false
  | x :: a', y :: b' =>
      if N.ltb (code x) (code y) then true
      else if N.ltb (code y) (code x) then false
      else str_leb a' b'
  end.

Fixpoint dropwhile (p : ascii -> bool) (s : str) : str :=
  match s with
  | [] => []
  | c :: tl => if p c then dropwhile p tl else s
  end.

Definition lstrip_by (p : ascii -> bool) (s : str) : str := dropwhile p s.
Definition rstrip_by (p : ascii -> bool) (s : str) : str := rev (dropwhile p (rev s)).
Definition strip_by (p : ascii -> bool) (s : str) : str := rstrip_by p (lstrip_by p s).

(** [s.strip()] *)
Definition strip (s : str) : str := strip_by is_space s.

Fixpoint startswith (pre s : str) : bool :=
  match pre, s with
  | [], _ => true
  | x :: pre', y :: s' => ascii_eqb x y && startswith pre' s'
  | _ :: _, [] => false
  end.

(** [sub in s] *)
Fixpoint contains (sub s : str) : bool :=
  startswith sub s ||
  match s with
  | [] => false
  | _ :: tl => contains sub tl
  end.

(** [s.find(sub)]: the least index where [sub] occurs, or -1. *)
Fixpoint find_from (sub s : str) (i : Z) : Z :=
  if startswith sub s then i
  else match s with
       | [] => (-1)%Z
       | _ :: tl => find_from sub tl (i + 1)%Z
       end.

Definition find (sub s : str) : Z := find_from sub s 0%Z.

(** [s[i:j]] with Python's treatment of negative and out-of-range bounds. *)
Definition clamp_index (len i : Z) : Z :=
  if (i <? 0)%Z then Z.max 0 (len + i) else Z.min len i.

Definition slice (s : str) (i j : Z) : str :=
  let len := Z.of_nat (length s) in
  let a := clamp_index len i in
  let b := clamp_index len j in
  firstn (Z.to_nat (b - a)) (skipn (Z.to_nat a) s).

(** [s[i:]] for a non-negative [i]. *)
Definition slice_from (s : str) (i : nat) : str := skipn i s.

(** [s.replace(old, new)] for a one-character [old], the only use the
    program makes of it. *)
Definition replace (old : ascii) (new : str) (s : str) : str :=
  flat_map (fun c => if ascii_eqb c old then new else [c]) s.

(** [s.splitlines()]: [cur] is the current line, reversed; [after_cr] says
    the previous character was a CR, so that a LF now ends the same line. *)
Fixpoint splitlines_aux (cur : str) (after_cr : bool) (s : str) : list str :=
  match s with
  | [] => match cur with [] => [] | _ => [rev cur] end
  | c :: tl =>
      if (after_cr && ascii_eqb c LF)%bool then splitlines_aux cur false tl
      else if is_linebreak c then rev cur :: splitlines_aux [] (ascii_eqb c CR) tl
      else splitlines_aux (c :: cur) false tl
  end.

Definition splitlines (s : str) : list str := splitlines_aux [] false s.

(** [s.isupper()]: no lower-case character and at least one upper-case one
    (the range has no title-case character). *)
Definition isupper (s : str) : bool :=
  (negb (existsb is_lower s) && existsb is_upper s)%bool.

(** [os.path.basename] (POSIX): what follows the last slash. *)
Fixpoint basename_aux (cur : str) (s : str) : str :=
  match s with
  | [] => rev cur
  | c :: tl => if is_char 47 c then basename_aux [] tl else basename_aux (c :: cur) tl
  end.

Definition basename (p : str) : str := basename_aux [] p.

(** ** Exceptions *)

(** [float] raises [ValueError] on a string it cannot read. *)
Inductive exn : Type := ValueError.

Inductive exc (A : Type) : Type :=
| Ret (a : A)
| Raise (e : exn).

Arguments Ret {A} a.
Arguments Raise {A} e.

Definition bind {A B : Type} (m : exc A) (f : A -> exc B) : exc B :=
  match m with
  | Ret a => f a
  | Raise e => Raise e
  end.

(** [try: body / except: handler], with a bare [except]. *)
Definition try_except {A : Type} (body : exc A) (handler : exn -> exc A) : exc A :=
  match body with
  | Ret a => Ret a
  | Raise e => handler e
  end.

Notation "x <- m ;; k" := (bind m (fun x => k))
  (at level 61, m at next level, right associativity).

(** ** Floats *)

Inductive pyfloat : Type :=
| Fin (q : Q)
| Inf (negative : bool)
| NaN.

(** [(-1)^neg * m * 10^e], in lowest terms. *)
Definition decimal (neg : bool) (m e : Z) : Q :=
  Qred (inject_Z (if neg then - m else m) * Qpower (10 # 1) e).

Definition digit_val (c : ascii) : Z := Z.of_N (code c - 48).

Definition digits_val (ds : str) : Z :=
  fold_left (fun acc d => (10 * acc + digit_val d)%Z) ds 0%Z.

(** The longest prefix of [s] whose characters satisfy [p], and the rest. *)
Fixpoint span (p : ascii -> bool) (s : str) : str * str :=
  match s with
  | [] => ([], [])
  | c :: tl => if p c then let (a, b) := span p tl in (c :: a, b) else ([], s)
  end.

Definition is_nil {A : Type} (l : list A) : bool :=
  match l with [] => true | _ => false end.

(** An optional sign. *)
Definition parse_sign (s : str) : bool * str :=
  match s with
  | c :: tl => if is_char 45 c then (true, tl)
               else if is_char 43 c then (false, tl)
               else (false, s)
  | [] => (false, [])
  end.

(** ASCII lower-casing, for the case-insensitive words "inf", "infinity"
    and "nan". *)
Definition ascii_lower (c : ascii) : ascii :=
  if in_range 65 90 c then chr (code c + 32) else c.

Definition word_is (w : string) (s : str) : bool :=
  str_eqb (map ascii_lower s) (lit w).

(** [digits [. digits] [(e|E) [sign] digits]] with a digit in the mantissa
    and the whole string consumed: the mantissa and the decimal exponent. *)
Definition parse_number (s : str) : option (Z * Z) :=
  let (ip, r1) := span is_digit s in
  let (fp, r2) := match r1 with
                  | c :: r => if is_char 46 c then span is_digit r else ([], r1)
                  | [] => ([], r1)
                  end in
  if (is_nil ip && is_nil fp)%bool then None
  else
    let m := digits_val (ip ++ fp) in
    let scale := Z.of_nat (length fp) in
    match r2 with
    | [] => Some (m, (- scale)%Z)
    | c :: r3 =>
        if (is_char 101 c || is_char 69 c)%bool then
          let (eneg, r4) := parse_sign r3 in
          let (ed, r5) := span is_digit r4 in
          if (is_nil ed || negb (is_nil r5))%bool then None
          else Some (m, ((if eneg then - digits_val ed else digits_val ed) - scale)%Z)
        else None
    end.

(** The underscores of a numeric literal (PEP 515): each stands between two
    digits. [prev] is the previous character. *)
Fixpoint underscores_ok (prev : option ascii) (s : str) : bool :=
  let prev_digit := match prev with Some p => is_digit p | None => false end in
  let prev_us := match prev with Some p => is_char 95 p | None => false end in
  match s with
  | [] => negb prev_us
  | c :: tl =>
      (if is_char 95 c then prev_digit
       else negb (prev_us && negb (is_digit c)))
      && underscores_ok (Some c) tl
  end.

(** The white space [float] strips: ASCII TAB..CR and space; the other
    spaces of the range (NEL, NBSP) are first turned into spaces.  FS..US
    are not stripped. *)
Definition is_float_space (c : ascii) : bool :=
  (in_range 9 13 c || is_char 32 c || is_char 133 c || is_char 160 c)%bool.

(** [float(s)] for a [str] argument. *)
Definition py_float (s : str) : exc pyfloat :=
  let t := strip_by is_float_space s in
  if negb (underscores_ok None t) then Raise ValueError
  else
    let u := filter (fun c => negb (is_char 95 c)) t in
    let (neg, body) := parse_sign u in
    if (word_is "inf" body || word_is "infinity" body)%bool then Ret (Inf neg)
    else if word_is "nan" body then Ret NaN
    else match parse_number body with
         | Some (m, e) => Ret (Fin (decimal neg m e))
         | None => Raise ValueError
         end.

(** Python's [x <= y] and [x < y] on floats: false when either is NaN. *)
Definition fleb (x y : pyfloat) : bool :=
  match x, y with
  | NaN, _ | _, NaN => false
  | Inf true, _ => true
  | _, Inf false => true
  | Inf false, _ => false
  | _, Inf true => false
  | Fin a, Fin b => Qle_bool a b
  end.

Definition fltb (x y : pyfloat) : bool :=
  match x, y with
  | NaN, _ | _, NaN => false
  | _, _ => negb (fleb y x)
  end.

Definition fzero : pyfloat := Fin 0.

(** ** The numeric normaliser *)

Definition COMMA : ascii := chr 44.
Definition DOT : ascii := chr 46.

(** [br_to_float(txt)]; [None] is Python's [None], for the argument and for
    the result. *)
Definition br_to_float (txt : option str) : exc (option pyfloat) :=
  match txt with
  | None => Ret None
  | Some txt =>
      let t := strip txt in
      (* fallback: formato EN: 1,234.56 ou 1234.56 *)
      let fallback (t : str) : exc (option pyfloat) :=
        let t2 := replace COMMA [] t in
        try_except (x <- py_float t2 ;; Ret (Some x)) (fun _ => Ret None) in
      (* tenta formato BR: 1.234,56 *)
      if contains [COMMA] t then
        let t := replace COMMA [DOT] (replace DOT [] t) in
        try_except (x <- py_float t ;; Ret (Some x)) (fun _ => fallback t)
      else fallback t
  end.

(** ** Regular expressions

    The fragment of [re] the program uses, with the matching order of a
    backtracking engine: a greedy repetition tries the longest run first, a
    lazy one the shortest, an optional group is tried before it is skipped,
    and the first alternative that lets the rest of the pattern match wins. *)

Inductive regex : Type :=
| Eps                                   (* the empty pattern *)
| Cls (p : ascii -> bool)               (* one character of a class *)
| Cat (r1 r2 : regex)                   (* r1 r2 *)
| Rep (greedy : bool) (lo : nat) (hi : option nat) (p : ascii -> bool)
                                        (* p{lo,hi}, or p{lo,hi}? when lazy *)
| Opt (r : regex)                       (* (r)? *)
| Grp (i : nat) (r : regex)             (* capturing group number i *)
| Bos                                   (* ^ *)
| Eos                                   (* $ *)
| WordB.                                (* \b *)

(** A position in the subject: the character before it, its index, what is
    left to read, and the groups captured so far (latest first). *)
Record mstate : Type := MState {
  prev : option ascii;
  pos : nat;
  rest : str;
  caps : list (nat * (nat * nat))
}.

Definition below (hi : option nat) (n : nat) : bool :=
  match hi with
  | None => true
  | Some h => n <? h
  end.

Definition word_at (c : option ascii) : bool :=
  match c with
  | Some x => is_word x
  | None => false
  end.

Definition at_boundary (st : mstate) : bool :=
  negb (eqb (word_at (prev st)) (word_at (hd_error (rest st)))).

(** [$] without MULTILINE: at the end, or before a final line feed. *)
Definition at_end (st : mstate) : bool :=
  match rest st with
  | [] => true
  | [c] => ascii_eqb c LF
  | _ => false
  end.

Definition orelse {A : Type} (a : option A) (b : unit -> option A) : option A :=
  match a with
  | Some x => Some x
  | None => b tt
  end.

(** The repetition [p{lo,hi}] after [n] characters have been taken. *)
Fixpoint rep_loop (greedy : bool) (lo : nat) (hi : option nat) (p : ascii -> bool)
    (n : nat) (pv : option ascii) (ps : nat) (cs : list (nat * (nat * nat)))
    (l : str) (k : mstate -> option mstate) {struct l} : option mstate :=
  let stop := fun _ : unit => if lo <=? n then k (MState pv ps l cs) else None in
  let more := fun _ : unit =>
    match l with
    | c :: tl =>
        if (p c && below hi n)%bool
        then rep_loop greedy lo hi p (S n) (Some c) (S ps) cs tl k
        else None
    | [] => None
    end in
  if greedy then orelse (more tt) stop else orelse (stop tt) more.

(** [rmatch r st k]: match [r] at [st], then the rest of the pattern [k]. *)
Fixpoint rmatch (r : regex) (st : mstate) (k : mstate -> option mstate)
    {struct r} : option mstate :=
  match r with
  | Eps => k st
  | Cls p =>
      match rest st with
      | c :: tl => if p c then k (MState (Some c) (S (pos st)) tl (caps st)) else None
      | [] => None
      end
  | Cat r1 r2 => rmatch r1 st (fun st' => rmatch r2 st' k)
  | Rep g lo hi p => rep_loop g lo hi p 0 (prev st) (pos st) (caps st) (rest st) k
  | Opt r1 => orelse (rmatch r1 st k) (fun _ => k st)
  | Grp i r1 =>
      rmatch r1 st (fun st' =>
        k (MState (prev st') (pos st') (rest st') ((i, (pos st, pos st')) :: caps st')))
  | Bos => if pos st =? 0 then k st else None
  | Eos => if at_end st then k st else None
  | WordB => if at_boundary st then k st else None
  end.

Definition seq (rs : list regex) : regex := fold_right Cat Eps rs.

(** A match object: [m.start()], [m.end()] and the group spans. *)
Record match_obj : Type := Match {
  m_start : nat;
  m_end : nat;
  m_caps : list (nat * (nat * nat))
}.

Definition match_here (r : regex) (pv : option ascii) (ps : nat) (l : str)
    : option match_obj :=
  match rmatch r (MState pv ps l []) (fun st => Some st) with
  | Some st => Some (Match ps (pos st) (caps st))
  | None => None
  end.

(** [re.match(r, s)] *)
Definition re_match (r : regex) (s : str) : option match_obj :=
  match_here r None 0 s.

Fixpoint search_from (r : regex) (pv : option ascii) (ps : nat) (l : str)
    : option match_obj :=
  match match_here r pv ps l with
  | Some m => Some m
  | None =>
      match l with
      | c :: tl => search_from r (Some c) (S ps) tl
      | [] => None
      end
  end.

(** [re.search(r, s)]: the leftmost match. *)
Definition re_search (r : regex) (s : str) : option match_obj :=
  search_from r None 0 s.

Fixpoint lookup_cap (i : nat) (cs : list (nat * (nat * nat))) : option (nat * nat) :=
  match cs with
  | [] => None
  | (j, span) :: tl => if i =? j then Some span else lookup_cap i tl
  end.

(** [m.group(i)] on subject [s], for a group that took part in the match. *)
Definition group (s : str) (m : match_obj) (i : nat) : str :=
  match lookup_cap i (m_caps m) with
  | Some (a, b) => firstn (b - a) (skipn a s)
  | None => []
  end.

(** [re.sub(r, repl, s)] for a literal [repl]: [skip] characters of the
    current match are still to be dropped. *)
Fixpoint sub_loop (r : regex) (repl : str) (pv : option ascii) (ps skip : nat)
    (l : str) {struct l} : str :=
  match skip, l with
  | S k, c :: tl => sub_loop r repl (Some c) (S ps) k tl
  | S _, [] => []
  | O, _ =>
      match match_here r pv ps l with
      | Some m =>
          repl ++
          match m_end m - ps, l with
          | S k, c :: tl => sub_loop r repl (Some c) (S ps) k tl
          | O, c :: tl => c :: sub_loop r repl (Some c) (S ps) 0 tl
          | _, [] => []
          end
      | None =>
          match l with
          | c :: tl => c :: sub_loop r repl (Some c) (S ps) 0 tl
          | [] => []
          end
      end
  end.

Definition re_sub (r : regex) (repl : str) (s : str) : str :=
  sub_loop r repl None 0 0 s.

(** *** The program's patterns *)

Definition any_char (_ : ascii) : bool := true.

(** [.] : anything but a line feed. *)
Definition dot_char (c : ascii) : bool := negb (ascii_eqb c LF).

(** A literal character, and one matched under IGNORECASE (the letters of
    the marker have no case variants beyond ASCII). *)
Definition lit_char (c : ascii) : regex := Cls (ascii_eqb c).

Definition lit_char_i (c : ascii) : regex :=
  Cls (fun x => ascii_eqb (ascii_lower x) (ascii_lower c)).

(** [NUM_TOKEN = r"[0-9\.\,]+"] *)
Definition num_char (c : ascii) : bool :=
  (is_digit c || is_char 46 c || is_char 44 c)%bool.

Definition NUM_TOKEN : regex := Rep true 1 None num_char.

(** [r"\s{2,}"] *)
Definition RE_SPACES : regex := Rep true 2 None is_space.

(** [r"\b\d{8,13}\b$"] *)
Definition RE_EAN : regex := seq [WordB; Rep true 8 (Some 13) is_digit; WordB; Eos].

(** [r"\b\d{4,8}\b\s*$"] *)
Definition RE_CODE : regex :=
  seq [WordB; Rep true 4 (Some 8) is_digit; WordB; Rep true 0 None is_space; Eos].

(** The groups of the line pattern. *)
Definition G_NOME : nat := 1.
Definition G_PRECO : nat := 2.
Definition G_QTD : nat := 3.
Definition G_VALOR : nat := 4.

(** [rf"^(?P<nome>.+?)\s+(?P<preco>{NUM_TOKEN})\s+(?P<qtd>{NUM_TOKEN})\s+(?P<valor>{NUM_TOKEN})(\s+.+)?$"] *)
Definition patt : regex :=
  seq [Bos;
       Grp G_NOME (Rep false 1 None dot_char);
       Rep true 1 None is_space;
       Grp G_PRECO NUM_TOKEN;
       Rep true 1 None is_space;
       Grp G_QTD NUM_TOKEN;
       Rep true 1 None is_space;
       Grp G_VALOR NUM_TOKEN;
       Opt (Grp 5 (seq [Rep true 1 None is_space; Rep true 1 None dot_char]));
       Eos].

(** [r"[A-Za-zÀ-ÖØ-öø-ÿ]{3,}"] *)
Definition letter_char (c : ascii) : bool :=
  (in_range 65 90 c || in_range 97 122 c || in_range 192 214 c
   || in_range 216 246 c || in_range 248 255 c)%bool.

Definition RE_LETTERS : regex := Rep true 3 None letter_char.

(** [r"Departamento:\s*([\s\S]{0,40})"] with [re.IGNORECASE] *)
Definition RE_DEPTO : regex :=
  seq (map lit_char_i (lit "Departamento:")
       ++ [Rep true 0 None is_space; Grp 1 (Rep true 0 (Some 40) any_char)]).

(** [r"[^A-Z0-9]"] *)
Definition RE_NOT_AZ09 : regex :=
  Cls (fun c => negb (in_range 65 90 c || in_range 48 57 c)).

(** ** The sector guesser *)

(** [for ln in tail[:5]: t = ln.strip(); if 2 <= len(t) <= 20 and t.isupper(): return t] *)
Fixpoint first_sector_line (lines : list str) : option str :=
  match lines with
  | [] => None
  | ln :: tl =>
      let t := strip ln in
      if ((2 <=? length t) && (length t <=? 20) && isupper t)%bool then Some t
      else first_sector_line tl
  end.

(** ["FRIOS", "AÇOUGUE", "PADARIA", "HORTIFRUTI", "BEBIDAS", "MERCEARIA"] *)
Definition CHAVES : list str :=
  [lit "FRIOS"; lit "A" ++ [chr 199] ++ lit "OUGUE"; lit "PADARIA";
   lit "HORTIFRUTI"; lit "BEBIDAS"; lit "MERCEARIA"].

Fixpoint sector_from_name (base_up : str) (chaves : list str) : option str :=
  match chaves with
  | [] => None
  | chave :: tl =>
      if contains chave base_up then
        let start := find chave base_up in
        let stop := Z.min (Z.of_nat (length base_up))
                          (start + Z.of_nat (length chave) + 2)%Z in
        Some (re_sub RE_NOT_AZ09 [] (slice base_up start stop))
      else sector_from_name base_up tl
  end.

Definition ND : str := lit "N/D".

(** The second heuristic, on [filename or ""], and the default. *)
Definition guess_by_filename (filename : option str) : str :=
  let base := basename (match filename with Some f => f | None => [] end) in
  let base_up := upper base in
  match sector_from_name base_up CHAVES with
  | Some s => s
  | None => ND
  end.

(** [guess_setor(text, filename)]; [filename] may be [None]. *)
Definition guess_setor (text : str) (filename : option str) : exc str :=
  match re_search RE_DEPTO text with
  | Some m =>
      let tail := splitlines (slice_from text (m_end m)) in
      match first_sector_line (firstn 5 tail) with
      | Some t => Ret t
      | None => Ret (guess_by_filename filename)
      end
  | None => Ret (guess_by_filename filename)
  end.

(** ** The line parser *)

Record produto : Type := Produto {
  nome : str;
  preco_unit : pyfloat;
  quantidade : pyfloat;
  valor : pyfloat
}.

(** The four raw fields matched on a line. *)
Record candidate : Type := Candidate {
  c_nome : str;
  c_preco : str;
  c_qtd : str;
  c_valor : str
}.

(** [lines = [re.sub(r"\s{2,}", " ", ln).strip() for ln in text.splitlines()]] *)
Definition normalize_line (ln : str) : str := strip (re_sub RE_SPACES (lit " ") ln).

Definition normalize_lines (text : str) : list str :=
  map normalize_line (splitlines text).

(** The headers and footers to skip: "Curva ABC", "Período", "CST", "ECF",
    "Situação Tributária", "Classif.", "Codigo", "Barras",
    "Total do Departamento", "Total Geral", "www.grupotecnoweb.com.br". *)
Definition lixo : list str :=
  [lit "Curva ABC"; lit "Per" ++ [chr 237] ++ lit "odo"; lit "CST"; lit "ECF";
   lit "Situa" ++ [chr 231; chr 227] ++ lit "o Tribut" ++ [chr 225] ++ lit "ria";
   lit "Classif."; lit "Codigo"; lit "Barras"; lit "Total do Departamento";
   lit "Total Geral"; lit "www.grupotecnoweb.com.br"].

(** The line without its trailing EAN and internal code. *)
Definition clean_line (ln : str) : str :=
  let ln_clean := strip (re_sub RE_EAN [] ln) in
  strip (re_sub RE_CODE [] ln_clean).

(** The loop body up to the match: [None] is [continue]. *)
Definition extract (ln : str) : option candidate :=
  if (is_nil ln || existsb (fun k => contains k ln) lixo)%bool then None
  else
    let ln_clean := clean_line ln in
    match re_match patt ln_clean with
    | None => None
    | Some m =>
        Some (Candidate (strip (group ln_clean m G_NOME))
                        (group ln_clean m G_PRECO)
                        (group ln_clean m G_QTD)
                        (group ln_clean m G_VALOR))
    end.

Definition is_some {A : Type} (o : option A) : bool :=
  match o with Some _ => true | None => false end.

(** The conversions and the sanity filters: [Ret None] is [continue]. *)
Definition validate (c : candidate) : exc (option produto) :=
  preco <- br_to_float (Some (c_preco c)) ;;
  qtd <- br_to_float (Some (c_qtd c)) ;;
  val <- br_to_float (Some (c_valor c)) ;;
  match preco with
  | None => Ret None
  | Some preco =>
      if fleb preco fzero then Ret None
      else
        match val with
        | None => Ret None
        | Some val =>
            if fltb val fzero then Ret None
            else
              match qtd with
              | None => Ret None
              | Some qtd =>
                  if fltb qtd fzero then Ret None
                  else if negb (is_some (re_search RE_LETTERS (c_nome c))) then Ret None
                  else Ret (Some (Produto (c_nome c) preco qtd val))
              end
        end
  end.

Definition parse_line (ln : str) : exc (option produto) :=
  match extract ln with
  | None => Ret None
  | Some c => validate c
  end.

(** The [for] loop: the records appended to [produtos], in line order. *)
Fixpoint collect (lines : list str) : exc (list produto) :=
  match lines with
  | [] => Ret []
  | ln :: tl =>
      r <- parse_line ln ;;
      rs <- collect tl ;;
      Ret (match r with Some p => p :: rs | None => rs end)
  end.

(** ** The aggregator (pandas) *)

Definition DataFrame := list produto.

Definition is_nan (x : pyfloat) : bool :=
  match x with NaN => true | _ => false end.

Definition fadd (x y : pyfloat) : pyfloat :=
  match x, y with
  | NaN, _ | _, NaN => NaN
  | Inf a, Inf b => if eqb a b then Inf a else NaN
  | Inf a, Fin _ => Inf a
  | Fin _, Inf b => Inf b
  | Fin a, Fin b => Fin (Qred (a + b))
  end.

Definition fdiv_count (x : pyfloat) (n : nat) : pyfloat :=
  match x with
  | Fin a => Fin (Qred (a / inject_Z (Z.of_nat n)))
  | other => other
  end.

Definition skipna (l : list pyfloat) : list pyfloat :=
  filter (fun x => negb (is_nan x)) l.

(** The group reductions ["sum"] and ["mean"], which skip NaN. *)
Definition fsum (l : list pyfloat) : pyfloat :=
  fold_left fadd (skipna l) fzero.

Definition fmean (l : list pyfloat) : pyfloat :=
  match skipna l with
  | [] => NaN
  | l' => fdiv_count (fold_left fadd l' fzero) (length l')
  end.

Section Sorting.
Context {A : Type} (leb : A -> A -> bool).

Fixpoint insert_sorted (x : A) (l : list A) : list A :=
  match l with
  | [] => [x]
  | y :: tl => if leb x y then x :: l else y :: insert_sorted x tl
  end.

(** A stable ascending sort: among equals, list order is kept. *)
Definition stable_sort (l : list A) : list A := fold_right insert_sorted [] l.
End Sorting.

Fixpoint mem_str (k : str) (l : list str) : bool :=
  match l with
  | [] => false
  | x :: tl => (str_eqb k x || mem_str k tl)%bool
  end.

Fixpoint unique (l : list str) : list str :=
  match l with
  | [] => []
  | x :: tl => if mem_str x tl then unique tl else x :: unique tl
  end.

(** The group keys of [groupby("nome")] (with [sort=True], the default):
    the distinct names, ascending. *)
Definition group_keys (df : DataFrame) : list str :=
  stable_sort str_leb (unique (map nome df)).

Definition group_rows (df : DataFrame) (k : str) : DataFrame :=
  filter (fun p => str_eqb (nome p) k) df.

(** [.agg({"preco_unit": "mean", "quantidade": "sum", "valor": "sum"})] on
    one group. *)
Definition agg_group (df : DataFrame) (k : str) : produto :=
  let rows := group_rows df k in
  Produto k (fmean (map preco_unit rows)) (fsum (map quantidade rows))
            (fsum (map valor rows)).

Definition groupby_agg (df : DataFrame) : DataFrame :=
  map (agg_group df) (group_keys df).

(** The sort key: [valor], ascending. *)
Definition valor_leb (a b : produto) : bool := fleb (valor a) (valor b).

(** [.sort_values("valor", ascending=False)]: the rows without NaN are
    reversed, sorted ascending and reversed again, and the NaN rows follow
    (pandas' [nargsort]).  The ascending sort is NumPy's; its default kind
    keeps equal keys in order on short arrays, which [stable_sort] models.
    [.reset_index(drop=True)] renumbers the rows and changes nothing here. *)
Definition sort_values_valor_desc (df : DataFrame) : DataFrame :=
  let non_nans := filter (fun p => negb (is_nan (valor p))) df in
  let nans := filter (fun p => is_nan (valor p)) df in
  rev (stable_sort valor_leb (rev non_nans)) ++ nans.

(** From [df = pd.DataFrame(produtos)] to the end: an empty frame is
    returned as it is. *)
Definition aggregate (df : DataFrame) : DataFrame :=
  if is_nil df then df
  else sort_values_valor_desc (groupby_agg df).

(** [parse_lince_lines] from the normalised lines on. *)
Definition parse_lines (lines : list str) : exc DataFrame :=
  produtos <- collect lines ;;
  Ret (aggregate produtos).

(** [parse_lince_lines(text)] *)
Definition parse_lince_lines (text : str) : exc DataFrame :=
  parse_lines (normalize_lines text).

(** ** The caller *)

(** [page.extract_text(x_tolerance=1, y_tolerance=1) or ""]: the text of a
    page, which the extraction library may not find. *)
Definition page_text (page : option str) : str :=
  match page with Some t => t | None => [] end.

(** [for page in pdf.pages: all_text += ... or ""; all_text += "\n"] *)
Definition all_text (pages : list (option str)) : str :=
  fold_left (fun acc page => (acc ++ page_text page) ++ [LF]) pages [].

(** [nomes = df_items["nome"].tolist()] *)
Definition nomes (df : DataFrame) : list str := map nome df.

(** [default=nomes[: min(10, len(nomes))]] *)
Definition default_selection (df : DataFrame) : list str :=
  firstn (Nat.min 10 (length (nomes df))) (nomes df).

(** [df_items[df_items["nome"].isin(selecionados)]] *)
Definition isin_rows (selecionados : list str) (df : DataFrame) : DataFrame :=
  filter (fun p => mem_str (nome p) selecionados) df.

(** * Vocabulary of the properties *)

(** ** Strings and tokens *)

Definition all (p : ascii -> bool) (s : str) : Prop := Forall (fun c => p c = true) s.

Definition none (p : ascii -> bool) (s : str) : Prop := Forall (fun c => p c = false) s.

Definition starts_nonspace (s : str) : Prop :=
  match s with
  | c :: _ => is_space c = false
  | [] => False
  end.

Definition ends_nonspace (s : str) : Prop :=
  exists s' c, s = s' ++ [c] /\ is_space c = false.

Definition SP : ascii := chr 32.

Definition ends_numeric (l : str) : Prop := exists l' c, l = l' ++ [c] /\ num_char c = true.

Definition flush (cur : str) : list str :=
  match cur with
  | [] => []
  | _ => [rev cur]
  end.

(** [s.split()]: the maximal runs without white space; [cur] is the
    current run, reversed. *)
Fixpoint split_ws_aux (cur : str) (s : str) : list str :=
  match s with
  | [] => flush cur
  | c :: tl =>
      if is_space c then flush cur ++ split_ws_aux [] tl
      else split_ws_aux (c :: cur) tl
  end.

Definition split_ws (s : str) : list str := split_ws_aux [] s.

(** A token of digits, dots and commas only. *)
Definition numeric_token (t : str) : bool := forallb num_char t.

(** No token of [name] is numeric. *)
Definition no_numeric_token (name : str) : Prop :=
  forallb (fun t => negb (numeric_token t)) (split_ws name) = true.

(** A line of the shape name, price, quantity, integer, with single spaces
    between the fields: without its last field, and whole. *)
Definition line_head (name price qty : str) : str :=
  name ++ [SP] ++ price ++ [SP] ++ qty.

Definition line_with_integer (name price qty code : str) : str :=
  line_head name price qty ++ [SP] ++ code.

(** ** Numbers *)

(** The characters of a token once its commas were rewritten. *)
Definition dd_char (c : ascii) : bool := (is_digit c || is_char 46 c)%bool.

(** [sep.join(parts)] *)
Fixpoint join (sep : str) (parts : list str) : str :=
  match parts with
  | [] => []
  | [p] => p
  | p :: tl => p ++ sep ++ join sep tl
  end.

(** A token with dots between the groups of the integer part and a comma
    before the decimals, as in "1.234,56". *)
Definition br_token (groups : list str) (frac : str) : str :=
  join [DOT] groups ++ [COMMA] ++ frac.

(** Brazilian format: a first group of one to three digits, groups of three
    digits, and at least one decimal. *)
Definition br_format (groups : list str) (frac : str) : Prop :=
  match groups with
  | [] => False
  | g :: gs =>
      all is_digit g /\ 1 <= length g <= 3 /\
      Forall (fun h => all is_digit h /\ length h = 3) gs
  end /\ all is_digit frac /\ frac <> [].

(** The digit a character stands for, read off the character itself. *)
Definition digit_of (c : ascii) : Z :=
  match c with
  | "0"%char => 0
  | "1"%char => 1
  | "2"%char => 2
  | "3"%char => 3
  | "4"%char => 4
  | "5"%char => 5
  | "6"%char => 6
  | "7"%char => 7
  | "8"%char => 8
  | "9"%char => 9
  | _ => 0
  end%Z.

(** The whole number a run of digits denotes in positional notation: a digit
    weighs ten times as much as the one after it. *)
Fixpoint numeral_int (ds : str) : Z :=
  match ds with
  | [] => 0
  | d :: tl => digit_of d * 10 ^ Z.of_nat (length tl) + numeral_int tl
  end%Z.

(** The fraction a run of decimals denotes: a digit weighs a tenth of what
    the one before it weighs, the first one a tenth. *)
Fixpoint numeral_frac (ds : str) : Q :=
  match ds with
  | [] => 0
  | d :: tl => (inject_Z (digit_of d) + numeral_frac tl) / (10 # 1)
  end%Q.

(** The number a decimal numeral denotes: integer part plus decimals.  It is
    defined from the characters alone, apart from the model of [float]. *)
Definition numeral_value (int_part frac : str) : Q :=
  (inject_Z (numeral_int int_part) + numeral_frac frac)%Q.

Definition is_fin (x : pyfloat) : Prop := exists q, x = Fin q.

Definition qval (x : pyfloat) : Q :=
  match x with
  | Fin q => q
  | _ => 0%Q
  end.

Definition Qsum (l : list Q) : Q := fold_right Qplus 0%Q l.

(** ** Matches *)

(** The character before the position reached after reading [a]. *)
Definition last_or (pv : option ascii) (a : str) : option ascii :=
  fold_left (fun _ c => Some c) a pv.

Definition within (hi : option nat) (n : nat) : Prop :=
  match hi with
  | Some h => n <= h
  | None => True
  end.

Definition leading_space (r : str) : Prop :=
  match r with [] => True | c :: _ => is_space c = true end.

(** ** Records *)

(** What the sanity filters leave: a positive price, a non-negative
    quantity and value, all of them numbers in lowest terms. *)
Definition valid_record (p : produto) : Prop :=
  exists a b c,
    preco_unit p = Fin a /\ quantidade p = Fin b /\ valor p = Fin c /\
    (0 < a)%Q /\ (0 <= b)%Q /\ (0 <= c)%Q /\
    Qred a = a /\ Qred b = b /\ Qred c = c.

Definition fin_valor (p : produto) : Prop := is_fin (valor p).

(** Non-increasing in [valor]. *)
Definition valor_ge (a b : produto) : Prop := (qval (valor b) <= qval (valor a))%Q.

(** The index of the first record of [df] named [k]. *)
Fixpoint first_index (k : str) (df : DataFrame) : nat :=
  match df with
  | [] => 0
  | p :: tl => if str_eqb (nome p) k then 0 else S (first_index k tl)
  end.

(** Records of equal value stand in the order in which their names first
    appeared in the input. *)
Definition ties_in_input_order (produtos out : DataFrame) : Prop :=
  forall i j a b,
    i < j -> nth_error out i = Some a -> nth_error out j = Some b ->
    (qval (valor a) == qval (valor b))%Q ->
    first_index (nome a) produtos < first_index (nome b) produtos.

(** ** Example inputs *)

Definition text_acougue : str :=
  lit "Departamento:" ++ [LF; LF] ++ lit "ACOUGUE" ++ [LF] ++ lit "ARROZ 1,00 1,000 1,00".

Definition text_acougue_long : str :=
  lit "Departamento:" ++ [LF; LF] ++ lit "ACOUGUE" ++ [LF]
  ++ lit "ARROZ BRANCO TIPO UM PACOTE CINCO QUILOS" ++ [LF] ++ lit "FEIJAO".

Definition text_ties : str :=
  lit "BBB 1,00 1,000 5,00" ++ [LF] ++ lit "AAA 1,00 1,000 5,00".

Definition line_arroz : str :=
  lit "ARROZ BRANCO 5KG 12,50 3,000 37,50 123456 7891234567890".

Definition text_two_lines : str :=
  lit "ARROZ 10,00 1,000 10,00" ++ [LF] ++ lit "FEIJAO 8,00 1,000 8,00" ++ [LF]
  ++ lit "ARROZ 12,00 2,500 30,00".

Definition line_price_zero : str := lit "ARROZ 0,00 3,000 37,50".

(** ** Further vocabulary *)

(** [s.count(c)] for a character [c]. *)
Definition count_char (c : ascii) (s : str) : nat := length (filter (ascii_eqb c) s).

(** What [re.sub(r"[^A-Z0-9]", "", s)] keeps. *)
Definition az09 (c : ascii) : bool := (in_range 65 90 c || in_range 48 57 c)%bool.

Definition keep_az09 (s : str) : str := filter az09 s.

(** The marker of the first heuristic, in lower case. *)
Definition MARKER : str := lit "departamento:".

Definition SLASH : ascii := chr 47.

(** A line with the four fields of a product, single spaces between them. *)
Definition product_line (name price qty value : str) : str :=
  name ++ [SP] ++ price ++ [SP] ++ qty ++ [SP] ++ value.

(** The number of digits [s] ends with. *)
Definition digit_tail (s : str) : nat := length (fst (span is_digit (rev s))).

(** No word of the denylist occurs in the line. *)
Definition no_lixo (ln : str) : Prop := existsb (fun k => contains k ln) lixo = false.

(** At least three consecutive letters. *)
Definition has_letters (s : str) : Prop :=
  exists a b c, s = a ++ b ++ c /\ all letter_char b /\ 3 <= length b.

(** What every accepted name is: stripped, and with three letters in a
    row. *)
Definition proper_name (s : str) : Prop :=
  has_letters s /\ starts_nonspace s /\ ends_nonspace s.

(** The sanity filters as Python compares floats: a price above 0, a
    quantity and a value not below 0.  An infinite number passes them, NaN
    does not. *)
Definition passes_filters (p : produto) : Prop :=
  fltb fzero (preco_unit p) = true /\
  fleb fzero (quantidade p) = true /\
  fleb fzero (valor p) = true.

(** A numeral of at most 300 digits, decimals included. *)
Definition short_numeral (int_part frac : str) : Prop :=
  length int_part + length frac <= 300.

(** Zero, or a number from 10^-300 up to 10^300: reading the numeral of such
    a number, [float] neither overflows to infinity nor underflows to
    zero. *)
Definition double_range (q : Q) : Prop :=
  (q == 0 \/ ((10 # 1) ^ (-300) <= q /\ q < (10 # 1) ^ 300))%Q.

(** No two white-space characters next to each other. *)
Fixpoint single_spaced (s : str) : bool :=
  match s with
  | c1 :: tl =>
      match tl with
      | c2 :: _ => negb (is_space c1 && is_space c2) && single_spaced tl
      | [] => true
      end
  | [] => true
  end.

Definition head_space (s : str) : bool :=
  match s with c :: _ => is_space c | [] => false end.

(** Trimmed: empty, or with a first and a last character that are no white
    space. *)
Definition trimmed (s : str) : Prop := s = [] \/ (starts_nonspace s /\ ends_nonspace s).

(** A digit or a white-space character. *)
Definition digit_or_space (c : ascii) : bool := (is_digit c || is_space c)%bool.

(** The line pattern after the name: from the white space before the price
    to the end. *)
Definition patt_tail : regex :=
  seq [Rep true 1 None is_space;
       Grp G_PRECO NUM_TOKEN;
       Rep true 1 None is_space;
       Grp G_QTD NUM_TOKEN;
       Rep true 1 None is_space;
       Grp G_VALOR NUM_TOKEN;
       Opt (Grp 5 (seq [Rep true 1 None is_space; Rep true 1 None dot_char]));
       Eos].

(** * Properties *)

(** ** Characters *)

Lemma code_inj (a b : ascii) : code a = code b -> a = b.
Proof.
  unfold code. intros H.
  rewrite <- (ascii_N_embedding a), <- (ascii_N_embedding b). now rewrite H.
Qed.

Lemma ascii_eqb_eq (a b : ascii) : ascii_eqb a b = true <-> a = b.
Proof.
  unfold ascii_eqb. rewrite N.eqb_eq. split; [apply code_inj | now intros ->].
Qed.

Lemma ascii_eqb_neq (a b : ascii) : ascii_eqb a b = false <-> a <> b.
Proof.
  rewrite <- ascii_eqb_eq. destruct (ascii_eqb a b); split; congruence.
Qed.

Lemma str_eqb_eq (a b : str) : str_eqb a b = true <-> a = b.
Proof.
  revert b. induction a as [|x a IH]; intros [|y b]; simpl; try (split; congruence).
  rewrite andb_true_iff, ascii_eqb_eq, IH. split; [intros [-> ->] | intros [= -> ->]]; auto.
Qed.

Lemma str_eqb_refl (a : str) : str_eqb a a = true.
Proof. now apply str_eqb_eq. Qed.

(** Facts about the character classes are decided by running through the
    256 characters. *)
Ltac by_cases_on_char c :=
  destruct c as [[] [] [] [] [] [] [] []]; vm_compute; try reflexivity; try discriminate; auto.

Lemma num_char_not_space (c : ascii) : num_char c = true -> is_space c = false.
Proof. by_cases_on_char c. Qed.

Lemma digit_is_num_char (c : ascii) : is_digit c = true -> num_char c = true.
Proof. by_cases_on_char c. Qed.

Lemma digit_is_word (c : ascii) : is_digit c = true -> is_word c = true.
Proof. by_cases_on_char c. Qed.

(** ** Strings *)

Lemma dropwhile_none (p : ascii -> bool) (s : str) : none p s -> dropwhile p s = s.
Proof. destruct 1 as [|c s Hc _]; simpl in *; [reflexivity | now rewrite Hc]. Qed.

Lemma strip_by_none (p : ascii -> bool) (s : str) : none p s -> strip_by p s = s.
Proof.
  intros H. unfold strip_by, lstrip_by, rstrip_by.
  rewrite (dropwhile_none p s H), dropwhile_none; [apply rev_involutive |].
  now apply Forall_rev.
Qed.

Lemma none_weaken (p q : ascii -> bool) (s : str) :
  (forall c, q c = true -> p c = false) -> all q s -> none p s.
Proof. intros Hpq H. eapply Forall_impl; [|exact H]. exact Hpq. Qed.

Lemma all_weaken (p q : ascii -> bool) (s : str) :
  (forall c, q c = true -> p c = true) -> all q s -> all p s.
Proof. intros Hpq H. eapply Forall_impl; [|exact H]. exact Hpq. Qed.

Lemma span_all (p : ascii -> bool) (a b : str) :
  all p a -> match b with [] => True | c :: _ => p c = false end ->
  span p (a ++ b) = (a, b).
Proof.
  intros Ha Hb. induction Ha as [|c a Hc _ IH]; simpl in *.
  - destruct b as [|c b]; simpl; [reflexivity | now rewrite Hb].
  - now rewrite Hc, IH.
Qed.

Lemma filter_all {A : Type} (f : A -> bool) (l : list A) :
  Forall (fun x => f x = true) l -> filter f l = l.
Proof. induction 1 as [|x l Hx _ IH]; simpl in *; [reflexivity | now rewrite Hx, IH]. Qed.

Lemma replace_drop_none (c : ascii) (s : str) :
  none (fun x => ascii_eqb x c) s -> forall new, replace c new s = s.
Proof.
  intros H new. unfold replace.
  induction H as [|x s Hx _ IH]; simpl in *; [reflexivity | now rewrite Hx, IH].
Qed.

Lemma replace_app (c : ascii) (new a b : str) :
  replace c new (a ++ b) = replace c new a ++ replace c new b.
Proof. unfold replace. apply flat_map_app. Qed.

Lemma replace_all (p : ascii -> bool) (c : ascii) (new s : str) :
  all p new -> all p (filter (fun x => negb (ascii_eqb x c)) s) -> all p (replace c new s).
Proof.
  intros Hn. unfold replace, all. induction s as [|x s IH]; simpl; intros H; [constructor|].
  destruct (ascii_eqb x c); simpl in *.
  - apply Forall_app. split; [exact Hn | now apply IH].
  - inversion H; subst. constructor; [assumption | now apply IH].
Qed.

Lemma contains_In (c : ascii) (s : str) : contains [c] s = true <-> In c s.
Proof.
  induction s as [|x s IH]; simpl.
  - split; [discriminate | tauto].
  - rewrite orb_true_iff, IH, andb_true_r, ascii_eqb_eq. split; intros [H|H]; auto.
Qed.

(** ** Floats read from digits and dots *)

Lemma dd_not_float_space (c : ascii) : dd_char c = true -> is_float_space c = false.
Proof. by_cases_on_char c. Qed.

Lemma dd_not_underscore (c : ascii) : dd_char c = true -> negb (is_char 95 c) = true.
Proof. by_cases_on_char c. Qed.

Lemma dd_not_comma (c : ascii) : dd_char c = true -> ascii_eqb c COMMA = false.
Proof. by_cases_on_char c. Qed.

Lemma dd_parse_sign (s : str) : all dd_char s -> parse_sign s = (false, s).
Proof.
  destruct 1 as [|c s Hc _]; [reflexivity|]. unfold parse_sign.
  revert Hc. by_cases_on_char c.
Qed.

Lemma dd_ascii_lower (c : ascii) : dd_char c = true -> ascii_lower c = c.
Proof. by_cases_on_char c. Qed.

Lemma dd_not_word (w : string) (c0 : ascii) (s : str) :
  dd_char c0 = false -> lit w = c0 :: List.tl (lit w) -> all dd_char s -> word_is w s = false.
Proof.
  intros Hc0 Hw Hs. unfold word_is. rewrite Hw.
  destruct Hs as [|c s Hc _]; simpl in *; [reflexivity|].
  apply andb_false_iff. left. apply ascii_eqb_neq. intros E.
  rewrite (dd_ascii_lower c Hc) in E. congruence.
Qed.

Lemma underscores_ok_dd (s : str) (prev : option ascii) :
  match prev with Some p => is_char 95 p = false | None => True end ->
  all dd_char s -> underscores_ok prev s = true.
Proof.
  intros Hp H. revert prev Hp.
  induction H as [|c s Hc _ IH]; intros prev Hp; simpl in *.
  - destruct prev; [now rewrite Hp | reflexivity].
  - assert (Hu : is_char 95 c = false) by (revert Hc; by_cases_on_char c).
    rewrite Hu, (IH (Some c) Hu).
    destruct prev as [p|]; [rewrite Hp|]; reflexivity.
Qed.

(** On digits and dots [float] is [parse_number], unsigned. *)
Lemma py_float_dd (s : str) :
  all dd_char s ->
  py_float s = match parse_number s with
               | Some (m, e) => Ret (Fin (decimal false m e))
               | None => Raise ValueError
               end.
Proof.
  intros H. unfold py_float.
  rewrite (strip_by_none is_float_space s) by (eapply none_weaken; [apply dd_not_float_space | exact H]).
  rewrite (underscores_ok_dd s None I H). simpl negb. cbv iota.
  rewrite (filter_all _ s) by (eapply Forall_impl; [|exact H]; apply dd_not_underscore).
  rewrite (dd_parse_sign s H).
  rewrite (dd_not_word "inf" "i" s), (dd_not_word "infinity" "i" s), (dd_not_word "nan" "n" s);
    try reflexivity; assumption.
Qed.

Lemma digit_val_nonneg (c : ascii) : (0 <= digit_val c)%Z.
Proof. unfold digit_val. apply N2Z.is_nonneg. Qed.

Lemma fold_digits_nonneg (ds : str) (acc : Z) :
  (0 <= acc)%Z -> (0 <= fold_left (fun a d => 10 * a + digit_val d) ds acc)%Z.
Proof.
  revert acc. induction ds as [|d ds IH]; intros acc Hacc; cbn [fold_left]; [assumption|].
  apply IH. pose proof (digit_val_nonneg d). lia.
Qed.

Lemma digits_val_nonneg (ds : str) : (0 <= digits_val ds)%Z.
Proof. apply fold_digits_nonneg. lia. Qed.

Lemma parse_number_nonneg (s : str) (m e : Z) :
  parse_number s = Some (m, e) -> (0 <= m)%Z.
Proof.
  unfold parse_number.
  destruct (span is_digit s) as [ip r1].
  destruct (match r1 with
            | [] => ([], r1)
            | c :: r => if is_char 46 c then span is_digit r else ([], r1)
            end) as [fp r2].
  destruct (is_nil ip && is_nil fp)%bool; [discriminate|].
  destruct r2 as [|c r3].
  - intros [= <- _]. apply digits_val_nonneg.
  - destruct (is_char 101 c || is_char 69 c)%bool; [|discriminate].
    destruct (parse_sign r3) as [eneg r4]. destruct (span is_digit r4) as [ed r5].
    destruct (is_nil ed || negb (is_nil r5))%bool; [discriminate|].
    intros [= <- _]. apply digits_val_nonneg.
Qed.

Lemma decimal_nonneg (m e : Z) : (0 <= m)%Z -> (0 <= decimal false m e)%Q.
Proof.
  intros Hm. unfold decimal. rewrite Qred_correct.
  apply Qmult_le_0_compat.
  - change 0%Q with (inject_Z 0). now rewrite <- Zle_Qle.
  - apply Qpower_0_le. discriminate.
Qed.

Lemma decimal_canonical (neg : bool) (m e : Z) : Qred (decimal neg m e) = decimal neg m e.
Proof. unfold decimal. apply Qred_complete, Qred_correct. Qed.

(** A float read from digits and dots is a non-negative number. *)
Lemma py_float_dd_value (s : str) (v : pyfloat) :
  all dd_char s -> py_float s = Ret v -> exists q, v = Fin q /\ (0 <= q)%Q /\ Qred q = q.
Proof.
  intros H. rewrite (py_float_dd s H).
  destruct (parse_number s) as [[m e]|] eqn:E; [|discriminate].
  intros [= <-]. exists (decimal false m e). split; [reflexivity|]. split.
  - apply decimal_nonneg. eapply parse_number_nonneg; eassumption.
  - apply decimal_canonical.
Qed.

(** ** The numeric normaliser *)

Lemma py_float_try_total (t : str) (handler : exn -> exc (option pyfloat)) :
  (forall e, exists v, handler e = Ret v) ->
  exists v, try_except (x <- py_float t ;; Ret (Some x)) handler = Ret v.
Proof.
  intros Hh. destruct (py_float t) as [x|e]; simpl; [eauto | apply Hh].
Qed.

(** [br_to_float] never raises. *)
Lemma br_to_float_total (txt : option str) : exists v, br_to_float txt = Ret v.
Proof.
  destruct txt as [txt|]; simpl; [|eauto].
  destruct (contains [COMMA] (strip txt)).
  - apply py_float_try_total. intros _. apply py_float_try_total. eauto.
  - apply py_float_try_total. eauto.
Qed.

Lemma replace_comma_dot_dd (t : str) :
  all num_char t -> all dd_char (replace COMMA [DOT] (replace DOT [] t)).
Proof.
  intros H. apply replace_all; [repeat constructor|].
  unfold replace. induction H as [|c t Hc _ IH]; simpl in *; [constructor|].
  destruct (ascii_eqb c DOT) eqn:Ed; simpl; [exact IH|].
  destruct (ascii_eqb c COMMA) eqn:Ec; simpl; [exact IH|].
  constructor; [|exact IH].
  revert Hc Ed Ec. by_cases_on_char c.
Qed.

Lemma replace_comma_nil_dd (t : str) :
  all num_char t -> all dd_char (replace COMMA [] t).
Proof.
  intros H. apply replace_all; [constructor|].
  induction H as [|c t Hc _ IH]; simpl in *; [constructor|].
  destruct (ascii_eqb c COMMA) eqn:Ec; simpl; [exact IH|].
  constructor; [|exact IH].
  revert Hc Ec. by_cases_on_char c.
Qed.

(** Once the commas of a token were rewritten the fallback reads the very
    same string again. *)
Lemma br_to_float_comma (txt : str) :
  contains [COMMA] (strip txt) = true ->
  br_to_float (Some txt) =
  try_except (x <- py_float (replace COMMA [DOT] (replace DOT [] (strip txt))) ;; Ret (Some x))
             (fun _ => Ret None).
Proof.
  intros Hc. simpl. rewrite Hc.
  set (t := replace COMMA [DOT] (replace DOT [] (strip txt))).
  assert (Hid : replace COMMA [] t = t).
  { apply replace_drop_none. unfold t, replace.
    induction (flat_map (fun c => if ascii_eqb c DOT then [] else [c]) (strip txt)) as [|c l IH];
      simpl; [constructor|].
    destruct (ascii_eqb c COMMA) eqn:E; simpl.
    - constructor; [reflexivity | exact IH].
    - constructor; [exact E | exact IH]. }
  rewrite Hid. destruct (py_float t); reflexivity.
Qed.

(** A token of digits, dots and commas is read as a non-negative number or
    not at all. *)
Lemma br_to_float_num_token (t : str) :
  all num_char t ->
  br_to_float (Some t) = Ret None \/
  exists q, br_to_float (Some t) = Ret (Some (Fin q)) /\ (0 <= q)%Q /\ Qred q = q.
Proof.
  intros H.
  assert (Hs : strip t = t).
  { apply strip_by_none. eapply none_weaken; [|exact H]. apply num_char_not_space. }
  assert (Hdd : forall u, all dd_char u ->
            try_except (x <- py_float u ;; Ret (Some x)) (fun _ => Ret None) = Ret None \/
            exists q, try_except (x <- py_float u ;; Ret (Some x)) (fun _ => Ret None)
                      = Ret (Some (Fin q)) /\ (0 <= q)%Q /\ Qred q = q).
  { intros u Hu. destruct (py_float u) as [v|e] eqn:E; simpl; [|now left].
    right. destruct (py_float_dd_value u v Hu E) as (q & -> & Hq & Hc). eauto. }
  destruct (contains [COMMA] (strip t)) eqn:Hc.
  - rewrite (br_to_float_comma t Hc), Hs. apply Hdd, replace_comma_dot_dd, H.
  - simpl. rewrite Hc, Hs. apply Hdd, replace_comma_nil_dd, H.
Qed.

(** ** What a match of the engine consists of *)

Lemma last_or_app (pv : option ascii) (a b : str) :
  last_or pv (a ++ b) = last_or (last_or pv a) b.
Proof. apply fold_left_app. Qed.

Lemma last_or_cons (pv : option ascii) (c : ascii) (a : str) :
  last_or pv (c :: a) = last_or (Some c) a.
Proof. reflexivity. Qed.

Lemma last_or_snoc (pv : option ascii) (a : str) (c : ascii) :
  last_or pv (a ++ [c]) = Some c.
Proof. now rewrite last_or_app. Qed.

Lemma rep_loop_eq g lo hi p n pv ps cs l k :
  rep_loop g lo hi p n pv ps cs l k =
  let stop := fun _ : unit => if lo <=? n then k (MState pv ps l cs) else None in
  let more := fun _ : unit =>
    match l with
    | c :: tl =>
        if (p c && below hi n)%bool
        then rep_loop g lo hi p (S n) (Some c) (S ps) cs tl k
        else None
    | [] => None
    end in
  if g then orelse (more tt) stop else orelse (stop tt) more.
Proof. destruct l; reflexivity. Qed.

Lemma orelse_some {A : Type} (a : option A) (b : unit -> option A) (x : A) :
  orelse a b = Some x -> a = Some x \/ (a = None /\ b tt = Some x).
Proof. destruct a; simpl; intros H; [left | right]; auto. Qed.

(** A successful repetition read a run [a] of the class, of a permitted
    length, and the rest of the pattern matched after it. *)
Lemma rep_loop_inv g lo hi p l :
  forall n pv ps cs k res,
    rep_loop g lo hi p n pv ps cs l k = Some res ->
    exists a tl,
      l = a ++ tl /\ all p a /\ lo <= n + length a /\
      (a = [] \/ within hi (n + length a)) /\
      k (MState (last_or pv a) (ps + length a) tl cs) = Some res.
Proof.
  induction l as [|c l IH]; intros n pv ps cs k res H; rewrite rep_loop_eq in H; cbv zeta in H.
  - assert (Hstop : (if lo <=? n then k (MState pv ps [] cs) else None) = Some res).
    { destruct g; apply orelse_some in H; destruct H as [H|[_ H]]; try discriminate; exact H. }
    destruct (lo <=? n) eqn:E; [|discriminate]. apply Nat.leb_le in E.
    exists [], []. simpl. rewrite !Nat.add_0_r. repeat split; auto. constructor.
  - assert (Hcases :
      (if lo <=? n then k (MState pv ps (c :: l) cs) else None) = Some res \/
      (if (p c && below hi n)%bool
       then rep_loop g lo hi p (S n) (Some c) (S ps) cs l k else None) = Some res).
    { destruct g; apply orelse_some in H; destruct H as [H|[_ H]]; auto. }
    destruct Hcases as [Hstop|Hmore].
    + destruct (lo <=? n) eqn:E; [|discriminate]. apply Nat.leb_le in E.
      exists [], (c :: l). simpl. rewrite !Nat.add_0_r. repeat split; auto. constructor.
    + destruct (p c) eqn:Hp; [|discriminate]. destruct (below hi n) eqn:Hb; [|discriminate].
      simpl in Hmore. apply IH in Hmore.
      destruct Hmore as (a & tl & -> & Ha & Hlo & Hhi & Hk).
      exists (c :: a), tl. cbn [length app]. rewrite last_or_cons.
      replace (ps + S (length a)) with (S ps + length a) by lia.
      repeat split; auto.
      * constructor; assumption.
      * lia.
      * right. destruct hi as [h|]; simpl in *; [|exact I].
        apply Nat.ltb_lt in Hb. destruct Hhi as [->|Hhi]; simpl; lia.
Qed.

(** A greedy repetition that can take the whole run [a], and no more, takes
    it when the rest of the pattern matches after it. *)
Lemma rep_loop_greedy_all lo hi p a :
  forall tl n pv ps cs k res,
    all p a ->
    match tl with [] => True | c :: _ => p c = false end ->
    lo <= n + length a -> within hi (n + length a) ->
    k (MState (last_or pv a) (ps + length a) tl cs) = Some res ->
    rep_loop true lo hi p n pv ps cs (a ++ tl) k = Some res.
Proof.
  induction a as [|c a IH]; intros tl n pv ps cs k res Ha Htl Hlo Hhi Hk;
    rewrite rep_loop_eq; cbv zeta; simpl in *.
  - rewrite Nat.add_0_r in *.
    assert (Hmore : match tl with
                    | [] => None
                    | c :: tl0 => if (p c && below hi n)%bool
                                  then rep_loop true lo hi p (S n) (Some c) (S ps) cs tl0 k
                                  else None
                    end = None).
    { destruct tl as [|c tl]; [reflexivity | now rewrite Htl]. }
    rewrite Hmore. simpl. apply Nat.leb_le in Hlo. now rewrite Hlo.
  - inversion Ha as [|? ? Hc Ha']; subst. rewrite Hc.
    assert (Hb : below hi n = true).
    { destruct hi as [h|]; simpl in *; [apply Nat.ltb_lt; lia | reflexivity]. }
    rewrite Hb. simpl.
    rewrite (IH tl (S n) (Some c) (S ps) cs k res); auto.
    + lia.
    + destruct hi; simpl in *; [lia | exact I].
    + rewrite <- Hk. f_equal. f_equal. lia.
Qed.

(** ** The line pattern *)

Lemma span_of_subject (s x p y : str) (a b : nat) :
  s = x ++ p ++ y -> a = length x -> b = length x + length p ->
  firstn (b - a) (skipn a s) = p.
Proof.
  intros -> -> ->. rewrite skipn_app, skipn_all, Nat.sub_diag. simpl.
  replace (length x + length p - length x) with (length p + 0) by lia.
  rewrite firstn_app_2. simpl. apply app_nil_r.
Qed.

Ltac rep_step H a tl E Ha Hlo :=
  apply rep_loop_inv in H;
  destruct H as (a & tl & E & Ha & Hlo & _ & H);
  cbn [prev pos rest caps rmatch] in H.

Lemma patt_match_inv (s : str) (m : match_obj) :
  re_match patt s = Some m ->
  exists n w1 p w2 q w3 v r,
    s = n ++ w1 ++ p ++ w2 ++ q ++ w3 ++ v ++ r /\
    n <> [] /\ all dot_char n /\
    w1 <> [] /\ all is_space w1 /\ p <> [] /\ all num_char p /\
    w2 <> [] /\ all is_space w2 /\ q <> [] /\ all num_char q /\
    w3 <> [] /\ all is_space w3 /\ v <> [] /\ all num_char v /\
    leading_space r /\
    group s m G_NOME = n /\ group s m G_PRECO = p /\
    group s m G_QTD = q /\ group s m G_VALOR = v.
Proof.
  unfold re_match, match_here.
  destruct (rmatch patt (MState None 0 s []) (fun st => Some st)) as [st|] eqn:H; [|discriminate].
  intros [= <-].
  unfold patt, seq, NUM_TOKEN in H. cbn [fold_right rmatch pos prev rest caps Nat.eqb] in H.
  rep_step H n t1 E1 Hn Ln.
  rep_step H w1 t2 E2 Hw1 Lw1.
  rep_step H p t3 E3 Hp Lp.
  rep_step H w2 t4 E4 Hw2 Lw2.
  rep_step H q t5 E5 Hq Lq.
  rep_step H w3 t6 E6 Hw3 Lw3.
  rep_step H v r E7 Hv Lv.
  assert (Hs : s = n ++ w1 ++ p ++ w2 ++ q ++ w3 ++ v ++ r) by (subst; reflexivity).
  clear E1 E2 E3 E4 E5 E6 E7 t1 t2 t3 t4 t5 t6.
  assert (Hne : forall (x : str), 1 <= 0 + length x -> x <> []) by (intros [|? ?]; simpl; [lia | discriminate]).
  assert (Hr : leading_space r /\
               (caps st = (G_VALOR, (length (n ++ w1 ++ p ++ w2 ++ q ++ w3),
                                     length (n ++ w1 ++ p ++ w2 ++ q ++ w3) + length v))
                          :: (G_QTD, (length (n ++ w1 ++ p ++ w2),
                                      length (n ++ w1 ++ p ++ w2) + length q))
                          :: (G_PRECO, (length (n ++ w1), length (n ++ w1) + length p))
                          :: [(G_NOME, (0, 0 + length n))]
                \/ exists sp,
                caps st = (5, sp)
                          :: (G_VALOR, (length (n ++ w1 ++ p ++ w2 ++ q ++ w3),
                                     length (n ++ w1 ++ p ++ w2 ++ q ++ w3) + length v))
                          :: (G_QTD, (length (n ++ w1 ++ p ++ w2),
                                      length (n ++ w1 ++ p ++ w2) + length q))
                          :: (G_PRECO, (length (n ++ w1), length (n ++ w1) + length p))
                          :: [(G_NOME, (0, 0 + length n))])).
  { rewrite !length_app.
    replace (length n + (length w1 + (length p + (length w2 + (length q + length w3)))))
      with (0 + length n + length w1 + length p + length w2 + length q + length w3) by lia.
    replace (length n + (length w1 + (length p + length w2)))
      with (0 + length n + length w1 + length p + length w2) by lia.
    replace (length n + length w1) with (0 + length n + length w1) by lia.
    apply orelse_some in H. destruct H as [H|[_ H]].
    - rep_step H w4 t8 E8 Hw4 Lw4.
      rep_step H x t9 E9 Hx Lx.
      destruct (at_end _); [|discriminate]. injection H as <-. cbn [caps]. split.
      + subst r. destruct w4 as [|c w4]; [simpl in Lw4; lia|]. inversion Hw4; subst. assumption.
      + right. eexists. reflexivity.
    - destruct (at_end _) eqn:Hend; [|discriminate]. injection H as <-. cbn [caps]. split.
      + unfold at_end in Hend. cbn [rest] in Hend. destruct r as [|c [|? ?]]; try discriminate; [exact I|].
        apply ascii_eqb_eq in Hend. subst c. reflexivity.
      + left. reflexivity. }
  destruct Hr as [Hr Hcaps].
  exists n, w1, p, w2, q, w3, v, r.
  repeat match goal with |- _ /\ _ => split end; auto.
  all: unfold group; cbn [m_caps].
  all: destruct Hcaps as [->|[sp ->]]; cbn [lookup_cap G_NOME G_PRECO G_QTD G_VALOR Nat.eqb].
  all: try (apply (span_of_subject s [] n (w1 ++ p ++ w2 ++ q ++ w3 ++ v ++ r)); [exact Hs | reflexivity | reflexivity]).
  all: try (apply (span_of_subject s (n ++ w1) p (w2 ++ q ++ w3 ++ v ++ r)); [rewrite Hs, <- !app_assoc; reflexivity | reflexivity | reflexivity]).
  all: try (apply (span_of_subject s (n ++ w1 ++ p ++ w2) q (w3 ++ v ++ r)); [rewrite Hs, <- !app_assoc; reflexivity | reflexivity | reflexivity]).
  all: try (apply (span_of_subject s (n ++ w1 ++ p ++ w2 ++ q ++ w3) v r); [rewrite Hs, <- !app_assoc; reflexivity | reflexivity | reflexivity]).
Qed.

(** The fields of a candidate are what the pattern's groups hold. *)
Lemma extract_fields (ln : str) (c : candidate) :
  extract ln = Some c ->
  all num_char (c_preco c) /\ all num_char (c_qtd c) /\ all num_char (c_valor c).
Proof.
  unfold extract.
  destruct (is_nil ln || existsb (fun k => contains k ln) lixo)%bool; [discriminate|].
  destruct (re_match patt (clean_line ln)) as [m|] eqn:Hm; [|discriminate].
  intros [= <-]. cbn [c_preco c_qtd c_valor].
  apply patt_match_inv in Hm.
  destruct Hm as (n & w1 & p & w2 & q & w3 & v & r & _ & _ & _ & _ & _ & _ & Hp & _ & _ & _ & Hq
                  & _ & _ & _ & Hv & _ & _ & -> & -> & ->).
  auto.
Qed.

(** ** Validated records *)

Lemma Qle_bool_false (a b : Q) : Qle_bool a b = false -> (b < a)%Q.
Proof.
  intros H. apply Qnot_le_lt. intros Hle. apply Qle_bool_iff in Hle. congruence.
Qed.

Lemma validate_num (c : candidate) :
  all num_char (c_preco c) -> all num_char (c_qtd c) -> all num_char (c_valor c) ->
  validate c = Ret None \/
  exists p, validate c = Ret (Some p) /\ valid_record p /\ nome p = c_nome c.
Proof.
  intros Hp Hq Hv. unfold validate.
  destruct (br_to_float_num_token _ Hp) as [->|(a & -> & Ha & Ca)];
  destruct (br_to_float_num_token _ Hq) as [->|(b & -> & Hb & Cb)];
  destruct (br_to_float_num_token _ Hv) as [->|(d & -> & Hd & Cd)];
  cbn [bind]; auto.
  all: try (destruct (fleb (Fin a) fzero); auto; fail).
  all: try (destruct (fleb (Fin a) fzero); auto; destruct (fltb (Fin d) fzero); auto; fail).
  destruct (fleb (Fin a) fzero) eqn:Ea; auto.
  destruct (fltb (Fin d) fzero); auto.
  destruct (fltb (Fin b) fzero); auto.
  destruct (negb (is_some (re_search RE_LETTERS (c_nome c)))); auto.
  right. eexists. split; [reflexivity|]. split; [|reflexivity].
  exists a, b, d. cbn [preco_unit quantidade valor]. repeat split; auto.
  simpl in Ea. now apply Qle_bool_false.
Qed.

(** A line yields a validated record or nothing; it never raises. *)
Lemma parse_line_cases (ln : str) :
  parse_line ln = Ret None \/ exists p, parse_line ln = Ret (Some p) /\ valid_record p.
Proof.
  unfold parse_line. destruct (extract ln) as [c|] eqn:E; [|now left].
  destruct (extract_fields ln c E) as (Hp & Hq & Hv).
  destruct (validate_num c Hp Hq Hv) as [->|(p & -> & Hvalid & _)]; eauto.
Qed.

Lemma collect_cons (ln : str) (lines : list str) :
  collect (ln :: lines) =
  r <- parse_line ln ;; rs <- collect lines ;;
  Ret (match r with Some p => p :: rs | None => rs end).
Proof. reflexivity. Qed.

Lemma collect_valid (lines : list str) :
  exists ps, collect lines = Ret ps /\ Forall valid_record ps.
Proof.
  induction lines as [|ln lines (ps & Hps & Hvalid)].
  - exists []. split; [reflexivity | constructor].
  - rewrite collect_cons, Hps.
    destruct (parse_line_cases ln) as [->|(p & -> & Hp)]; cbn [bind]; eauto.
Qed.

(** A line that yields nothing leaves no trace in the records. *)
Lemma collect_skip (before after : list str) (ln : str) :
  parse_line ln = Ret None -> collect (before ++ ln :: after) = collect (before ++ after).
Proof.
  intros H. induction before as [|x before IH]; cbn [app].
  - rewrite collect_cons, H. cbn [bind]. destruct (collect after); reflexivity.
  - rewrite !collect_cons, IH. reflexivity.
Qed.

(** ** Sorting *)

Section SortingFacts.
Context {A : Type} (leb : A -> A -> bool) (P : A -> Prop).
Hypothesis leb_total : forall x y, P x -> P y -> leb x y = true \/ leb y x = true.
Hypothesis leb_trans :
  forall x y z, P x -> P y -> P z -> leb x y = true -> leb y z = true -> leb x z = true.

Lemma insert_sorted_perm (x : A) (l : list A) :
  Permutation (insert_sorted leb x l) (x :: l).
Proof.
  induction l as [|y l IH]; simpl; [reflexivity|].
  destruct (leb x y); [reflexivity|].
  rewrite IH. apply perm_swap.
Qed.

Lemma stable_sort_perm (l : list A) : Permutation (stable_sort leb l) l.
Proof.
  induction l as [|x l IH]; simpl; [reflexivity|].
  rewrite insert_sorted_perm. now constructor.
Qed.

Lemma insert_sorted_sorted (x : A) (l : list A) :
  P x -> Forall P l ->
  StronglySorted (fun a b => leb a b = true) l ->
  StronglySorted (fun a b => leb a b = true) (insert_sorted leb x l).
Proof.
  intros Hx HP Hs. induction Hs as [|y l Hs IH Hy]; simpl.
  - constructor; constructor.
  - inversion HP as [|? ? Py Pl]; subst.
    destruct (leb x y) eqn:E.
    + constructor; [constructor; assumption|].
      constructor; [assumption|].
      rewrite Forall_forall in *. intros z Hz.
      apply (leb_trans x y z); auto.
    + constructor; [apply IH; assumption|].
      assert (Hyx : leb y x = true) by (destruct (leb_total x y Hx Py); congruence).
      eapply Permutation_Forall; [symmetry; apply insert_sorted_perm|].
      constructor; assumption.
Qed.

Lemma stable_sort_sorted (l : list A) :
  Forall P l -> StronglySorted (fun a b => leb a b = true) (stable_sort leb l).
Proof.
  induction 1 as [|x l Hx Hl IH]; simpl; [constructor|].
  apply insert_sorted_sorted; auto.
  eapply Permutation_Forall; [symmetry; apply stable_sort_perm | assumption].
Qed.
End SortingFacts.

Lemma StronglySorted_rev {A : Type} (R : A -> A -> Prop) (l : list A) :
  StronglySorted R l -> StronglySorted (fun a b => R b a) (rev l).
Proof.
  induction 1 as [|x l Hs IH Hx]; simpl; [constructor|].
  assert (G : forall l1 : list A,
             StronglySorted (fun a b => R b a) l1 -> Forall (fun y => R x y) l1 ->
             StronglySorted (fun a b => R b a) (l1 ++ [x])).
  { induction 1 as [|y l1 Hs1 IH1 Hy]; simpl; intros HF.
    - constructor; constructor.
    - inversion HF; subst. constructor; [auto|].
      apply Forall_app. split; [assumption | constructor; [assumption | constructor]]. }
  apply G; [exact IH | now apply Forall_rev].
Qed.

Lemma filter_partition_perm {A : Type} (f : A -> bool) (l : list A) :
  Permutation (filter (fun x => negb (f x)) l ++ filter f l) l.
Proof.
  induction l as [|x l IH]; simpl; [reflexivity|].
  destruct (f x); simpl.
  - rewrite <- Permutation_middle. now constructor.
  - now constructor.
Qed.

(** ** The aggregator *)

Lemma skipna_fin (l : list pyfloat) : Forall is_fin l -> skipna l = l.
Proof.
  intros H. apply filter_all. eapply Forall_impl; [|exact H].
  intros x [q ->]. reflexivity.
Qed.

Lemma fold_fadd_fin (l : list pyfloat) :
  Forall is_fin l -> forall acc,
  exists q, fold_left fadd l (Fin acc) = Fin q /\ (q == acc + Qsum (map qval l))%Q.
Proof.
  induction 1 as [|x l [a ->] _ IH]; intros acc.
  - exists acc. split; [reflexivity | simpl; ring].
  - change (fold_left fadd (Fin a :: l) (Fin acc))
      with (fold_left fadd l (Fin (Qred (acc + a)))).
    destruct (IH (Qred (acc + a))) as (q & -> & Hq).
    exists q. split; [reflexivity|]. rewrite Hq, Qred_correct.
    unfold Qsum. cbn [map fold_right qval]. ring.
Qed.

Lemma fsum_fin (l : list pyfloat) :
  Forall is_fin l -> exists q, fsum l = Fin q /\ (q == Qsum (map qval l))%Q.
Proof.
  intros H. unfold fsum, fzero. rewrite (skipna_fin l H).
  destruct (fold_fadd_fin l H 0) as (q & -> & Hq).
  exists q. split; [reflexivity|]. rewrite Hq. ring.
Qed.

Lemma fmean_fin (l : list pyfloat) :
  Forall is_fin l -> l <> [] ->
  exists q, fmean l = Fin q /\
            (q == Qsum (map qval l) / inject_Z (Z.of_nat (length l)))%Q.
Proof.
  intros H Hne. unfold fmean, fzero. rewrite (skipna_fin l H).
  destruct l as [|x l]; [congruence|].
  destruct (fold_fadd_fin (x :: l) H 0) as (q & -> & Hq).
  eexists. split; [reflexivity|]. rewrite Qred_correct, Hq.
  apply Qdiv_comp; [ring | reflexivity].
Qed.

Lemma mem_str_In (k : str) (l : list str) : mem_str k l = true <-> In k l.
Proof.
  induction l as [|x l IH]; simpl; [split; [discriminate | tauto]|].
  rewrite orb_true_iff, str_eqb_eq, IH. split; intros [H|H]; auto.
Qed.

Lemma unique_In (k : str) (l : list str) : In k (unique l) <-> In k l.
Proof.
  induction l as [|x l IH]; simpl; [tauto|].
  destruct (mem_str x l) eqn:E; simpl; rewrite IH; [|tauto].
  apply mem_str_In in E. split; [auto | intros [<-|H]; auto].
Qed.

Lemma unique_NoDup (l : list str) : NoDup (unique l).
Proof.
  induction l as [|x l IH]; simpl; [constructor|].
  destruct (mem_str x l) eqn:E; [assumption|].
  constructor; [|assumption].
  rewrite unique_In, <- mem_str_In. congruence.
Qed.

Lemma group_keys_NoDup (df : DataFrame) : NoDup (group_keys df).
Proof.
  unfold group_keys.
  eapply Permutation_NoDup; [symmetry; apply stable_sort_perm | apply unique_NoDup].
Qed.

Lemma group_keys_In (df : DataFrame) (k : str) :
  In k (group_keys df) <-> In k (map nome df).
Proof.
  unfold group_keys. rewrite <- (unique_In k (map nome df)). split; apply Permutation_in.
  - apply stable_sort_perm.
  - symmetry. apply stable_sort_perm.
Qed.

Lemma groupby_agg_names (df : DataFrame) : map nome (groupby_agg df) = group_keys df.
Proof.
  unfold groupby_agg. rewrite map_map. simpl. apply map_id.
Qed.

Lemma sort_values_perm (df : DataFrame) : Permutation (sort_values_valor_desc df) df.
Proof.
  unfold sort_values_valor_desc.
  rewrite <- Permutation_rev, stable_sort_perm, <- Permutation_rev.
  apply (filter_partition_perm (fun p => is_nan (valor p))).
Qed.

Lemma aggregate_perm (df : DataFrame) : Permutation (aggregate df) (groupby_agg df).
Proof.
  unfold aggregate. destruct df as [|p df]; [reflexivity|]. apply sort_values_perm.
Qed.

(** No two output records share a name. *)
Lemma aggregate_names_NoDup (df : DataFrame) : NoDup (map nome (aggregate df)).
Proof.
  eapply Permutation_NoDup.
  - symmetry. apply Permutation_map, aggregate_perm.
  - rewrite groupby_agg_names. apply group_keys_NoDup.
Qed.

Lemma valid_record_fin (p : produto) :
  valid_record p -> is_fin (preco_unit p) /\ is_fin (quantidade p) /\ is_fin (valor p).
Proof.
  intros (a & b & c & Ha & Hb & Hc & _). unfold is_fin. rewrite Ha, Hb, Hc.
  repeat split; eexists; reflexivity.
Qed.

Lemma group_rows_valid (df : DataFrame) (k : str) :
  Forall valid_record df -> Forall valid_record (group_rows df k).
Proof.
  intros H. apply Forall_forall. intros p Hp. apply filter_In in Hp.
  rewrite Forall_forall in H. now apply H.
Qed.

Lemma group_rows_nonempty (df : DataFrame) (k : str) :
  In k (map nome df) -> group_rows df k <> [].
Proof.
  intros H. apply in_map_iff in H. destruct H as (p & <- & Hp).
  assert (Hin : In p (group_rows df (nome p))).
  { apply filter_In. split; [assumption | apply str_eqb_refl]. }
  intros E. rewrite E in Hin. exact Hin.
Qed.

Lemma Forall_map_fin {f : produto -> pyfloat} (rows : DataFrame) :
  (forall p, valid_record p -> is_fin (f p)) ->
  Forall valid_record rows -> Forall is_fin (map f rows).
Proof.
  intros Hf H. apply Forall_map. eapply Forall_impl; [|exact H]. exact Hf.
Qed.

(** The record of one group: sums and a mean of numbers. *)
Lemma agg_group_fin (df : DataFrame) (k : str) :
  Forall valid_record df -> In k (map nome df) ->
  exists pu qt vl,
    agg_group df k = Produto k (Fin pu) (Fin qt) (Fin vl) /\
    (pu == Qsum (map qval (map preco_unit (group_rows df k)))
           / inject_Z (Z.of_nat (length (group_rows df k))))%Q /\
    (qt == Qsum (map qval (map quantidade (group_rows df k))))%Q /\
    (vl == Qsum (map qval (map valor (group_rows df k))))%Q.
Proof.
  intros Hv Hk. unfold agg_group.
  pose proof (group_rows_valid df k Hv) as Hrows.
  pose proof (group_rows_nonempty df k Hk) as Hne.
  destruct (fmean_fin (map preco_unit (group_rows df k))) as (pu & -> & Hpu).
  { apply Forall_map_fin; [|exact Hrows]. intros p Hp. apply (valid_record_fin p Hp). }
  { intros E. apply map_eq_nil in E. contradiction. }
  destruct (fsum_fin (map quantidade (group_rows df k))) as (qt & -> & Hqt).
  { apply Forall_map_fin; [|exact Hrows]. intros p Hp. apply (valid_record_fin p Hp). }
  destruct (fsum_fin (map valor (group_rows df k))) as (vl & -> & Hvl).
  { apply Forall_map_fin; [|exact Hrows]. intros p Hp. apply (valid_record_fin p Hp). }
  exists pu, qt, vl. rewrite length_map in Hpu. auto.
Qed.

Lemma groupby_agg_fin (df : DataFrame) :
  Forall valid_record df -> Forall fin_valor (groupby_agg df).
Proof.
  intros Hv. unfold groupby_agg. apply Forall_map, Forall_forall. intros k Hk.
  apply group_keys_In in Hk.
  destruct (agg_group_fin df k Hv Hk) as (pu & qt & vl & -> & _).
  unfold fin_valor, is_fin. simpl. eauto.
Qed.

Lemma valor_leb_total (x y : produto) :
  fin_valor x -> fin_valor y -> valor_leb x y = true \/ valor_leb y x = true.
Proof.
  unfold valor_leb. intros [a ->] [b ->]. simpl.
  destruct (Qlt_le_dec b a) as [H|H].
  - right. apply Qle_bool_iff. now apply Qlt_le_weak.
  - left. now apply Qle_bool_iff.
Qed.

Lemma valor_leb_trans (x y z : produto) :
  fin_valor x -> fin_valor y -> fin_valor z ->
  valor_leb x y = true -> valor_leb y z = true -> valor_leb x z = true.
Proof.
  unfold valor_leb. intros [a ->] [b ->] [c ->]. simpl.
  rewrite !Qle_bool_iff. apply Qle_trans.
Qed.

Lemma StronglySorted_weaken {A : Type} (R R' : A -> A -> Prop) (l : list A) :
  (forall a b, In a l -> In b l -> R a b -> R' a b) ->
  StronglySorted R l -> StronglySorted R' l.
Proof.
  intros HR Hs. induction Hs as [|x l Hs IH Hx]; constructor.
  - apply IH. intros a b Ha Hb. apply HR; now right.
  - rewrite Forall_forall in *. intros y Hy. apply HR; [now left | now right | auto].
Qed.

(** [sort_values] leaves numbers in non-increasing order. *)
Lemma sort_values_sorted (df : DataFrame) :
  Forall fin_valor df -> StronglySorted valor_ge (sort_values_valor_desc df).
Proof.
  intros H. unfold sort_values_valor_desc.
  assert (Hnn : filter (fun p => negb (is_nan (valor p))) df = df).
  { apply filter_all. eapply Forall_impl; [|exact H]. intros p [q Hq]. now rewrite Hq. }
  assert (Hn : filter (fun p => is_nan (valor p)) df = []).
  { clear Hnn. induction H as [|p df [q Hq] _ IH]; simpl; [reflexivity|]. now rewrite Hq. }
  rewrite Hnn, Hn, app_nil_r.
  assert (Hrev : Forall fin_valor (rev df)) by now apply Forall_rev.
  pose proof (stable_sort_sorted valor_leb fin_valor valor_leb_total valor_leb_trans
                (rev df) Hrev) as Hs.
  apply StronglySorted_rev in Hs.
  eapply StronglySorted_weaken; [|exact Hs].
  intros a b Ha Hb Hab. cbv beta in Hab.
  assert (Hall : Forall fin_valor (rev (stable_sort valor_leb (rev df)))).
  { apply Forall_rev. eapply Permutation_Forall; [symmetry; apply stable_sort_perm | exact Hrev]. }
  rewrite Forall_forall in Hall.
  destruct (Hall a Ha) as [x Hx], (Hall b Hb) as [y Hy].
  unfold valor_ge, valor_leb in *. rewrite Hx, Hy in *. simpl in *.
  now apply Qle_bool_iff.
Qed.

Lemma aggregate_sorted (df : DataFrame) :
  Forall valid_record df ->
  StronglySorted valor_ge (aggregate df) /\ Forall fin_valor (aggregate df).
Proof.
  intros H. split.
  - unfold aggregate. destruct df as [|p df]; [constructor|].
    apply sort_values_sorted, groupby_agg_fin, H.
  - eapply Permutation_Forall; [symmetry; apply aggregate_perm | apply groupby_agg_fin, H].
Qed.

Lemma filter_perm {A : Type} (f : A -> bool) (l l' : list A) :
  Permutation l l' -> Permutation (filter f l) (filter f l').
Proof.
  induction 1 as [|x l l' _ IH|x y l|l l' l'' _ IH1 _ IH2]; simpl.
  - reflexivity.
  - destruct (f x); [now constructor | assumption].
  - destruct (f x), (f y); try reflexivity. apply perm_swap.
  - now transitivity (filter f l').
Qed.

Lemma group_rows_of_keys (df : DataFrame) (keys : list str) (k : str) :
  NoDup keys -> In k keys ->
  group_rows (map (agg_group df) keys) k = [agg_group df k].
Proof.
  unfold group_rows. intros Hnd. induction Hnd as [|x keys Hx Hnd IH]; intros Hk; [destruct Hk|].
  cbn [map filter]. cbn [agg_group nome].
  destruct (str_eqb x k) eqn:E.
  - apply str_eqb_eq in E. subst x. f_equal.
    clear IH Hk. induction keys as [|y keys IH]; [reflexivity|].
    cbn [map filter agg_group nome].
    destruct (str_eqb y k) eqn:E.
    + apply str_eqb_eq in E. subst y. exfalso. apply Hx. now left.
    + apply IH.
      * intros H. apply Hx. now right.
      * now inversion Hnd.
  - destruct Hk as [->|Hk]; [rewrite str_eqb_refl in E; discriminate|]. now apply IH.
Qed.

(** Each name has exactly one output record, the record of its group. *)
Lemma aggregate_group (df : DataFrame) (k : str) :
  In k (map nome df) -> group_rows (aggregate df) k = [agg_group df k].
Proof.
  intros Hk.
  assert (Hp : Permutation (group_rows (aggregate df) k) [agg_group df k]).
  { unfold group_rows at 1. rewrite (filter_perm _ _ _ (aggregate_perm df)).
    fold (group_rows (groupby_agg df) k). unfold groupby_agg.
    rewrite group_rows_of_keys; [reflexivity | apply group_keys_NoDup | now apply group_keys_In]. }
  symmetry in Hp. now apply Permutation_length_1_inv in Hp.
Qed.

Lemma parse_lince_lines_run (text : str) :
  exists produtos,
    collect (normalize_lines text) = Ret produtos /\ Forall valid_record produtos /\
    parse_lince_lines text = Ret (aggregate produtos).
Proof.
  destruct (collect_valid (normalize_lines text)) as (ps & Hps & Hv).
  exists ps. repeat split; auto.
  unfold parse_lince_lines, parse_lines. now rewrite Hps.
Qed.

(** ** Tokens of a line *)

Lemma split_ws_aux_token (t : str) :
  none is_space t ->
  forall cur s, split_ws_aux cur (t ++ s) = split_ws_aux (rev t ++ cur) s.
Proof.
  induction 1 as [|c t Hc _ IH]; intros cur s; simpl in *; [reflexivity|].
  rewrite Hc, IH, <- app_assoc. reflexivity.
Qed.

Lemma split_ws_aux_spaces (w : str) :
  all is_space w -> forall cur s, split_ws_aux cur (w ++ s) =
                                  match w with [] => split_ws_aux cur s
                                          | _ => flush cur ++ split_ws_aux [] s end.
Proof.
  induction 1 as [|c w Hc Hw IH]; intros cur s; simpl in *; [reflexivity|].
  rewrite Hc, IH. destruct w; reflexivity.
Qed.

(** White space between two parts separates their tokens. *)
Lemma split_ws_aux_app (a w b : str) :
  all is_space w -> w <> [] ->
  forall cur, split_ws_aux cur (a ++ w ++ b) = split_ws_aux cur a ++ split_ws b.
Proof.
  intros Hw Hne. induction a as [|c a IH]; intros cur; simpl.
  - rewrite (split_ws_aux_spaces w Hw). destruct w; [congruence | reflexivity].
  - destruct (is_space c); [rewrite IH, app_assoc | rewrite IH]; reflexivity.
Qed.

Lemma split_ws_app (a w b : str) :
  all is_space w -> w <> [] -> split_ws (a ++ w ++ b) = split_ws a ++ split_ws b.
Proof. intros Hw Hne. apply split_ws_aux_app; assumption. Qed.

Lemma split_ws_leading (r : str) (cur : str) :
  leading_space r -> split_ws_aux cur r = flush cur ++ split_ws r.
Proof.
  unfold split_ws. destruct r as [|c r]; simpl; intros H.
  - now rewrite app_nil_r.
  - rewrite H. reflexivity.
Qed.

(** A run without white space that stands before white space, or at the
    end, is one token. *)
Lemma split_ws_token (t r : str) :
  t <> [] -> none is_space t -> leading_space r -> split_ws (t ++ r) = t :: split_ws r.
Proof.
  intros Hne Ht Hr. unfold split_ws at 1.
  rewrite (split_ws_aux_token t Ht), app_nil_r, (split_ws_leading r _ Hr).
  unfold flush. destruct (rev t) eqn:E.
  - apply (f_equal (@rev ascii)) in E. rewrite rev_involutive in E. contradiction.
  - rewrite <- E, rev_involutive. reflexivity.
Qed.

Lemma dropwhile_decomp (p : ascii -> bool) (s : str) :
  exists w, all p w /\ s = w ++ dropwhile p s.
Proof.
  induction s as [|c s (w & Hw & E)]; simpl.
  - exists []. split; [constructor | reflexivity].
  - destruct (p c) eqn:Hc.
    + exists (c :: w). split; [constructor; assumption | simpl; congruence].
    + exists []. split; [constructor | reflexivity].
Qed.

Lemma rstrip_decomp (p : ascii -> bool) (s : str) :
  exists w, all p w /\ s = rstrip_by p s ++ w.
Proof.
  unfold rstrip_by. destruct (dropwhile_decomp p (rev s)) as (w & Hw & E).
  exists (rev w). split; [now apply Forall_rev|].
  rewrite <- (rev_involutive s) at 1. rewrite E at 1. apply rev_app_distr.
Qed.

Lemma split_ws_aux_trailing (a w : str) :
  all is_space w -> forall cur, split_ws_aux cur (a ++ w) = split_ws_aux cur a.
Proof.
  intros Hw. induction a as [|c a IH]; intros cur; simpl.
  - rewrite <- (app_nil_r w), (split_ws_aux_spaces w Hw). destruct w; [reflexivity|].
    simpl. now rewrite app_nil_r.
  - destruct (is_space c); now rewrite IH.
Qed.

(** Stripping a line does not change its tokens. *)
Lemma split_ws_strip (s : str) : split_ws (strip s) = split_ws s.
Proof.
  unfold strip, strip_by, lstrip_by.
  destruct (dropwhile_decomp is_space s) as (w & Hw & E).
  remember (dropwhile is_space s) as d eqn:Hd.
  destruct (rstrip_decomp is_space d) as (w' & Hw' & E').
  assert (Ht : split_ws_aux [] d = split_ws_aux [] (rstrip_by is_space d)).
  { transitivity (split_ws_aux [] (rstrip_by is_space d ++ w'));
      [f_equal; exact E' | now apply split_ws_aux_trailing]. }
  rewrite E. unfold split_ws. rewrite (split_ws_aux_spaces w Hw), <- Ht.
  destruct w; reflexivity.
Qed.

Lemma lstrip_starts (s : str) : starts_nonspace s -> lstrip_by is_space s = s.
Proof. destruct s as [|c s]; simpl; [tauto | now intros ->]. Qed.

Lemma rstrip_ends (s : str) : ends_nonspace s -> rstrip_by is_space s = s.
Proof.
  intros (s' & c & -> & Hc). unfold rstrip_by.
  rewrite rev_app_distr. simpl. rewrite Hc. simpl.
  now rewrite rev_involutive.
Qed.

Lemma rstrip_trailing (s w : str) :
  all is_space w -> rstrip_by is_space (s ++ w) = rstrip_by is_space s.
Proof.
  intros Hw. unfold rstrip_by. rewrite rev_app_distr. f_equal.
  apply Forall_rev in Hw. induction Hw as [|c l Hc _ IH]; simpl in *; [reflexivity|].
  now rewrite Hc.
Qed.

(** Stripping a line that has white space only at its end. *)
Lemma strip_trailing (s w : str) :
  starts_nonspace s -> ends_nonspace s -> all is_space w -> strip (s ++ w) = s.
Proof.
  intros Hs He Hw. unfold strip, strip_by.
  rewrite lstrip_starts by (destruct s; [destruct Hs | exact Hs]).
  rewrite rstrip_trailing by assumption. now apply rstrip_ends.
Qed.

Lemma strip_clean (s : str) : starts_nonspace s -> ends_nonspace s -> strip s = s.
Proof.
  intros Hs He. rewrite <- (app_nil_r s) at 1. apply strip_trailing; auto. constructor.
Qed.

(** ** Substitution at the end of a line *)

Lemma sub_loop_zero r repl pv ps l :
  sub_loop r repl pv ps 0 l =
  match match_here r pv ps l with
  | Some m =>
      repl ++
      match m_end m - ps, l with
      | S k, c :: tl => sub_loop r repl (Some c) (S ps) k tl
      | O, c :: tl => c :: sub_loop r repl (Some c) (S ps) 0 tl
      | _, [] => []
      end
  | None =>
      match l with
      | c :: tl => c :: sub_loop r repl (Some c) (S ps) 0 tl
      | [] => []
      end
  end.
Proof. destruct l; reflexivity. Qed.

Section SubLoop.
Variables (r : regex) (repl : str).
Hypothesis no_empty_tail : forall pv ps, match_here r pv ps [] = None.

(** Skipping the rest of the subject leaves nothing. *)
Lemma sub_loop_skip_all (l : str) :
  forall pv ps, sub_loop r repl pv ps (length l) l = [].
Proof.
  induction l as [|c l IH]; intros pv ps; simpl.
  - now rewrite no_empty_tail.
  - apply IH.
Qed.

(** No match anywhere: the subject is unchanged. *)
Lemma sub_loop_miss (l : str) :
  forall pv ps,
    (forall x1 x2, l = x1 ++ x2 ->
                   match_here r (last_or pv x1) (ps + length x1) x2 = None) ->
    sub_loop r repl pv ps 0 l = l.
Proof.
  induction l as [|c l IH]; intros pv ps H; rewrite sub_loop_zero.
  - now rewrite no_empty_tail.
  - pose proof (H [] (c :: l) eq_refl) as H0. simpl in H0. rewrite Nat.add_0_r in H0.
    rewrite H0. f_equal. apply IH. intros x1 x2 E.
    specialize (H (c :: x1) x2). simpl in H. rewrite <- Nat.add_succ_comm in H.
    apply H. now rewrite E.
Qed.

(** The first match starts after [x] and runs to the end: [x] stays and
    the match is replaced. *)
Lemma sub_loop_hit (x y : str) :
  forall pv ps m,
    (forall x1 x2, x = x1 ++ x2 -> x2 <> [] ->
                   match_here r (last_or pv x1) (ps + length x1) (x2 ++ y) = None) ->
    y <> [] ->
    match_here r (last_or pv x) (ps + length x) y = Some m ->
    m_end m = ps + length x + length y ->
    sub_loop r repl pv ps 0 (x ++ y) = x ++ repl.
Proof.
  induction x as [|c x IH]; intros pv ps m Hx Hy Hm Hend; rewrite sub_loop_zero.
  - simpl in *. rewrite Nat.add_0_r in *. rewrite Hm, Hend.
    destruct y as [|c y]; [congruence|].
    replace (ps + length (c :: y) - ps) with (S (length y)) by (simpl; lia).
    now rewrite sub_loop_skip_all, app_nil_r.
  - pose proof (Hx [] (c :: x) eq_refl) as H0. simpl in H0. rewrite Nat.add_0_r in H0.
    cbn [app]. rewrite H0 by discriminate. cbn [app]. f_equal.
    apply (IH (Some c) (S ps) m); auto.
    + intros x1 x2 E Hne. specialize (Hx (c :: x1) x2). simpl in Hx.
      rewrite <- Nat.add_succ_comm in Hx. apply Hx; [now rewrite E | assumption].
    + simpl in Hm. now rewrite <- Nat.add_succ_comm in Hm.
    + simpl in Hend. lia.
Qed.
End SubLoop.

(** Matches start after [x] only, and run to the end: a prefix of the
    subject that keeps [x] is left. *)
Lemma sub_loop_tail (r : regex) (x y : str) :
  (forall pv ps, match_here r pv ps [] = None) ->
  forall pv ps,
    (forall x1 x2, x = x1 ++ x2 -> x2 <> [] ->
                   match_here r (last_or pv x1) (ps + length x1) (x2 ++ y) = None) ->
    (forall y1 y2 m, y = y1 ++ y2 ->
                     match_here r (last_or pv (x ++ y1)) (ps + length x + length y1) y2 = Some m ->
                     m_end m = ps + length x + length y) ->
    exists y1 y2, y = y1 ++ y2 /\ sub_loop r [] pv ps 0 (x ++ y) = x ++ y1.
Proof.
  intros Hnil. induction x as [|c x IH].
  - induction y as [|c y IH]; intros pv ps _ Hy; rewrite sub_loop_zero; cbn [app].
    + rewrite Hnil. exists [], []. split; reflexivity.
    + destruct (match_here r pv ps (c :: y)) as [m|] eqn:Hm.
      * pose proof (Hy [] (c :: y) m eq_refl) as He. simpl in He.
        rewrite !Nat.add_0_r in He. specialize (He Hm). rewrite He.
        replace (ps + S (length y) - ps) with (S (length y)) by lia.
        rewrite sub_loop_skip_all by exact Hnil.
        exists [], (c :: y). split; reflexivity.
      * destruct (IH (Some c) (S ps)) as (y1 & y2 & E & Hs).
        { intros x1 x2 E Hne. destruct x1; discriminate E || (simpl in E; subst; congruence). }
        { intros y1 y2 m E Hm'. specialize (Hy (c :: y1) y2 m). simpl in Hy.
          rewrite !Nat.add_0_r in Hy. simpl in Hm'. rewrite Nat.add_0_r in Hm'.
          replace (ps + S (length y1)) with (S (ps + length y1)) in Hy by lia.
          rewrite Hy; [simpl; lia | now rewrite E | exact Hm']. }
        exists (c :: y1), y2. split; [simpl; now rewrite E | simpl in Hs; now rewrite Hs].
  - intros pv ps Hx Hy. rewrite sub_loop_zero.
    pose proof (Hx [] (c :: x) eq_refl) as H0. simpl in H0. rewrite Nat.add_0_r in H0.
    cbn [app]. rewrite H0 by discriminate.
    destruct (IH (Some c) (S ps)) as (y1 & y2 & E & Hs).
    + intros x1 x2 E Hne. specialize (Hx (c :: x1) x2). simpl in Hx.
      rewrite <- Nat.add_succ_comm in Hx. apply Hx; [now rewrite E | assumption].
    + intros y1 y2 m E Hm. specialize (Hy y1 y2 m E). simpl in Hy.
      rewrite <- !Nat.add_succ_comm in Hy. simpl in Hy. simpl. apply Hy.
      simpl in Hm. exact Hm.
    + exists y1, y2. split; [exact E | now rewrite Hs].
Qed.

(** ** The two trailing-number patterns *)

Lemma at_end_inv pv ps tl cs : at_end (MState pv ps tl cs) = true -> tl = [] \/ tl = [LF].
Proof.
  unfold at_end. cbn [rest]. destruct tl as [|c [|? ?]]; try discriminate; auto.
  intros H. apply ascii_eqb_eq in H. subst. now right.
Qed.

(** A match of [RE_EAN] is a run of at least 8 digits up to the end of the
    subject, or up to its final line feed. *)
Lemma RE_EAN_inv pv ps l m :
  match_here RE_EAN pv ps l = Some m ->
  exists a tl, l = a ++ tl /\ all is_digit a /\ 8 <= length a /\
               (tl = [] \/ tl = [LF]) /\ m_end m = ps + length a.
Proof.
  unfold match_here.
  destruct (rmatch RE_EAN (MState pv ps l []) (fun st => Some st)) as [st|] eqn:H; [|discriminate].
  intros [= <-]. cbn [m_end].
  unfold RE_EAN, seq in H. cbn [fold_right rmatch pos prev rest caps] in H.
  destruct (at_boundary _); [|discriminate].
  rep_step H a rst E Ha La.
  destruct (at_boundary _); [|discriminate].
  destruct (at_end _) eqn:He; [|discriminate]. injection H as <-.
  apply at_end_inv in He. exists a, rst. cbn [pos]. repeat split; auto; try lia.
Qed.

(** A match of [RE_CODE] is a run of at least 4 digits and then white
    space up to the end of the subject, or up to its final line feed. *)
Lemma RE_CODE_inv pv ps l m :
  match_here RE_CODE pv ps l = Some m ->
  exists a w tl, l = a ++ w ++ tl /\ all is_digit a /\ 4 <= length a /\ all is_space w /\
                 (tl = [] \/ tl = [LF]) /\ m_end m = ps + length a + length w.
Proof.
  unfold match_here.
  destruct (rmatch RE_CODE (MState pv ps l []) (fun st => Some st)) as [st|] eqn:H; [|discriminate].
  intros [= <-]. cbn [m_end].
  unfold RE_CODE, seq in H. cbn [fold_right rmatch pos prev rest caps] in H.
  destruct (at_boundary _); [|discriminate].
  rep_step H a t1 E Ha La.
  destruct (at_boundary _); [|discriminate].
  rep_step H w rst E' Hw Lw.
  destruct (at_end _) eqn:He; [|discriminate]. injection H as <-.
  apply at_end_inv in He. exists a, w, rst. cbn [pos]. subst t1. repeat split; auto; try lia.
Qed.

Lemma RE_EAN_no_empty pv ps : match_here RE_EAN pv ps [] = None.
Proof.
  destruct (match_here RE_EAN pv ps []) as [m|] eqn:H; [|reflexivity].
  apply RE_EAN_inv in H. destruct H as (a & tl & E & _ & La & _).
  symmetry in E. apply app_eq_nil in E. destruct E as [-> _]. simpl in La. lia.
Qed.

Lemma RE_CODE_no_empty pv ps : match_here RE_CODE pv ps [] = None.
Proof.
  destruct (match_here RE_CODE pv ps []) as [m|] eqn:H; [|reflexivity].
  apply RE_CODE_inv in H. destruct H as (a & w & tl & E & _ & La & _).
  symmetry in E. apply app_eq_nil in E. destruct E as [-> _]. simpl in La. lia.
Qed.

Lemma last_or_digits (pv : option ascii) (a : str) :
  a <> [] -> all is_digit a -> word_at (last_or pv a) = true.
Proof.
  intros Hne Ha. destruct (exists_last Hne) as (a' & c & ->).
  rewrite last_or_snoc. simpl. apply digit_is_word.
  apply Forall_app in Ha. destruct Ha as [_ Ha]. now inversion Ha.
Qed.

Lemma digits_head_word (a : str) :
  a <> [] -> all is_digit a -> word_at (hd_error a) = true.
Proof.
  destruct a as [|c a]; [congruence|]. intros _ Ha. inversion Ha; subst. simpl.
  now apply digit_is_word.
Qed.

Lemma rep_loop_greedy_whole lo hi p (a : str) n pv ps cs k res :
  all p a -> lo <= n + length a -> within hi (n + length a) ->
  k (MState (last_or pv a) (ps + length a) [] cs) = Some res ->
  rep_loop true lo hi p n pv ps cs a k = Some res.
Proof.
  intros Ha Hlo Hhi Hk.
  pose proof (rep_loop_greedy_all lo hi p a [] n pv ps cs k res Ha I Hlo Hhi Hk) as H.
  now rewrite app_nil_r in H.
Qed.

(** A run of 8 to 13 digits that ends the subject, after a character that
    is not a word character, matches [RE_EAN] whole. *)
Lemma RE_EAN_hit pv ps (a : str) :
  all is_digit a -> 8 <= length a <= 13 -> word_at pv = false ->
  exists m, match_here RE_EAN pv ps a = Some m /\ m_end m = ps + length a.
Proof.
  intros Ha [Llo Lhi] Hpv.
  assert (Hne : a <> []) by (destruct a; simpl in *; [lia | discriminate]).
  unfold match_here, RE_EAN, seq. cbn [fold_right rmatch pos prev rest caps].
  unfold at_boundary at 1. cbn [prev rest]. rewrite Hpv, (digits_head_word a Hne Ha). cbn [eqb negb].
  rewrite (rep_loop_greedy_whole _ _ _ a 0 pv ps [] _ (MState (last_or pv a) (ps + length a) [] []));
    [eexists; split; reflexivity | auto | simpl; lia | simpl; lia |].
  unfold at_boundary, at_end. cbn [prev rest hd_error word_at].
  rewrite (last_or_digits pv a Hne Ha). reflexivity.
Qed.

(** The same for [RE_CODE] and 4 to 8 digits. *)
Lemma RE_CODE_hit pv ps (a : str) :
  all is_digit a -> 4 <= length a <= 8 -> word_at pv = false ->
  exists m, match_here RE_CODE pv ps a = Some m /\ m_end m = ps + length a.
Proof.
  intros Ha [Llo Lhi] Hpv.
  assert (Hne : a <> []) by (destruct a; simpl in *; [lia | discriminate]).
  unfold match_here, RE_CODE, seq. cbn [fold_right rmatch pos prev rest caps].
  unfold at_boundary at 1. cbn [prev rest]. rewrite Hpv, (digits_head_word a Hne Ha). cbn [eqb negb].
  rewrite (rep_loop_greedy_whole _ _ _ a 0 pv ps [] _ (MState (last_or pv a) (ps + length a) [] []));
    [eexists; split; reflexivity | auto | simpl; lia | simpl; lia |].
  unfold at_boundary. cbn [prev rest hd_error word_at].
  rewrite (last_or_digits pv a Hne Ha). cbn [eqb negb].
  rewrite rep_loop_eq. cbv zeta. reflexivity.
Qed.

(** ** A line that ends in an integer written without separator *)

Lemma ends_numeric_nonspace (l : str) : ends_numeric l -> ends_nonspace l.
Proof. intros (l' & c & E & Hc). exists l', c. split; [exact E | now apply num_char_not_space]. Qed.

Lemma all_num_ends (t : str) : t <> [] -> all num_char t -> ends_numeric t.
Proof.
  intros Hne Ht. destruct (exists_last Hne) as (t' & c & ->). exists t', c.
  split; [reflexivity|]. apply Forall_app in Ht. destruct Ht as [_ Ht]. now inversion Ht.
Qed.

Lemma ends_numeric_app (x t : str) : ends_numeric t -> ends_numeric (x ++ t).
Proof. intros (t' & c & -> & Hc). exists (x ++ t'), c. now rewrite app_assoc. Qed.

(** On a subject that ends in a digit, dot or comma, a run of digits and
    white space that reaches the end, or the final line feed, is the whole
    subject and all digits. *)
Lemma trailing_run_is_digits (l a w rst : str) :
  l = a ++ w ++ rst -> all is_space w -> rst = [] \/ rst = [LF] -> ends_numeric l ->
  l = a /\ w = [] /\ rst = [].
Proof.
  intros E Hw Ht (l' & c & El & Hc).
  assert (Hrst : rst = []).
  { destruct Ht as [->| ->]; [reflexivity|]. exfalso.
    rewrite El, !app_assoc in E. apply app_inj_tail in E. destruct E as [_ ->].
    vm_compute in Hc. discriminate. }
  subst rst. rewrite app_nil_r in E.
  assert (Hw0 : w = []).
  { destruct w as [|x w]; [reflexivity|]. exfalso.
    destruct (@exists_last _ (x :: w)) as (w' & c' & Ew); [discriminate|].
    rewrite Ew in E, Hw. rewrite El, app_assoc in E. apply app_inj_tail in E. destruct E as [_ ->].
    apply Forall_app in Hw. destruct Hw as [_ Hw]. inversion Hw as [|? ? Hs _]; subst.
    apply num_char_not_space in Hc. congruence. }
  subst w. rewrite app_nil_r in E. auto.
Qed.

(** A suffix that starts in or before a space-terminated part cannot be all
    digits. *)
Lemma digits_not_across_space (x l y : str) :
  l <> [] -> (exists x1, x ++ [SP] = x1 ++ l) -> all is_digit (l ++ y) -> False.
Proof.
  intros Hne [x1 E] Hd.
  destruct (exists_last Hne) as (l' & c & ->).
  rewrite app_assoc in E. apply app_inj_tail in E. destruct E as [_ <-].
  apply Forall_app in Hd. destruct Hd as [Hd _].
  apply Forall_app in Hd. destruct Hd as [_ Hd]. inversion Hd as [|? ? Hs _]; subst.
  discriminate Hs.
Qed.

Lemma last_or_space (pv : option ascii) (x : str) : word_at (last_or pv (x ++ [SP])) = false.
Proof. now rewrite last_or_snoc. Qed.

Section TrailingInteger.
Variables name price qty code : str.
Hypothesis name_starts : starts_nonspace name.
Hypothesis price_num : all num_char price.
Hypothesis price_ne : price <> [].
Hypothesis qty_num : all num_char qty.
Hypothesis qty_ne : qty <> [].
Hypothesis code_digits : all is_digit code.
Hypothesis code_len : 4 <= length code <= 8.

Local Abbreviation line_head := (line_head name price qty).
Local Abbreviation line_with_integer := (line_with_integer name price qty code).

Lemma code_ne : code <> [].
Proof. destruct code; simpl in *; [lia | discriminate]. Qed.

Lemma head_starts : starts_nonspace line_head.
Proof. unfold line_head. destruct name; [destruct name_starts | exact name_starts]. Qed.

Lemma head_ends : ends_numeric line_head.
Proof.
  unfold line_head. rewrite !app_assoc. apply ends_numeric_app, all_num_ends; assumption.
Qed.

Lemma line_starts : starts_nonspace line_with_integer.
Proof.
  unfold line_with_integer. pose proof head_starts as H. destruct line_head; [destruct H | exact H].
Qed.

Lemma line_ends : ends_numeric line_with_integer.
Proof.
  unfold line_with_integer. rewrite app_assoc. apply ends_numeric_app, all_num_ends.
  - apply code_ne.
  - eapply all_weaken; [apply digit_is_num_char | exact code_digits].
Qed.

(** Before the last field neither pattern matches: a match would be a
    run of digits across the space. *)
Lemma no_EAN_before (x y : str) pv ps :
  ends_numeric y ->
  forall x1 x2, x ++ [SP] = x1 ++ x2 -> x2 <> [] ->
    match_here RE_EAN (last_or pv x1) (ps + length x1) (x2 ++ y) = None.
Proof.
  intros Hy x1 x2 E Hne.
  destruct (match_here RE_EAN _ _ (x2 ++ y)) as [m|] eqn:Hm; [exfalso | reflexivity].
  apply RE_EAN_inv in Hm. destruct Hm as (a & rst & El & Ha & _ & Ht & _).
  destruct (trailing_run_is_digits (x2 ++ y) a [] rst) as (Ea & _ & _); auto.
  - constructor.
  - now apply ends_numeric_app.
  - rewrite <- Ea in Ha. eapply digits_not_across_space; eauto.
Qed.

Lemma no_CODE_before (x y : str) pv ps :
  ends_numeric y ->
  forall x1 x2, x ++ [SP] = x1 ++ x2 -> x2 <> [] ->
    match_here RE_CODE (last_or pv x1) (ps + length x1) (x2 ++ y) = None.
Proof.
  intros Hy x1 x2 E Hne.
  destruct (match_here RE_CODE _ _ (x2 ++ y)) as [m|] eqn:Hm; [exfalso | reflexivity].
  apply RE_CODE_inv in Hm. destruct Hm as (a & w & rst & El & Ha & _ & Hw & Ht & _).
  destruct (trailing_run_is_digits (x2 ++ y) a w rst) as (Ea & _ & _); auto.
  - now apply ends_numeric_app.
  - rewrite <- Ea in Ha. eapply digits_not_across_space; eauto.
Qed.

Lemma code_ends : ends_numeric code.
Proof.
  apply all_num_ends; [apply code_ne|].
  eapply all_weaken; [apply digit_is_num_char | exact code_digits].
Qed.

(** With fewer than 8 digits the last field is no EAN: the first
    substitution changes nothing. *)
Lemma sub_EAN_short : length code < 8 -> re_sub RE_EAN [] line_with_integer = line_with_integer.
Proof.
  intros Hlen. unfold re_sub. apply sub_loop_miss; [apply RE_EAN_no_empty|].
  intros x1 x2 E.
  destruct (match_here RE_EAN _ _ x2) as [m|] eqn:Hm; [exfalso | reflexivity].
  apply RE_EAN_inv in Hm. destruct Hm as (a & rst & El & Ha & La & Ht & _).
  assert (Hx2 : x2 <> []).
  { intros ->. symmetry in El. apply app_eq_nil in El. destruct El as [-> _]. simpl in La. lia. }
  unfold line_with_integer in E. rewrite app_assoc in E.
  apply app_eq_app in E. destruct E as (l & [[E1 E2]|[E1 E2]]).
  - (* x2 = l ++ code, with l a suffix of the part before *)
    assert (Hend : ends_numeric x2) by (rewrite E2; apply ends_numeric_app, code_ends).
    destruct (trailing_run_is_digits x2 a [] rst) as (Ea & _ & _); auto; [constructor|].
    subst a. rewrite E2 in Ha, La.
    destruct l as [|c l].
    + simpl in La. lia.
    + eapply (digits_not_across_space line_head (c :: l) code); eauto. discriminate.
  - (* x2 is a suffix of code *)
    assert (Hend : ends_numeric x2).
    { apply all_num_ends; [assumption|]. rewrite E2 in code_digits.
      apply Forall_app in code_digits. destruct code_digits as [_ H].
      eapply all_weaken; [apply digit_is_num_char | exact H]. }
    destruct (trailing_run_is_digits x2 a [] rst) as (Ea & _ & _); auto; [constructor|].
    subst a. apply (f_equal (@length ascii)) in E2. rewrite length_app in E2. lia.
Qed.

(** With 8 digits it is taken for an EAN and removed. *)
Lemma sub_EAN_long : length code = 8 -> re_sub RE_EAN [] line_with_integer = line_head ++ [SP].
Proof.
  intros Hlen. unfold re_sub, line_with_integer. rewrite app_assoc.
  destruct (RE_EAN_hit (last_or None (line_head ++ [SP])) (0 + length (line_head ++ [SP])) code)
    as (m & Hm & He); [assumption | lia | apply last_or_space |].
  rewrite (sub_loop_hit RE_EAN [] RE_EAN_no_empty (line_head ++ [SP]) code None 0 m).
  - apply app_nil_r.
  - apply no_EAN_before, code_ends.
  - apply code_ne.
  - exact Hm.
  - exact He.
Qed.

(** With 4 to 8 digits it is taken for an internal code and removed. *)
Lemma sub_CODE_line : re_sub RE_CODE [] line_with_integer = line_head ++ [SP].
Proof.
  unfold re_sub, line_with_integer. rewrite app_assoc.
  destruct (RE_CODE_hit (last_or None (line_head ++ [SP])) (0 + length (line_head ++ [SP])) code)
    as (m & Hm & He); [assumption | lia | apply last_or_space |].
  rewrite (sub_loop_hit RE_CODE [] RE_CODE_no_empty (line_head ++ [SP]) code None 0 m).
  - apply app_nil_r.
  - apply no_CODE_before, code_ends.
  - apply code_ne.
  - exact Hm.
  - exact He.
Qed.

(** On the line without its last field the second substitution can only
    shorten the quantity. *)
Lemma sub_CODE_shown :
  exists q1 q2, qty = q1 ++ q2 /\
                re_sub RE_CODE [] line_head = name ++ [SP] ++ price ++ [SP] ++ q1.
Proof.
  unfold re_sub, line_head.
  destruct (sub_loop_tail RE_CODE ((name ++ [SP] ++ price) ++ [SP]) qty RE_CODE_no_empty None 0)
    as (q1 & q2 & E & Hs).
  - apply no_CODE_before, all_num_ends; assumption.
  - intros y1 y2 m E Hm.
    apply RE_CODE_inv in Hm. destruct Hm as (a & w & rst & El & Ha & La & Hw & Ht & He).
    assert (Hy2 : y2 <> []).
    { intros ->. symmetry in El. apply app_eq_nil in El. destruct El as [-> _]. simpl in La. lia. }
    assert (Hend : ends_numeric y2).
    { apply all_num_ends; [assumption|]. rewrite E in qty_num.
      apply Forall_app in qty_num. now destruct qty_num. }
    destruct (trailing_run_is_digits y2 a w rst) as (Ea & -> & _); auto.
    rewrite He, E, <- Ea, !length_app. simpl. lia.
  - exists q1, q2. split; [exact E|].
    rewrite <- !app_assoc in Hs. exact Hs.
Qed.

(** What is left for the pattern: the name, the price and at most a part
    of the quantity. *)
Lemma clean_line_shape :
  exists q1 q2, qty = q1 ++ q2 /\
                clean_line line_with_integer = strip (name ++ [SP] ++ price ++ [SP] ++ q1).
Proof.
  unfold clean_line.
  destruct (Nat.eq_dec (length code) 8) as [H8|H8].
  - rewrite (sub_EAN_long H8).
    rewrite (strip_trailing line_head [SP] head_starts (ends_numeric_nonspace _ head_ends))
      by (repeat constructor).
    destruct sub_CODE_shown as (q1 & q2 & E & ->). eauto.
  - rewrite sub_EAN_short by lia.
    rewrite (strip_clean line_with_integer line_starts (ends_numeric_nonspace _ line_ends)).
    rewrite sub_CODE_line. exists qty, []. split; [now rewrite app_nil_r|].
    rewrite (strip_trailing line_head [SP] head_starts (ends_numeric_nonspace _ head_ends))
      by (repeat constructor).
    symmetry. apply (strip_clean line_head head_starts (ends_numeric_nonspace _ head_ends)).
Qed.
End TrailingInteger.

Lemma split_ws_skip (w x : str) : all is_space w -> split_ws (w ++ x) = split_ws x.
Proof.
  intros Hw. unfold split_ws. rewrite (split_ws_aux_spaces w Hw). destruct w; reflexivity.
Qed.

Lemma num_token_nonspace (t : str) : all num_char t -> none is_space t.
Proof. apply none_weaken, num_char_not_space. Qed.

(** A line the pattern matches has three numeric tokens in a row. *)
Lemma patt_three_tokens (s : str) (m : match_obj) :
  re_match patt s = Some m ->
  exists X p q v R,
    split_ws s = X ++ p :: q :: v :: R /\
    all num_char p /\ all num_char q /\ all num_char v.
Proof.
  intros H. apply patt_match_inv in H.
  destruct H as (n & w1 & p & w2 & q & w3 & v & r & -> & _ & _ & Nw1 & Hw1 & Np & Hp
                 & Nw2 & Hw2 & Nq & Hq & Nw3 & Hw3 & Nv & Hv & Hr & _).
  exists (split_ws n), p, q, v, (split_ws r). repeat split; auto.
  rewrite (split_ws_app n w1 _ Hw1 Nw1). f_equal.
  rewrite (split_ws_token p _ Np (num_token_nonspace p Hp))
    by (destruct w2 as [|c w2]; [congruence | inversion Hw2; assumption]).
  f_equal. rewrite (split_ws_skip w2 _ Hw2).
  rewrite (split_ws_token q _ Nq (num_token_nonspace q Hq))
    by (destruct w3 as [|c w3]; [congruence | inversion Hw3; assumption]).
  f_equal. rewrite (split_ws_skip w3 _ Hw3).
  now rewrite (split_ws_token v r Nv (num_token_nonspace v Hv) Hr).
Qed.

Lemma numeric_token_all (t : str) : numeric_token t = true <-> all num_char t.
Proof. unfold numeric_token, all. rewrite forallb_forall, Forall_forall. tauto. Qed.

(** Tokens that are not numeric followed by at most two more tokens: the
    pattern does not match. *)
Lemma patt_two_tokens (s : str) (N T' : list str) (t : str) :
  split_ws s = N ++ t :: T' -> length T' <= 1 ->
  forallb (fun x => negb (numeric_token x)) N = true ->
  re_match patt s = None.
Proof.
  intros Hs HT HN.
  destruct (re_match patt s) as [m|] eqn:Hm; [exfalso | reflexivity].
  apply patt_three_tokens in Hm.
  destruct Hm as (X & p & q & v & R & E & Hp & _ & _).
  rewrite Hs in E.
  assert (Hlen : length X < length N).
  { apply (f_equal (@length str)) in E. rewrite !length_app in E. simpl in E. lia. }
  assert (Hnth : nth_error (N ++ t :: T') (length X) = Some p).
  { rewrite E, nth_error_app2, Nat.sub_diag by lia. reflexivity. }
  rewrite nth_error_app1 in Hnth by exact Hlen.
  apply nth_error_In in Hnth.
  rewrite forallb_forall in HN. specialize (HN p Hnth).
  apply numeric_token_all in Hp. rewrite Hp in HN. discriminate.
Qed.

Lemma shape_tokens (name price q1 : str) :
  all num_char price -> price <> [] -> all num_char q1 ->
  exists T', length T' <= 1 /\
             split_ws (strip (name ++ [SP] ++ price ++ [SP] ++ q1))
             = split_ws name ++ price :: T'.
Proof.
  intros Hp Np Hq.
  rewrite split_ws_strip.
  rewrite (split_ws_app name [SP]) by (repeat constructor || discriminate).
  rewrite (split_ws_token price _ Np (num_token_nonspace price Hp)) by reflexivity.
  rewrite (split_ws_skip [SP]) by (repeat constructor).
  destruct q1 as [|c q1].
  - exists []. split; [simpl; lia | reflexivity].
  - exists [c :: q1]. split; [simpl; lia|].
    rewrite <- (app_nil_r (c :: q1)) at 1.
    rewrite (split_ws_token (c :: q1) []); [reflexivity | discriminate | | exact I].
    now apply num_token_nonspace.
Qed.

(** ** Numbers in Brazilian format *)

Lemma fold_digits_shift (b : str) (acc : Z) :
  fold_left (fun a d => (10 * a + digit_val d)%Z) b acc
  = (acc * 10 ^ Z.of_nat (length b)
     + fold_left (fun a d => (10 * a + digit_val d)%Z) b 0%Z)%Z.
Proof.
  revert acc. induction b as [|d b IH]; intros acc; cbn [fold_left length].
  - change (10 ^ Z.of_nat 0)%Z with 1%Z. lia.
  - rewrite IH, (IH (10 * 0 + digit_val d)%Z), Nat2Z.inj_succ, Z.pow_succ_r by lia. ring.
Qed.

Lemma digits_val_app (a b : str) :
  digits_val (a ++ b) = (digits_val a * 10 ^ Z.of_nat (length b) + digits_val b)%Z.
Proof. unfold digits_val. rewrite fold_left_app. apply fold_digits_shift. Qed.

Lemma digit_of_val (c : ascii) : is_digit c = true -> digit_of c = digit_val c.
Proof. by_cases_on_char c. Qed.

Lemma digits_val_cons (d : ascii) (ds : str) :
  digits_val (d :: ds) = (digit_val d * 10 ^ Z.of_nat (length ds) + digits_val ds)%Z.
Proof. apply (digits_val_app [d] ds). Qed.

(** What [float] reads from a run of digits is what the run denotes. *)
Lemma numeral_int_val (ds : str) : all is_digit ds -> numeral_int ds = digits_val ds.
Proof.
  induction 1 as [|d ds Hd _ IH]; [reflexivity|].
  rewrite digits_val_cons. cbn [numeral_int]. now rewrite IH, (digit_of_val d Hd).
Qed.

Lemma numeral_frac_val (ds : str) :
  all is_digit ds ->
  (numeral_frac ds == inject_Z (digits_val ds) / (10 # 1) ^ Z.of_nat (length ds))%Q.
Proof.
  induction 1 as [|d ds Hd _ IH].
  - vm_compute. reflexivity.
  - rewrite digits_val_cons. cbn [numeral_frac length].
    rewrite IH, (digit_of_val d Hd), Nat2Z.inj_succ, <- Z.add_1_r.
    rewrite Qpower_plus by discriminate.
    rewrite inject_Z_plus, inject_Z_mult, Zpower_Qpower by lia.
    change (inject_Z 10) with (10 # 1). change ((10 # 1) ^ 1)%Q with (10 # 1).
    assert (Hnz : ~ ((10 # 1) ^ Z.of_nat (length ds) == 0)%Q).
    { apply Qpower_not_0. discriminate. }
    field. exact Hnz.
Qed.

Lemma decimal_numeral (ip fp : str) :
  all is_digit ip -> all is_digit fp ->
  (decimal false (digits_val (ip ++ fp)) (- Z.of_nat (length fp)) == numeral_value ip fp)%Q.
Proof.
  intros Hi Hf. unfold decimal, numeral_value.
  rewrite (numeral_int_val ip Hi), (numeral_frac_val fp Hf).
  rewrite Qred_correct, digits_val_app, Qpower_opp.
  rewrite inject_Z_plus, inject_Z_mult, Zpower_Qpower by lia.
  change (inject_Z 10) with (10 # 1).
  assert (Hnz : ~ ((10 # 1) ^ Z.of_nat (length fp) == 0)%Q).
  { apply Qpower_not_0. discriminate. }
  field. exact Hnz.
Qed.

Lemma parse_number_numeral (ip fp : str) :
  all is_digit ip -> all is_digit fp -> ip ++ fp <> [] ->
  parse_number (ip ++ DOT :: fp)
  = Some (digits_val (ip ++ fp), (- Z.of_nat (length fp))%Z).
Proof.
  intros Hi Hf Hne. unfold parse_number.
  rewrite (span_all is_digit ip (DOT :: fp) Hi) by reflexivity.
  change (is_char 46 DOT) with true. cbv iota.
  rewrite <- (app_nil_r fp) at 1. rewrite (span_all is_digit fp [] Hf I).
  destruct ip, fp; try reflexivity. now contradiction Hne.
Qed.

Lemma py_float_numeral (ip fp : str) :
  all is_digit ip -> all is_digit fp -> ip ++ fp <> [] ->
  py_float (ip ++ DOT :: fp)
  = Ret (Fin (decimal false (digits_val (ip ++ fp)) (- Z.of_nat (length fp)))).
Proof.
  intros Hi Hf Hne. rewrite py_float_dd, parse_number_numeral; auto.
  apply Forall_app. split.
  - eapply all_weaken; [|exact Hi]. intros c Hc. unfold dd_char. now rewrite Hc.
  - constructor; [reflexivity|]. eapply all_weaken; [|exact Hf].
    intros c Hc. unfold dd_char. now rewrite Hc.
Qed.

Lemma digit_not_dot (c : ascii) : is_digit c = true -> ascii_eqb c DOT = false.
Proof. by_cases_on_char c. Qed.

Lemma digit_not_comma (c : ascii) : is_digit c = true -> ascii_eqb c COMMA = false.
Proof. by_cases_on_char c. Qed.

Lemma replace_digits (old : ascii) (new s : str) :
  (forall c, is_digit c = true -> ascii_eqb c old = false) ->
  all is_digit s -> replace old new s = s.
Proof.
  intros Hold Hs. apply replace_drop_none. eapply none_weaken; [|exact Hs]. exact Hold.
Qed.

Lemma replace_dot_join (groups : list str) :
  Forall (all is_digit) groups -> replace DOT [] (join [DOT] groups) = concat groups.
Proof.
  induction 1 as [|g gs Hg Hgs IH]; [reflexivity|].
  destruct gs as [|h gs].
  - simpl. rewrite app_nil_r. now apply replace_digits; [apply digit_not_dot|].
  - change (join [DOT] (g :: h :: gs)) with (g ++ [DOT] ++ join [DOT] (h :: gs)).
    rewrite !replace_app, IH, (replace_digits DOT [] g digit_not_dot Hg). reflexivity.
Qed.

Lemma concat_digits (groups : list str) :
  Forall (all is_digit) groups -> all is_digit (concat groups).
Proof.
  induction 1 as [|g gs Hg _ IH]; simpl; [constructor|]. apply Forall_app. now split.
Qed.

(** Rewriting a token of digit groups and decimals the Brazilian way. *)
Lemma br_token_rewritten (groups : list str) (frac : str) :
  Forall (all is_digit) groups -> all is_digit frac ->
  replace COMMA [DOT] (replace DOT [] (br_token groups frac)) = concat groups ++ DOT :: frac.
Proof.
  intros Hg Hf. unfold br_token.
  rewrite !replace_app, (replace_dot_join groups Hg).
  rewrite (replace_digits DOT [] frac digit_not_dot Hf).
  rewrite (replace_digits COMMA [DOT] (concat groups) digit_not_comma (concat_digits groups Hg)).
  rewrite (replace_digits COMMA [DOT] frac digit_not_comma Hf).
  reflexivity.
Qed.

Lemma br_token_no_space (groups : list str) (frac : str) :
  Forall (all is_digit) groups -> all is_digit frac -> none is_space (br_token groups frac).
Proof.
  intros Hg Hf. unfold br_token.
  assert (Hd : forall s, all is_digit s -> none is_space s).
  { intros s. apply none_weaken. intros c Hc. apply num_char_not_space, digit_is_num_char, Hc. }
  apply Forall_app. split.
  - induction Hg as [|g gs Hg0 Hgs IH]; [constructor|].
    destruct gs as [|h gs]; [now apply Hd|].
    change (join [DOT] (g :: h :: gs)) with (g ++ [DOT] ++ join [DOT] (h :: gs)).
    apply Forall_app. split; [now apply Hd|]. constructor; [reflexivity | exact IH].
  - constructor; [reflexivity | now apply Hd].
Qed.

(** A token of digit groups separated by dots, a comma and decimals is read
    as the number made of the digits before and after the comma. *)
Lemma br_to_float_groups (groups : list str) (frac : str) :
  Forall (all is_digit) groups -> all is_digit frac -> concat groups ++ frac <> [] ->
  br_to_float (Some (br_token groups frac))
  = Ret (Some (Fin (decimal false (digits_val (concat groups ++ frac))
                                  (- Z.of_nat (length frac))))).
Proof.
  intros Hg Hf Hne.
  assert (Hs : strip (br_token groups frac) = br_token groups frac).
  { apply strip_by_none, br_token_no_space; assumption. }
  rewrite br_to_float_comma.
  - rewrite Hs, (br_token_rewritten groups frac Hg Hf).
    rewrite (py_float_numeral _ _ (concat_digits groups Hg) Hf Hne). reflexivity.
  - rewrite Hs. apply contains_In. unfold br_token. apply in_or_app. right. now left.
Qed.

Lemma br_format_digits (groups : list str) (frac : str) :
  br_format groups frac ->
  Forall (all is_digit) groups /\ all is_digit frac /\ concat groups ++ frac <> [].
Proof.
  intros (Hg & Hf & Hne). destruct groups as [|g gs]; [destruct Hg|].
  destruct Hg as (Hg & _ & Hgs). repeat split; auto.
  - constructor; [assumption|]. eapply Forall_impl; [|exact Hgs]. now intros h [Hh _].
  - intros E. apply app_eq_nil in E. destruct E as [_ E]. contradiction.
Qed.

(** ** Where the scan for the sector starts *)

(** A greedy repetition that reaches its upper bound stops there. *)
Lemma rep_loop_greedy_bound lo h p a :
  forall rst n pv ps cs k res,
    all p a -> n + length a = h -> lo <= h ->
    k (MState (last_or pv a) (ps + length a) rst cs) = Some res ->
    rep_loop true lo (Some h) p n pv ps cs (a ++ rst) k = Some res.
Proof.
  induction a as [|c a IH]; intros rst n pv ps cs k res Ha Hn Hlo Hk;
    rewrite rep_loop_eq; cbv zeta; simpl in *.
  - rewrite Nat.add_0_r in *. subst n.
    assert (Hmore : match rst with
                    | [] => None
                    | c :: tl0 => if (p c && (h <? h))%bool
                                  then rep_loop true lo (Some h) p (S h) (Some c) (S ps) cs tl0 k
                                  else None
                    end = None).
    { destruct rst as [|c rst]; [reflexivity|]. now rewrite Nat.ltb_irrefl, andb_false_r. }
    rewrite Hmore. simpl. apply Nat.leb_le in Hlo. now rewrite Hlo.
  - inversion Ha as [|? ? Hc Ha']; subst. rewrite Hc.
    assert (Hb : (n <? n + S (length a)) = true) by (apply Nat.ltb_lt; lia).
    rewrite Hb. simpl.
    rewrite (IH rst (S n) (Some c) (S ps) cs k res);
      [reflexivity | assumption | lia | assumption |].
    rewrite <- Hk. f_equal. f_equal. lia.
Qed.

(** The letters of a marker, matched without regard to case. *)
Lemma rmatch_letters (w w' : str) (rs : list regex) :
  Forall2 (fun c x => ascii_lower x = ascii_lower c) w w' ->
  forall pv ps rst cs k,
    rmatch (seq (map lit_char_i w ++ rs)) (MState pv ps (w' ++ rst) cs) k
    = rmatch (seq rs) (MState (last_or pv w') (ps + length w') rst cs) k.
Proof.
  induction 1 as [|c x w w' Hcx _ IH]; intros pv ps rst cs k.
  - simpl. now rewrite Nat.add_0_r.
  - cbn [map app seq fold_right rmatch rest length lit_char_i pos caps].
    rewrite Hcx, (proj2 (ascii_eqb_eq _ _) eq_refl).
    fold (seq (map lit_char_i w ++ rs)). rewrite IH, last_or_cons.
    f_equal. f_equal. lia.
Qed.

Lemma search_from_eq r pv ps l :
  search_from r pv ps l =
  match match_here r pv ps l with
  | Some m => Some m
  | None => match l with
            | c :: tl => search_from r (Some c) (S ps) tl
            | [] => None
            end
  end.
Proof. destruct l; reflexivity. Qed.

Lemma skipn_length_app {A : Type} (x y : list A) (n : nat) :
  skipn (length x + n) (x ++ y) = skipn n y.
Proof. induction x as [|a x IH]; simpl; auto. Qed.

Lemma skipn_firstn_length {A : Type} (n : nat) (l : list A) :
  skipn (length (firstn n l)) l = skipn n l.
Proof.
  rewrite length_firstn. destruct (Nat.le_gt_cases n (length l)) as [H|H].
  - now rewrite Nat.min_l.
  - rewrite Nat.min_r by lia. now rewrite skipn_all, skipn_all2 by lia.
Qed.

Lemma any_char_all (s : str) : all any_char s.
Proof. induction s; constructor; auto. Qed.

(** When the text starts with the marker, in any case, the match runs over
    the white space after it and over the next 40 characters: the scan for
    the sector starts there, not after the marker. *)
Lemma guess_setor_after_window (mk ws body : str) (filename : option str) :
  Forall2 (fun c x => ascii_lower x = ascii_lower c) (lit "Departamento:") mk ->
  all is_space ws ->
  match body with [] => True | c :: _ => is_space c = false end ->
  guess_setor (mk ++ ws ++ body) filename
  = match first_sector_line (firstn 5 (splitlines (skipn 40 body))) with
    | Some t => Ret t
    | None => Ret (guess_by_filename filename)
    end.
Proof.
  intros Hmk Hws Hbody.
  assert (Hm : exists m, re_search RE_DEPTO (mk ++ ws ++ body) = Some m /\
                         m_end m = length mk + length ws + length (firstn 40 body)).
  { unfold re_search.
    assert (H0 : exists m, match_here RE_DEPTO None 0 (mk ++ ws ++ body) = Some m /\
                           m_end m = length mk + length ws + length (firstn 40 body)).
    { unfold match_here, RE_DEPTO. rewrite (rmatch_letters _ mk _ Hmk).
      cbn [seq fold_right rmatch prev pos rest caps].
      set (stop := MState (last_or (last_or (last_or None mk) ws) (firstn 40 body))
                          (0 + length mk + length ws + length (firstn 40 body))
                          (skipn 40 body)
                          [(1, (0 + length mk + length ws,
                                0 + length mk + length ws + length (firstn 40 body)))]).
      rewrite (rep_loop_greedy_all 0 None is_space ws body 0 _ _ _ _ stop Hws Hbody);
        [eexists; split; [reflexivity | reflexivity] | lia | exact I |].
      cbn [prev pos rest caps].
      rewrite <- (firstn_skipn 40 body) at 1.
      destruct (Nat.le_gt_cases 40 (length body)) as [Hlen|Hlen].
      - rewrite (rep_loop_greedy_bound 0 40 any_char (firstn 40 body) (skipn 40 body) 0 _ _ _ _ stop);
          [reflexivity | apply any_char_all | rewrite length_firstn; lia | lia | reflexivity].
      - rewrite (rep_loop_greedy_all 0 (Some 40) any_char (firstn 40 body) (skipn 40 body)
                   0 _ _ _ _ stop);
          [reflexivity | apply any_char_all | | lia | unfold within; rewrite length_firstn; lia | reflexivity].
        rewrite skipn_all2 by lia. exact I. }
    destruct H0 as (m & H0 & He). exists m. split; [|exact He].
    now rewrite search_from_eq, H0. }
  destruct Hm as (m & Hm & He). unfold guess_setor, slice_from. rewrite Hm, He.
  rewrite app_assoc, <- length_app, skipn_length_app, skipn_firstn_length. reflexivity.
Qed.

(** * The claims *)

(** ** C1: tokens in EN format *)

(** C1 (the code departs from its own comment).  The fallback of
    [br_to_float] is commented "formato EN: 1,234.56 ou 1234.56", but a token
    with a comma never reaches it with its commas: "1,234.56" is rewritten to
    "1.23456" and read as 1.23456, not as 1234.56, and "1,234,567.89" is read
    as nothing at all.  Only the token without separator, "1234.56", is read
    as 1234.56. *)
Theorem C1_en_token_read_as_br :
  br_to_float (Some (lit "1,234.56")) = Ret (Some (Fin (Qred (123456 # 100000)))) /\
  ~ (Qred (123456 # 100000) == 123456 # 100)%Q /\
  br_to_float (Some (lit "1,234,567.89")) = Ret None /\
  br_to_float (Some (lit "1234.56")) = Ret (Some (Fin (Qred (123456 # 100)))).
Proof.
  repeat split; try (vm_compute; reflexivity).
  vm_compute. discriminate.
Qed.

(** ** C2: the sector after the marker *)

(** C2 (the code departs from its own comment).  The lines scanned are
    those after the end of the whole match, which includes the window of up
    to 40 characters, not those after the marker.  On the text
    "Departamento:", an empty line, "ACOUGUE" and a short product line, the
    window swallows everything, nothing is left to scan, and the answer is
    "N/D".  When a longer line follows, the scan starts in the middle of it
    and the answer is the end of that line, "O QUILOS". *)
Theorem C2_window_swallows_sector :
  option_map m_end (re_search RE_DEPTO text_acougue) = Some (length text_acougue) /\
  guess_setor text_acougue None = Ret ND /\
  guess_setor text_acougue (Some (lit "relatorio.pdf")) = Ret ND /\
  guess_setor text_acougue_long None = Ret (lit "O QUILOS").
Proof. repeat split; vm_compute; reflexivity. Qed.

(** ** C3: the order of the output *)

(** C3, as stated, fails: "BBB" comes first in the input and "AAA" second,
    with the same value, and the output has "AAA" before "BBB". *)
Lemma C3_ties_not_in_input_order :
  exists produtos out,
    collect (normalize_lines text_ties) = Ret produtos /\
    parse_lince_lines text_ties = Ret out /\
    map nome produtos = [lit "BBB"; lit "AAA"] /\
    map nome out = [lit "AAA"; lit "BBB"] /\
    ~ ties_in_input_order produtos out.
Proof.
  eexists. eexists.
  split; [vm_compute; reflexivity|].
  split; [vm_compute; reflexivity|].
  split; [reflexivity|]. split; [reflexivity|].
  intros H. specialize (H 0 1 _ _ (le_n 1) eq_refl eq_refl).
  assert (Hlt : 1 < 0); [|inversion Hlt].
  apply H. reflexivity.
Qed.

(** C3 (amended).  The output of [parse_lince_lines] holds numbers as
    values and is sorted by value in non-increasing order. *)
Theorem C3_sorted_by_value (text : str) :
  exists out,
    parse_lince_lines text = Ret out /\
    Forall fin_valor out /\ StronglySorted valor_ge out.
Proof.
  destruct (parse_lince_lines_run text) as (ps & _ & Hv & ->).
  exists (aggregate ps). destruct (aggregate_sorted ps Hv). auto.
Qed.

(** ** C4: the example line *)

(** C4.  On the example line the EAN and then the internal code are
    removed, and what is left parses to the name "ARROZ BRANCO 5KG", unit
    price 12.50, quantity 3.0 and value 37.50. *)
Theorem C4_example_line :
  strip (re_sub RE_EAN [] line_arroz) = lit "ARROZ BRANCO 5KG 12,50 3,000 37,50 123456" /\
  clean_line line_arroz = lit "ARROZ BRANCO 5KG 12,50 3,000 37,50" /\
  extract line_arroz
  = Some (Candidate (lit "ARROZ BRANCO 5KG") (lit "12,50") (lit "3,000") (lit "37,50")) /\
  parse_line line_arroz
  = Ret (Some (Produto (lit "ARROZ BRANCO 5KG") (Fin (Qred (1250 # 100)))
                       (Fin (Qred (3000 # 1000))) (Fin (Qred (3750 # 100))))) /\
  parse_lince_lines line_arroz
  = Ret [Produto (lit "ARROZ BRANCO 5KG") (Fin (Qred (1250 # 100)))
                 (Fin (Qred (3000 # 1000))) (Fin (Qred (3750 # 100)))].
Proof. repeat split; vm_compute; reflexivity. Qed.

(** ** C5: tokens in Brazilian format *)

(** C5.  A token in Brazilian format is read as the number it denotes: the
    digits of its groups, in positional notation, as the integer part, and
    the digits after the comma as the decimals ([numeral_value], which reads
    the characters by its own digit table). *)
Theorem C5_br_format (groups : list str) (frac : str) :
  br_format groups frac ->
  exists q,
    br_to_float (Some (br_token groups frac)) = Ret (Some (Fin q)) /\
    (q == numeral_value (concat groups) frac)%Q.
Proof.
  intros H. destruct (br_format_digits groups frac H) as (Hg & Hf & Hne).
  eexists. split; [apply br_to_float_groups; assumption|].
  apply decimal_numeral; [apply concat_digits|]; assumption.
Qed.

Ltac all_chars := repeat (constructor; try reflexivity).

(** The token "1.234,56" is in Brazilian format, and it is read as
    1234.56. *)
Lemma C5_br_format_witness :
  br_token [lit "1"; lit "234"] (lit "56") = lit "1.234,56" /\
  exists q,
    br_to_float (Some (lit "1.234,56")) = Ret (Some (Fin q)) /\
    (q == 123456 # 100)%Q.
Proof.
  split; [reflexivity|].
  destruct (C5_br_format [lit "1"; lit "234"] (lit "56")) as (q & E & Hq).
  - split; [|split; [all_chars | discriminate]].
    split; [all_chars|]. split; [simpl; lia|]. all_chars.
  - exists q. split; [exact E|]. rewrite Hq. vm_compute. reflexivity.
Defined.

(** "1.234,56" is 1234.56. *)
Lemma br_example :
  br_to_float (Some (lit "1.234,56")) = Ret (Some (Fin (Qred (123456 # 100)))) /\
  (numeral_value (lit "1234") (lit "56") == 123456 # 100)%Q.
Proof. split; vm_compute; reflexivity. Qed.

(** ** C6: one record per name, with sums and a mean *)

(** C6.  Each name among the validated records has exactly one output
    record; its quantity and value are the sums over the records of that
    name and its unit price is their arithmetic mean.  For a name with two
    records the sums are those of the two. *)
Theorem C6_one_record_per_name (text : str) :
  exists produtos out,
    collect (normalize_lines text) = Ret produtos /\
    parse_lince_lines text = Ret out /\
    Forall valid_record produtos /\
    forall k, In k (map nome produtos) ->
      let rows := group_rows produtos k in
      exists pu qt vl,
        group_rows out k = [Produto k (Fin pu) (Fin qt) (Fin vl)] /\
        (qt == Qsum (map qval (map quantidade rows)))%Q /\
        (vl == Qsum (map qval (map valor rows)))%Q /\
        (pu == Qsum (map qval (map preco_unit rows)) / inject_Z (Z.of_nat (length rows)))%Q /\
        forall a b, rows = [a; b] ->
          (qt == qval (quantidade a) + qval (quantidade b))%Q /\
          (vl == qval (valor a) + qval (valor b))%Q.
Proof.
  destruct (parse_lince_lines_run text) as (ps & Hps & Hv & Hout).
  exists ps, (aggregate ps). repeat split; auto.
  intros k Hk rows.
  destruct (agg_group_fin ps k Hv Hk) as (pu & qt & vl & Hagg & Hpu & Hqt & Hvl).
  exists pu, qt, vl. rewrite (aggregate_group ps k Hk), Hagg.
  repeat split; auto.
  - fold rows in Hqt. rewrite Hqt, H. simpl. ring.
  - fold rows in Hvl. rewrite Hvl, H. simpl. ring.
Qed.

(** Two lines for "ARROZ" and one for "FEIJAO": the record of "ARROZ"
    holds 1 + 2.5, 10 + 30 and (10 + 12) / 2. *)
Lemma C6_one_record_per_name_witness :
  exists out,
    parse_lince_lines text_two_lines = Ret out /\
    exists pu qt vl,
      group_rows out (lit "ARROZ") = [Produto (lit "ARROZ") (Fin pu) (Fin qt) (Fin vl)] /\
      (qt == 1 + (5 # 2))%Q /\ (vl == 10 + 30)%Q /\ (pu == (10 + 12) / 2)%Q.
Proof.
  destruct (C6_one_record_per_name text_two_lines) as (ps & out & Hps & Hout & _ & H).
  exists out. split; [exact Hout|].
  vm_compute in Hps. injection Hps as <-.
  destruct (H (lit "ARROZ") (or_introl eq_refl)) as (pu & qt & vl & Hr & Hqt & Hvl & Hpu & _).
  exists pu, qt, vl. split; [exact Hr|].
  split; [rewrite Hqt; vm_compute; reflexivity|].
  split; [rewrite Hvl; vm_compute; reflexivity|].
  rewrite Hpu. vm_compute. reflexivity.
Defined.

(** ** C7: names are unique in the output *)

(** C7.  No two records of the output of [parse_lince_lines] share a
    name. *)
Theorem C7_unique_names (text : str) :
  exists out, parse_lince_lines text = Ret out /\ NoDup (map nome out).
Proof.
  destruct (parse_lince_lines_run text) as (ps & _ & _ & ->).
  exists (aggregate ps). split; [reflexivity | apply aggregate_names_NoDup].
Qed.

(** ** C8: a price that is not positive *)

(** C8.  A candidate whose price token is not read as a number above 0 is
    dropped: its line yields no record and raises nothing, and the records
    and the output are those of the text without the line. *)
Theorem C8_price_not_positive (ln : str) (c : candidate) :
  extract ln = Some c ->
  (forall p, br_to_float (Some (c_preco c)) = Ret (Some p) -> fltb fzero p = false) ->
  validate c = Ret None /\
  parse_line ln = Ret None /\
  forall before after,
    collect (before ++ ln :: after) = collect (before ++ after) /\
    parse_lines (before ++ ln :: after) = parse_lines (before ++ after).
Proof.
  intros He Hp.
  assert (Hv : validate c = Ret None).
  { destruct (extract_fields ln c He) as (Np & _ & _).
    unfold validate.
    destruct (br_to_float_total (Some (c_qtd c))) as (q & ->).
    destruct (br_to_float_total (Some (c_valor c))) as (v & ->).
    destruct (br_to_float_num_token _ Np) as [E|(a & E & Ha & _)]; rewrite E; cbn [bind].
    - reflexivity.
    - specialize (Hp _ E). simpl in Hp. apply negb_false_iff in Hp.
      simpl. now rewrite Hp. }
  assert (Hl : parse_line ln = Ret None) by (unfold parse_line; now rewrite He).
  split; [exact Hv|]. split; [exact Hl|]. intros before after.
  split; [now apply collect_skip|].
  unfold parse_lines. now rewrite (collect_skip before after ln Hl).
Qed.

(** A line with unit price 0. *)
Lemma C8_price_not_positive_witness :
  extract line_price_zero
  = Some (Candidate (lit "ARROZ") (lit "0,00") (lit "3,000") (lit "37,50")) /\
  br_to_float (Some (lit "0,00")) = Ret (Some (Fin 0)) /\
  parse_line line_price_zero = Ret None /\
  parse_lines [line_arroz; line_price_zero] = parse_lines [line_arroz].
Proof.
  split; [vm_compute; reflexivity|]. split; [vm_compute; reflexivity|].
  destruct (C8_price_not_positive line_price_zero
              (Candidate (lit "ARROZ") (lit "0,00") (lit "3,000") (lit "37,50")))
    as (_ & Hl & H).
  - vm_compute; reflexivity.
  - intros p Hp. vm_compute in Hp. injection Hp as <-. reflexivity.
  - split; [exact Hl|]. apply (H [line_arroz] []).
Defined.

(** ** C10: a last field written as a plain integer *)

(** C10.  On a line made of a name without numeric token, a price token, a
    quantity token and a last field of 4 to 8 digits, the last field is
    removed before the pattern is tried; what is left is the name, the price
    and at most a part of the quantity, the pattern does not match it, and
    the line yields no candidate and no record and is skipped. *)
Theorem C10_plain_integer_value (name price qty code : str) :
  starts_nonspace name -> no_numeric_token name ->
  all num_char price -> price <> [] ->
  all num_char qty -> qty <> [] ->
  all is_digit code -> 4 <= length code <= 8 ->
  (exists q1 q2,
     qty = q1 ++ q2 /\
     clean_line (line_with_integer name price qty code)
     = strip (name ++ [SP] ++ price ++ [SP] ++ q1)) /\
  (exists last, length last <= 1 /\
     split_ws (clean_line (line_with_integer name price qty code))
     = split_ws name ++ price :: last) /\
  re_match patt (clean_line (line_with_integer name price qty code)) = None /\
  extract (line_with_integer name price qty code) = None /\
  parse_line (line_with_integer name price qty code) = Ret None /\
  forall before after,
    collect (before ++ line_with_integer name price qty code :: after)
    = collect (before ++ after).
Proof.
  intros Hn Hnum Hp Np Hq Nq Hc Lc.
  destruct (clean_line_shape name price qty code Hn Hq Nq Hc Lc) as (q1 & q2 & E & Hclean).
  destruct (shape_tokens name price q1 Hp Np) as (T' & HT & Htok).
  { rewrite E in Hq. apply Forall_app in Hq. now destruct Hq. }
  rewrite <- Hclean in Htok.
  assert (Hm : re_match patt (clean_line (line_with_integer name price qty code)) = None).
  { eapply patt_two_tokens; eauto. }
  assert (He : extract (line_with_integer name price qty code) = None).
  { unfold extract. rewrite Hm. now destruct (_ || _)%bool. }
  assert (Hl : parse_line (line_with_integer name price qty code) = Ret None).
  { unfold parse_line. now rewrite He. }
  repeat split; eauto.
  intros before after. now apply collect_skip.
Qed.

(** A value written "3750" instead of "37,50". *)
Lemma C10_plain_integer_value_witness :
  line_with_integer (lit "ARROZ BRANCO") (lit "12,50") (lit "3,000") (lit "3750")
  = lit "ARROZ BRANCO 12,50 3,000 3750" /\
  clean_line (lit "ARROZ BRANCO 12,50 3,000 3750") = lit "ARROZ BRANCO 12,50 3,000" /\
  extract (lit "ARROZ BRANCO 12,50 3,000 3750") = None /\
  parse_line (lit "ARROZ BRANCO 12,50 3,000 3750") = Ret None.
Proof.
  split; [reflexivity|]. split; [vm_compute; reflexivity|].
  destruct (C10_plain_integer_value (lit "ARROZ BRANCO") (lit "12,50") (lit "3,000") (lit "3750"))
    as (_ & _ & _ & He & Hl & _).
  - reflexivity.
  - reflexivity.
  - all_chars.
  - discriminate.
  - all_chars.
  - discriminate.
  - all_chars.
  - simpl. lia.
  - split; [exact He | exact Hl].
Defined.

(** * Further properties *)

(** ** How many dots a float literal may hold *)

Lemma count_char_app (c : ascii) (a b : str) :
  count_char c (a ++ b) = count_char c a + count_char c b.
Proof. unfold count_char. now rewrite filter_app, length_app. Qed.

Lemma count_char_none (c : ascii) (p : ascii -> bool) (s : str) :
  p c = false -> all p s -> count_char c s = 0.
Proof.
  intros Hc. induction 1 as [|x s Hx _ IH]; [reflexivity|].
  unfold count_char in *. simpl. destruct (ascii_eqb c x) eqn:E; [|exact IH].
  apply ascii_eqb_eq in E. subst x. congruence.
Qed.

Lemma count_char_strip_by (c : ascii) (p : ascii -> bool) (s : str) :
  p c = false -> count_char c (strip_by p s) = count_char c s.
Proof.
  intros Hc. unfold strip_by, lstrip_by.
  destruct (dropwhile_decomp p s) as (w & Hw & E).
  destruct (rstrip_decomp p (dropwhile p s)) as (w' & Hw' & E').
  rewrite E at 2. rewrite E' at 2.
  rewrite !count_char_app, (count_char_none c p w), (count_char_none c p w'); auto.
Qed.

Lemma count_char_filter (c : ascii) (f : ascii -> bool) (s : str) :
  f c = true -> count_char c (filter f s) = count_char c s.
Proof.
  intros Hc. unfold count_char. induction s as [|x s IH]; [reflexivity|]. simpl.
  destruct (f x) eqn:Fx; simpl; destruct (ascii_eqb c x) eqn:E; simpl; auto.
  apply ascii_eqb_eq in E. subst x. congruence.
Qed.

Lemma span_spec (p : ascii -> bool) (s a b : str) : span p s = (a, b) -> s = a ++ b /\ all p a.
Proof.
  revert a b. induction s as [|c s IH]; intros a b; simpl.
  - intros [= <- <-]. split; [reflexivity | constructor].
  - destruct (p c) eqn:Pc.
    + destruct (span p s) as [a' b']. intros [= <- <-].
      destruct (IH a' b' eq_refl) as (-> & Ha). split; [reflexivity | now constructor].
    + intros [= <- <-]. split; [reflexivity | constructor].
Qed.

Lemma parse_sign_dots (s : str) :
  count_char DOT (snd (parse_sign s)) = count_char DOT s.
Proof.
  destruct s as [|c s]; [reflexivity|]. unfold parse_sign.
  destruct (is_char 45 c) eqn:E1; [|destruct (is_char 43 c) eqn:E2]; simpl; try reflexivity.
  - unfold count_char. simpl. destruct (ascii_eqb DOT c) eqn:E; [|reflexivity].
    apply ascii_eqb_eq in E. subst c. discriminate.
  - unfold count_char. simpl. destruct (ascii_eqb DOT c) eqn:E; [|reflexivity].
    apply ascii_eqb_eq in E. subst c. discriminate.
Qed.

Lemma parse_number_dots (s : str) (m e : Z) :
  parse_number s = Some (m, e) -> count_char DOT s <= 1.
Proof.
  unfold parse_number.
  destruct (span is_digit s) as [ip r1] eqn:S1.
  apply span_spec in S1. destruct S1 as (-> & Hip).
  rewrite count_char_app, (count_char_none DOT is_digit ip); auto.
  assert (Htail : forall r ed r5 (eneg : bool) r4,
             parse_sign r = (eneg, r4) -> span is_digit r4 = (ed, r5) ->
             (is_nil ed || negb (is_nil r5))%bool = false -> count_char DOT r = 0).
  { intros r ed r5 eneg r4 Hs Hsp Hn.
    apply span_spec in Hsp. destruct Hsp as (E & Hed).
    apply orb_false_iff in Hn. destruct Hn as (_ & Hn).
    destruct r5; [|discriminate]. rewrite app_nil_r in E. subst r4.
    rewrite <- (parse_sign_dots r), Hs. simpl.
    now apply (count_char_none DOT is_digit). }
  destruct r1 as [|c r].
  - intros _. unfold count_char. simpl. lia.
  - destruct (is_char 46 c) eqn:Ec.
    + destruct (span is_digit r) as [fp r2] eqn:S2.
      apply span_spec in S2. destruct S2 as (-> & Hfp).
      destruct (is_nil ip && is_nil fp)%bool; [discriminate|].
      change (c :: fp ++ r2) with ([c] ++ fp ++ r2).
      rewrite !count_char_app, (count_char_none DOT is_digit fp); auto.
      assert (count_char DOT [c] <= 1) by (unfold count_char; simpl; destruct (ascii_eqb DOT c); simpl; lia).
      destruct r2 as [|c2 r3]; [simpl; intros _; unfold count_char at 2; simpl; lia|].
      destruct (is_char 101 c2 || is_char 69 c2)%bool eqn:Ee; [|discriminate].
      destruct (parse_sign r3) as [eneg r4] eqn:Hs.
      destruct (span is_digit r4) as [ed r5] eqn:Hsp.
      destruct (is_nil ed || negb (is_nil r5))%bool eqn:Hn; [discriminate|].
      intros _. change (c2 :: r3) with ([c2] ++ r3).
      rewrite count_char_app, (Htail r3 ed r5 eneg r4 Hs Hsp Hn).
      assert (count_char DOT [c2] = 0).
      { unfold count_char. simpl. destruct (ascii_eqb DOT c2) eqn:E; [|reflexivity].
        apply ascii_eqb_eq in E. subst c2. discriminate. }
      lia.
    + destruct (is_nil ip && is_nil []); [discriminate|].
      destruct (is_char 101 c || is_char 69 c)%bool eqn:Ee; [|discriminate].
      destruct (parse_sign r) as [eneg r4] eqn:Hs.
      destruct (span is_digit r4) as [ed r5] eqn:Hsp.
      destruct (is_nil ed || negb (is_nil r5))%bool eqn:Hn; [discriminate|].
      intros _. change (c :: r) with ([c] ++ r).
      rewrite count_char_app, (Htail r ed r5 eneg r4 Hs Hsp Hn).
      assert (count_char DOT [c] = 0).
      { unfold count_char. simpl. destruct (ascii_eqb DOT c) eqn:E; [|reflexivity].
        apply ascii_eqb_eq in E. subst c. discriminate. }
      lia.
Qed.

Lemma lower_dot (c : ascii) : ascii_eqb DOT (ascii_lower c) = ascii_eqb DOT c.
Proof. by_cases_on_char c. Qed.

Lemma word_is_dots (w : string) (s : str) :
  count_char DOT (lit w) = 0 -> word_is w s = true -> count_char DOT s = 0.
Proof.
  intros Hw H. apply str_eqb_eq in H. rewrite <- H in Hw. clear H.
  unfold count_char in *. induction s as [|c s IH]; [reflexivity|].
  simpl in *. rewrite lower_dot in Hw. destruct (ascii_eqb DOT c); simpl in *; auto.
  discriminate.
Qed.

(** [float] accepts at most one dot. *)
Lemma py_float_dots (s : str) (v : pyfloat) : py_float s = Ret v -> count_char DOT s <= 1.
Proof.
  unfold py_float.
  rewrite <- (count_char_strip_by DOT is_float_space s eq_refl).
  set (t := strip_by is_float_space s).
  destruct (negb (underscores_ok None t)); [discriminate|].
  rewrite <- (count_char_filter DOT (fun c => negb (is_char 95 c)) t eq_refl).
  set (u := filter _ t).
  rewrite <- (parse_sign_dots u).
  destruct (parse_sign u) as [neg body]. simpl.
  destruct (word_is "inf" body) eqn:W1.
  { intros _. rewrite (word_is_dots "inf" body eq_refl W1). lia. }
  destruct (word_is "infinity" body) eqn:W2.
  { intros _. rewrite (word_is_dots "infinity" body eq_refl W2). lia. }
  simpl. destruct (word_is "nan" body) eqn:W3.
  { intros _. rewrite (word_is_dots "nan" body eq_refl W3). lia. }
  destruct (parse_number body) as [[m e]|] eqn:P; [|discriminate].
  intros _. eapply parse_number_dots; eauto.
Qed.

Lemma count_comma_rewritten (t : str) :
  count_char DOT (replace COMMA [DOT] (replace DOT [] t)) = count_char COMMA t.
Proof.
  induction t as [|c t IH]; [reflexivity|].
  change (c :: t) with ([c] ++ t).
  rewrite !replace_app, !count_char_app, IH. f_equal. by_cases_on_char c.
Qed.

Lemma count_char_In (c : ascii) (s : str) : 1 <= count_char c s -> In c s.
Proof.
  unfold count_char. induction s as [|x s IH]; simpl; [lia|].
  destruct (ascii_eqb c x) eqn:E; [apply ascii_eqb_eq in E; auto|]. auto.
Qed.

(** X1.  When the stripped text holds a comma, the result is what [float]
    makes of the text with its dots removed and its commas turned into
    dots, and [None] when [float] refuses it: the second attempt, meant for
    the EN format, never supplies a value. *)
Theorem X1_comma_text_read_as_br (txt : str) :
  contains [COMMA] (strip txt) = true ->
  br_to_float (Some txt)
  = match py_float (replace COMMA [DOT] (replace DOT [] (strip txt))) with
    | Ret x => Ret (Some x)
    | Raise _ => Ret None
    end.
Proof.
  intros H. rewrite (br_to_float_comma txt H).
  destruct (py_float _); reflexivity.
Qed.

(** "1.234,56 " with a trailing space. *)
Lemma X1_comma_text_read_as_br_witness :
  br_to_float (Some (lit "1.234,56 ")) = Ret (Some (Fin (Qred (123456 # 100)))).
Proof.
  rewrite (X1_comma_text_read_as_br (lit "1.234,56 ")); [|reflexivity].
  vm_compute. reflexivity.
Defined.

(** X2.  A text with two or more commas is never read as a number,
    whatever else it holds: "1,234,567.89" gives [None]. *)
Theorem X2_two_commas_unreadable (txt : str) :
  2 <= count_char COMMA txt -> br_to_float (Some txt) = Ret None.
Proof.
  intros H.
  rewrite <- (count_char_strip_by COMMA is_space txt eq_refl) in H. fold (strip txt) in H.
  rewrite br_to_float_comma.
  - destruct (py_float _) as [v|e] eqn:E; [|reflexivity].
    apply py_float_dots in E. rewrite count_comma_rewritten in E. lia.
  - apply contains_In, count_char_In. lia.
Qed.

Lemma X2_two_commas_unreadable_witness :
  br_to_float (Some (lit "1,234,567.89")) = Ret None.
Proof. apply X2_two_commas_unreadable. vm_compute. lia. Defined.

(** X3.  In a text without comma a dot is the decimal point, never a
    thousands separator: digits, a dot and digits are read as the integer
    part and the decimals, so "1.234" is read as 1.234. *)
Theorem X3_dot_is_decimal_point (ip fp : str) :
  all is_digit ip -> all is_digit fp -> ip ++ fp <> [] ->
  exists q,
    br_to_float (Some (ip ++ DOT :: fp)) = Ret (Some (Fin q)) /\
    (q == numeral_value ip fp)%Q.
Proof.
  intros Hi Hf Hne.
  assert (Hdd : all dd_char (ip ++ DOT :: fp)).
  { apply Forall_app. split; [|constructor; [reflexivity|]].
    - eapply all_weaken; [|exact Hi]. intros c Hc. unfold dd_char. now rewrite Hc.
    - eapply all_weaken; [|exact Hf]. intros c Hc. unfold dd_char. now rewrite Hc. }
  assert (Hs : strip (ip ++ DOT :: fp) = ip ++ DOT :: fp).
  { apply strip_by_none. eapply none_weaken; [|exact Hdd].
    intros c Hc. apply num_char_not_space. unfold num_char, dd_char in *.
    apply orb_true_iff in Hc. destruct Hc as [->| ->]; [reflexivity|].
    now rewrite orb_true_r. }
  assert (Hc : contains [COMMA] (ip ++ DOT :: fp) = false).
  { destruct (contains [COMMA] (ip ++ DOT :: fp)) eqn:E; [|reflexivity].
    apply contains_In in E. unfold all in Hdd. rewrite Forall_forall in Hdd.
    apply Hdd in E. discriminate. }
  eexists. split; [|apply decimal_numeral; assumption].
  unfold br_to_float. rewrite Hs, Hc.
  rewrite replace_drop_none.
  - now rewrite py_float_numeral.
  - eapply none_weaken; [|exact Hdd]. apply dd_not_comma.
Qed.

(** "1.234" is read as 1.234, not as 1234. *)
Lemma X3_dot_is_decimal_point_witness :
  exists q,
    br_to_float (Some (lit "1.234")) = Ret (Some (Fin q)) /\
    (q == 1234 # 1000)%Q.
Proof.
  destruct (X3_dot_is_decimal_point (lit "1") (lit "234")) as (q & E & Hq).
  - all_chars.
  - all_chars.
  - discriminate.
  - exists q. split; [exact E|]. rewrite Hq. vm_compute. reflexivity.
Defined.

(** X16.  A number read from one of the three fields of a candidate is
    never below 0 (and it is not NaN): [0 <= x] holds as Python compares, so
    of the sanity filters the tests [val < 0] and [qtd < 0] reject
    nothing. *)
Theorem X16_fields_never_negative (ln : str) (c : candidate) :
  extract ln = Some c ->
  forall t x, In t [c_preco c; c_qtd c; c_valor c] ->
    br_to_float (Some t) = Ret (Some x) ->
    fleb fzero x = true /\ fltb x fzero = false.
Proof.
  intros He t x Ht E.
  destruct (extract_fields ln c He) as (Hp & Hq & Hv).
  assert (Hn : all num_char t).
  { destruct Ht as [<-|[<-|[<-|[]]]]; assumption. }
  destruct (br_to_float_num_token t Hn) as [E'|(q & E' & Hq0 & _)];
    rewrite E' in E; [discriminate|].
  injection E as <-.
  assert (Hb : Qle_bool 0 q = true) by now apply Qle_bool_iff.
  simpl. now rewrite Hb.
Qed.

(** The value "37,50" of the example line. *)
Lemma X16_fields_never_negative_witness :
  br_to_float (Some (lit "37,50")) = Ret (Some (Fin (Qred (3750 # 100)))) /\
  fleb fzero (Fin (Qred (3750 # 100))) = true /\
  fltb (Fin (Qred (3750 # 100))) fzero = false.
Proof.
  split; [vm_compute; reflexivity|].
  apply (X16_fields_never_negative line_arroz
           (Candidate (lit "ARROZ BRANCO 5KG") (lit "12,50") (lit "3,000") (lit "37,50"))
           eq_refl (lit "37,50")).
  - simpl. tauto.
  - vm_compute. reflexivity.
Defined.

(** ** Substrings *)

Lemma startswith_spec (pre s : str) : startswith pre s = true <-> exists r, s = pre ++ r.
Proof.
  revert s. induction pre as [|x pre IH]; intros s; simpl.
  - split; [intros _; now exists s | reflexivity].
  - destruct s as [|y s].
    + split; [discriminate | intros (r & H); discriminate].
    + rewrite andb_true_iff, ascii_eqb_eq, IH. split.
      * intros (-> & r & ->). now exists r.
      * intros (r & [= -> ->]). split; [reflexivity | now exists r].
Qed.

Lemma contains_eq (sub s : str) :
  contains sub s = (startswith sub s || match s with [] => false | _ :: tl => contains sub tl end)%bool.
Proof. destruct s; reflexivity. Qed.

Lemma find_from_eq (sub s : str) (i : Z) :
  find_from sub s i = if startswith sub s then i
                      else match s with [] => (-1)%Z | _ :: tl => find_from sub tl (i + 1)%Z end.
Proof. destruct s; reflexivity. Qed.

Lemma contains_suffix (sub x1 x2 : str) :
  startswith sub x2 = true -> contains sub (x1 ++ x2) = true.
Proof.
  intros H. induction x1 as [|c x1 IH].
  - simpl. rewrite contains_eq, H. reflexivity.
  - change ((c :: x1) ++ x2) with (c :: (x1 ++ x2)). rewrite contains_eq, IH.
    apply orb_true_r.
Qed.

(** [sub in s] holds exactly when [s.find(sub)] finds an occurrence, and
    [find] gives the index of the first one. *)
Lemma contains_find (sub s : str) (i : Z) :
  contains sub s = true ->
  exists x y, s = x ++ sub ++ y /\ find_from sub s i = (i + Z.of_nat (length x))%Z.
Proof.
  revert i. induction s as [|c s IH]; intros i; rewrite contains_eq, find_from_eq.
  - rewrite orb_false_r. intros H. rewrite H. apply startswith_spec in H.
    destruct H as (r & E). exists [], r. split; [exact E | simpl; lia].
  - destruct (startswith sub (c :: s)) eqn:E.
    + intros _. apply startswith_spec in E. destruct E as (r & E).
      exists [], r. split; [exact E | simpl; lia].
    + simpl. intros H. destruct (IH (i + 1)%Z H) as (x & y & -> & F).
      exists (c :: x), y. split; [reflexivity|]. rewrite F. simpl length. lia.
Qed.

Lemma find_from_least (sub s : str) (i : Z) (n : nat) :
  find_from sub s i = (i + Z.of_nat n)%Z ->
  forall x1 x2, s = x1 ++ x2 -> length x1 < n -> startswith sub x2 = false.
Proof.
  revert i n. induction s as [|c s IH]; intros i n; rewrite find_from_eq.
  - destruct (startswith sub []) eqn:E; intros H x1 x2 Hs Hl.
    + lia.
    + symmetry in Hs. apply app_eq_nil in Hs. destruct Hs as (_ & ->). exact E.
  - destruct (startswith sub (c :: s)) eqn:E; intros H x1 x2 Hs Hl.
    + lia.
    + destruct x1 as [|c1 x1].
      * simpl in Hs. now subst x2.
      * injection Hs as <- ->. destruct n as [|n]; [simpl in Hl; lia|].
        apply (IH (i + 1)%Z n) with (x1 := x1);
          [rewrite H; lia | reflexivity | simpl in Hl; lia].
Qed.

(** ** Slices *)

Lemma firstn_app_min {A : Type} (a b : list A) (k : nat) :
  firstn (length a + Nat.min k (length b)) (a ++ b) = a ++ firstn k b.
Proof.
  rewrite firstn_app_2. f_equal.
  destruct (Nat.le_gt_cases k (length b)) as [H|H].
  - now rewrite Nat.min_l.
  - rewrite Nat.min_r by lia. now rewrite !firstn_all2 by lia.
Qed.

(** The slice [guess_setor] takes at the first occurrence of a keyword: the
    keyword and the two characters after it. *)
Lemma slice_keyword (x sub y : str) :
  slice (x ++ sub ++ y) (Z.of_nat (length x))
        (Z.min (Z.of_nat (length (x ++ sub ++ y)))
               (Z.of_nat (length x) + Z.of_nat (length sub) + 2))
  = sub ++ firstn 2 y.
Proof.
  unfold slice, clamp_index.
  assert (Ea : (Z.of_nat (length x) <? 0)%Z = false) by (apply Z.ltb_ge; lia).
  assert (Eb : (Z.min (Z.of_nat (length (x ++ sub ++ y)))
                      (Z.of_nat (length x) + Z.of_nat (length sub) + 2) <? 0)%Z = false)
    by (apply Z.ltb_ge; lia).
  rewrite Ea, Eb.
  replace (Z.to_nat (Z.min (Z.of_nat (length (x ++ sub ++ y))) (Z.of_nat (length x))))
    with (length x + 0) by (rewrite !length_app; lia).
  rewrite skipn_length_app. simpl skipn.
  replace (Z.to_nat _) with (length sub + Nat.min 2 (length y))
    by (rewrite !length_app; lia).
  apply firstn_app_min.
Qed.

(** ** The final substitution of the second heuristic *)

Lemma sub_not_az09 (s : str) :
  forall pv ps, sub_loop RE_NOT_AZ09 [] pv ps 0 s = keep_az09 s.
Proof.
  induction s as [|c s IH]; intros pv ps; rewrite sub_loop_zero.
  - reflexivity.
  - unfold match_here, RE_NOT_AZ09. cbn [rmatch rest pos caps].
    fold (az09 c). unfold keep_az09. simpl filter.
    fold RE_NOT_AZ09. fold (keep_az09 s).
    destruct (az09 c); cbn [negb m_end app pos].
    + now rewrite IH.
    + replace (S ps - ps) with 1 by lia. now rewrite IH.
Qed.

Lemma re_sub_not_az09 (s : str) : re_sub RE_NOT_AZ09 [] s = keep_az09 s.
Proof. apply sub_not_az09. Qed.

(** The label for the first keyword found in the file name. *)
Lemma sector_from_name_shape (base_up : str) (chaves : list str) (s : str) :
  sector_from_name base_up chaves = Some s ->
  exists before chave after x y,
    chaves = before ++ chave :: after /\
    Forall (fun k => contains k base_up = false) before /\
    base_up = x ++ chave ++ y /\
    find chave base_up = Z.of_nat (length x) /\
    s = keep_az09 chave ++ keep_az09 (firstn 2 y).
Proof.
  induction chaves as [|chave tl IH]; simpl; [discriminate|].
  destruct (contains chave base_up) eqn:E.
  - intros [= <-]. destruct (contains_find chave base_up 0 E) as (x & y & Hs & Hf).
    exists [], chave, tl, x, y. repeat split; auto.
    unfold find. rewrite Hf. rewrite Hs at 1 2.
    change (0 + Z.of_nat (length x))%Z with (Z.of_nat (length x)).
    rewrite slice_keyword, re_sub_not_az09. unfold keep_az09. apply filter_app.
  - intros H. destruct (IH H) as (before & k & after & x & y & -> & Hb & Hs & Hf & Hr).
    exists (chave :: before), k, after, x, y. repeat split; auto.
Qed.

Lemma sector_from_name_none (base_up : str) (chaves : list str) :
  sector_from_name base_up chaves = None ->
  Forall (fun k => contains k base_up = false) chaves.
Proof.
  induction chaves as [|chave tl IH]; simpl; [constructor|].
  destruct (contains chave base_up) eqn:E; [discriminate|]. auto.
Qed.

Lemma basename_aux_slash (d f cur : str) :
  basename_aux cur (d ++ SLASH :: f) = basename f.
Proof.
  revert cur. induction d as [|c d IH]; intros cur; simpl.
  - reflexivity.
  - destruct (is_char 47 c); apply IH.
Qed.

Lemma first_sector_line_spec (lines : list str) (t : str) :
  first_sector_line lines = Some t ->
  2 <= length t <= 20 /\ isupper t = true /\ exists ln, In ln lines /\ t = strip ln.
Proof.
  induction lines as [|ln tl IH]; cbn [first_sector_line]; [discriminate|].
  match goal with |- context [if ?b then _ else _] => destruct b eqn:E end.
  - intros [= <-]. apply andb_true_iff in E. destruct E as (E & Hu).
    apply andb_true_iff in E. destruct E as (H2 & H20).
    apply Nat.leb_le in H2. apply Nat.leb_le in H20.
    repeat split; auto. exists ln. split; [now left | reflexivity].
  - intros H. destruct (IH H) as (Hl & Hu & ln' & Hin & Ht).
    repeat split; try tauto. exists ln'. split; [now right | exact Ht].
Qed.

Lemma keep_az09_all (s : str) : all az09 (keep_az09 s).
Proof.
  unfold keep_az09. induction s as [|c s IH]; simpl; [constructor|].
  destruct (az09 c) eqn:E; [constructor|]; auto.
Qed.

Lemma keep_az09_length (s : str) : length (keep_az09 s) <= length s.
Proof. apply filter_length_le. Qed.

Lemma az09_not_lower (c : ascii) : az09 c = true -> is_lower c = false.
Proof. by_cases_on_char c. Qed.

Lemma existsb_none (p : ascii -> bool) (s : str) : none p s -> existsb p s = false.
Proof. induction 1 as [|c s Hc _ IH]; simpl; [reflexivity|]. now rewrite Hc. Qed.

(** The two outcomes of the second heuristic. *)
Lemma guess_by_filename_cases (filename : option str) :
  let base_up := upper (basename (match filename with Some f => f | None => [] end)) in
  (Forall (fun k => contains k base_up = false) CHAVES /\
   guess_by_filename filename = ND) \/
  (exists before chave after x y,
     CHAVES = before ++ chave :: after /\
     Forall (fun k => contains k base_up = false) before /\
     base_up = x ++ chave ++ y /\
     find chave base_up = Z.of_nat (length x) /\
     guess_by_filename filename = keep_az09 chave ++ keep_az09 (firstn 2 y)).
Proof.
  intros base_up. unfold guess_by_filename. fold base_up.
  destruct (sector_from_name base_up CHAVES) as [s|] eqn:E.
  - right. apply sector_from_name_shape in E.
    destruct E as (before & chave & after & x & y & H). exists before, chave, after, x, y.
    exact H.
  - left. split; [now apply sector_from_name_none | reflexivity].
Qed.

(** X4.  The second heuristic.  When the upper-cased base name of the file
    holds none of the keywords the label is "N/D".  Otherwise the label comes
    from the first keyword of the list that occurs, at its first
    occurrence: the keyword and the two characters after it, without the
    characters that are not A-Z or 0-9 (so the "Ç" of "AÇOUGUE" is
    dropped). *)
Theorem X4_label_from_file_name (filename : option str) :
  let base_up := upper (basename (match filename with Some f => f | None => [] end)) in
  (Forall (fun k => contains k base_up = false) CHAVES /\
   guess_by_filename filename = ND) \/
  (exists before chave after x y,
     CHAVES = before ++ chave :: after /\
     Forall (fun k => contains k base_up = false) before /\
     base_up = x ++ chave ++ y /\
     find chave base_up = Z.of_nat (length x) /\
     guess_by_filename filename = keep_az09 chave ++ keep_az09 (firstn 2 y)).
Proof. exact (guess_by_filename_cases filename). Qed.

(** X5.  Whatever the text and the file name, the label [guess_setor]
    returns has 2 to 20 characters, and it is either "N/D" or a string
    that [isupper] accepts. *)
Theorem X5_label_bounds (text : str) (filename : option str) :
  exists s,
    guess_setor text filename = Ret s /\
    2 <= length s <= 20 /\
    (s = ND \/ isupper s = true).
Proof.
  assert (Hf : 2 <= length (guess_by_filename filename) <= 20 /\
               (guess_by_filename filename = ND \/ isupper (guess_by_filename filename) = true)).
  { destruct (guess_by_filename_cases filename) as [(_ & ->)|H].
    - split; [simpl; lia | now left].
    - destruct H as (before & chave & after & x & y & Hc & _ & _ & _ & ->).
      assert (Hin : In chave CHAVES) by (rewrite Hc; apply in_elt).
      pose proof (keep_az09_length (firstn 2 y)) as Hl.
      pose proof (firstn_le_length 2 y) as Hl2.
      assert (Hk : 5 <= length (keep_az09 chave) <= 10 /\
                   existsb is_upper (keep_az09 chave) = true).
      { simpl in Hin.
        destruct Hin as [<-|[<-|[<-|[<-|[<-|[<-|[]]]]]]]; vm_compute; split; auto; split; lia. }
      destruct Hk as (Hk & Hu). split; [rewrite length_app; lia|]. right.
      assert (Hn : forall s, existsb is_lower (keep_az09 s) = false).
      { intros s. apply existsb_none.
        eapply none_weaken; [apply az09_not_lower | apply keep_az09_all]. }
      unfold isupper. now rewrite !existsb_app, Hu, !Hn. }
  unfold guess_setor. destruct (re_search RE_DEPTO text) as [m|]; [|eauto].
  destruct (first_sector_line _) as [t|] eqn:E; [|eauto].
  exists t. apply first_sector_line_spec in E. destruct E as (Hl & Hu & _). auto.
Qed.

(** X6.  Only the base name of the file counts: what stands before the
    last slash of the path, a keyword included, changes nothing. *)
Theorem X6_directory_ignored (text dir file : str) :
  guess_setor text (Some (dir ++ SLASH :: file)) = guess_setor text (Some file).
Proof.
  assert (H : guess_by_filename (Some (dir ++ SLASH :: file)) = guess_by_filename (Some file)).
  { unfold guess_by_filename, basename at 1. now rewrite basename_aux_slash. }
  unfold guess_setor. now rewrite H.
Qed.

(** ** Where the marker is searched and found *)

Lemma search_from_inv r (l : str) :
  forall pv ps m,
    search_from r pv ps l = Some m ->
    exists x1 x2, l = x1 ++ x2 /\
                  match_here r (last_or pv x1) (ps + length x1) x2 = Some m.
Proof.
  induction l as [|c l IH]; intros pv ps m; rewrite search_from_eq.
  - destruct (match_here r pv ps []) eqn:E; [|discriminate].
    intros [= <-]. exists [], []. simpl. now rewrite Nat.add_0_r.
  - destruct (match_here r pv ps (c :: l)) eqn:E.
    + intros [= <-]. exists [], (c :: l). simpl. now rewrite Nat.add_0_r.
    + intros H. destruct (IH _ _ _ H) as (x1 & x2 & -> & Hm).
      exists (c :: x1), x2. split; [reflexivity|]. rewrite last_or_cons.
      simpl length. now rewrite Nat.add_succ_r.
Qed.

Lemma search_from_skip r (pre rst : str) :
  forall pv ps,
    (forall x1 x2, pre = x1 ++ x2 -> x2 <> [] ->
                   match_here r (last_or pv x1) (ps + length x1) (x2 ++ rst) = None) ->
    search_from r pv ps (pre ++ rst)
    = search_from r (last_or pv pre) (ps + length pre) rst.
Proof.
  induction pre as [|c pre IH]; intros pv ps H.
  - simpl. now rewrite Nat.add_0_r.
  - change ((c :: pre) ++ rst) with (c :: (pre ++ rst)). rewrite search_from_eq.
    pose proof (H [] (c :: pre) eq_refl ltac:(discriminate)) as H0.
    simpl in H0. rewrite Nat.add_0_r in H0. rewrite H0.
    rewrite IH.
    + rewrite last_or_cons. simpl length. now rewrite Nat.add_succ_r.
    + intros x1 x2 E Hne. specialize (H (c :: x1) x2).
      rewrite last_or_cons in H. simpl length in H. rewrite Nat.add_succ_r in H.
      apply H; [now rewrite E | exact Hne].
Qed.

(** A match of the pattern starts with the marker, in some casing. *)
Lemma rmatch_letters_inv (w : str) (rs : list regex) :
  forall pv ps l cs k res,
    rmatch (seq (map lit_char_i w ++ rs)) (MState pv ps l cs) k = Some res ->
    startswith (map ascii_lower w) (map ascii_lower l) = true.
Proof.
  induction w as [|c w IH]; intros pv ps l cs k res; [reflexivity|].
  cbn [map app seq fold_right rmatch rest lit_char_i pos caps].
  destruct l as [|x l]; [discriminate|].
  destruct (ascii_eqb (ascii_lower x) (ascii_lower c)) eqn:E; [|discriminate].
  fold (seq (map lit_char_i w ++ rs)). intros H. apply IH in H.
  cbn [map startswith]. rewrite H, andb_true_r.
  apply ascii_eqb_eq in E. apply ascii_eqb_eq. now symmetry.
Qed.

Lemma RE_DEPTO_starts pv ps (l : str) (m : match_obj) :
  match_here RE_DEPTO pv ps l = Some m -> startswith MARKER (map ascii_lower l) = true.
Proof.
  unfold match_here, RE_DEPTO.
  destruct (rmatch _ _ _) as [st|] eqn:E; [|discriminate]. intros _.
  apply rmatch_letters_inv in E. exact E.
Qed.

(** The match at the marker: over the white space after it and over the
    next 40 characters. *)
Lemma RE_DEPTO_hit pv ps (mk ws body : str) :
  map ascii_lower mk = MARKER ->
  all is_space ws ->
  match body with [] => True | c :: _ => is_space c = false end ->
  exists m, match_here RE_DEPTO pv ps (mk ++ ws ++ body) = Some m /\
            m_end m = ps + length mk + length ws + length (firstn 40 body).
Proof.
  intros Hmk Hws Hbody.
  assert (Hmk' : Forall2 (fun c x => ascii_lower x = ascii_lower c) (lit "Departamento:") mk).
  { clear -Hmk. unfold MARKER in Hmk.
    do 13 (destruct mk as [|? mk]; [discriminate|]). destruct mk; [|discriminate].
    injection Hmk as ? ? ? ? ? ? ? ? ? ? ? ? ?.
    repeat (constructor; [assumption|]). constructor. }
  unfold match_here, RE_DEPTO. rewrite (rmatch_letters _ mk _ Hmk').
  cbn [seq fold_right rmatch prev pos rest caps].
  set (stop := MState (last_or (last_or (last_or pv mk) ws) (firstn 40 body))
                      (ps + length mk + length ws + length (firstn 40 body))
                      (skipn 40 body)
                      [(1, (ps + length mk + length ws,
                            ps + length mk + length ws + length (firstn 40 body)))]).
  rewrite (rep_loop_greedy_all 0 None is_space ws body 0 _ _ _ _ stop Hws Hbody);
    [eexists; split; [reflexivity | reflexivity] | lia | exact I |].
  cbn [prev pos rest caps].
  rewrite <- (firstn_skipn 40 body) at 1.
  destruct (Nat.le_gt_cases 40 (length body)) as [Hlen|Hlen].
  - rewrite (rep_loop_greedy_bound 0 40 any_char (firstn 40 body) (skipn 40 body) 0 _ _ _ _ stop);
      [reflexivity | apply any_char_all | rewrite length_firstn; lia | lia | reflexivity].
  - rewrite (rep_loop_greedy_all 0 (Some 40) any_char (firstn 40 body) (skipn 40 body)
               0 _ _ _ _ stop);
      [reflexivity | apply any_char_all | | lia | unfold within; rewrite length_firstn; lia | reflexivity].
    rewrite skipn_all2 by lia. exact I.
Qed.

(** X7.  A text that does not hold "departamento:" in any casing gets its
    label from the file name alone. *)
Theorem X7_no_marker (text : str) (filename : option str) :
  contains MARKER (map ascii_lower text) = false ->
  guess_setor text filename = Ret (guess_by_filename filename).
Proof.
  intros H. unfold guess_setor.
  destruct (re_search RE_DEPTO text) as [m|] eqn:E; [|reflexivity].
  apply search_from_inv in E. destruct E as (x1 & x2 & -> & E).
  apply RE_DEPTO_starts in E.
  rewrite map_app, (contains_suffix _ _ _ E) in H. discriminate.
Qed.

Lemma X7_no_marker_witness :
  guess_setor (lit "SETOR: FRIOS") (Some (lit "relatorio_frios3.pdf")) = Ret (lit "FRIOS3").
Proof. rewrite X7_no_marker; reflexivity. Defined.

(** X8.  When the marker occurs, the lines scanned for the sector are those
    of the text that follows the whole match: after the first occurrence of
    the marker, the white space that follows it and 40 more characters (or
    what is left of the text).  The first of the first five of these lines
    that, stripped, has 2 to 20 characters and is in upper case is the
    label; failing that the file name decides. *)
Theorem X8_scan_after_window (pre mk ws body : str) (filename : option str) :
  map ascii_lower mk = MARKER ->
  find MARKER (map ascii_lower (pre ++ mk ++ ws ++ body)) = Z.of_nat (length pre) ->
  all is_space ws ->
  match body with [] => True | c :: _ => is_space c = false end ->
  guess_setor (pre ++ mk ++ ws ++ body) filename
  = match first_sector_line (firstn 5 (splitlines (skipn 40 body))) with
    | Some t => Ret t
    | None => Ret (guess_by_filename filename)
    end.
Proof.
  intros Hmk Hfind Hws Hbody.
  destruct (RE_DEPTO_hit (last_or None pre) (0 + length pre) mk ws body Hmk Hws Hbody)
    as (m & Hm & He).
  assert (Hs : re_search RE_DEPTO (pre ++ mk ++ ws ++ body) = Some m).
  { unfold re_search. rewrite search_from_skip.
    - now rewrite search_from_eq, Hm.
    - intros x1 x2 E Hne.
      destruct (match_here RE_DEPTO (last_or None x1) (0 + length x1) (x2 ++ mk ++ ws ++ body))
        as [m'|] eqn:E'; [|reflexivity].
      apply RE_DEPTO_starts in E'.
      rewrite (find_from_least MARKER _ 0 (length pre) Hfind
                 (map ascii_lower x1) (map ascii_lower (x2 ++ mk ++ ws ++ body))) in E'.
      + discriminate.
      + rewrite <- map_app, E. now rewrite <- app_assoc.
      + rewrite length_map, E, length_app. destruct x2; [congruence | simpl; lia]. }
  unfold guess_setor, slice_from. rewrite Hs, He.
  replace (0 + length pre + length mk + length ws + length (firstn 40 body))
    with (length (pre ++ mk ++ ws) + length (firstn 40 body))
    by (rewrite !length_app; lia).
  replace (pre ++ mk ++ ws ++ body) with ((pre ++ mk ++ ws) ++ body)
    by (now rewrite <- !app_assoc).
  rewrite skipn_length_app, skipn_firstn_length. reflexivity.
Qed.

(** The marker in the second line, followed by a line of 40 characters and
    the sector. *)
Lemma X8_scan_after_window_witness :
  guess_setor (lit "Curva ABC" ++ [LF] ++ lit "DEPARTAMENTO:" ++ lit " "
               ++ lit "0123456789012345678901234567890123456789" ++ [LF]
               ++ lit "LATICINIOS" ++ [LF] ++ lit "QUEIJO 10,00 1,000 10,00")
              None
  = Ret (lit "LATICINIOS").
Proof.
  assert (H : all is_space (lit " ")) by all_chars.
  exact (X8_scan_after_window (lit "Curva ABC" ++ [LF]) (lit "DEPARTAMENTO:") (lit " ")
           (lit "0123456789012345678901234567890123456789" ++ [LF]
            ++ lit "LATICINIOS" ++ [LF] ++ lit "QUEIJO 10,00 1,000 10,00") None
           eq_refl eq_refl H eq_refl).
Defined.

(** ** When the engine finds no match *)

Lemma orelse_none {A : Type} (a : option A) (b : unit -> option A) :
  orelse a b = None -> a = None /\ b tt = None.
Proof. destruct a; simpl; [discriminate | auto]. Qed.

(** A repetition that fails has failed for every admissible run. *)
Lemma rep_loop_none g lo hi p l :
  forall n pv ps cs k,
    rep_loop g lo hi p n pv ps cs l k = None ->
    forall a tl, l = a ++ tl -> all p a -> lo <= n + length a ->
      a = [] \/ within hi (n + length a) ->
      k (MState (last_or pv a) (ps + length a) tl cs) = None.
Proof.
  induction l as [|c l IH]; intros n pv ps cs k H a tl E Ha Hlo Hhi;
    rewrite rep_loop_eq in H; cbv beta zeta in H.
  - symmetry in E. apply app_eq_nil in E. destruct E as (-> & ->).
    assert (Hstop : (if lo <=? n then k (MState pv ps [] cs) else None) = None).
    { destruct g; apply orelse_none in H; cbv beta in H; tauto. }
    simpl in Hlo |- *. rewrite Nat.add_0_r in *.
    apply Nat.leb_le in Hlo. now rewrite Hlo in Hstop.
  - assert (Hb : (if (p c && below hi n)%bool
                  then rep_loop g lo hi p (S n) (Some c) (S ps) cs l k else None) = None /\
                 (if lo <=? n then k (MState pv ps (c :: l) cs) else None) = None).
    { destruct g; apply orelse_none in H; cbv beta in H; tauto. }
    destruct Hb as (Hmore & Hstop).
    destruct a as [|c' a].
    + simpl in E, Hlo |- *. subst tl. rewrite Nat.add_0_r in *.
      apply Nat.leb_le in Hlo. now rewrite Hlo in Hstop.
    + injection E as <- ->. inversion Ha as [|? ? Hc Ha']; subst.
      destruct Hhi as [Hhi|Hhi]; [discriminate|].
      assert (Hbelow : below hi n = true).
      { destruct hi as [h|]; [|reflexivity]. simpl in *. apply Nat.ltb_lt. lia. }
      rewrite Hc, Hbelow in Hmore. simpl in Hmore.
      rewrite last_or_cons. simpl length. rewrite Nat.add_succ_r.
      apply (IH (S n) (Some c) (S ps) cs k Hmore a tl eq_refl Ha').
      * simpl in Hlo. lia.
      * right. destruct hi as [h|]; simpl in *; [lia | exact I].
Qed.

(** The pattern matches every line of a name and three numeric fields. *)
Lemma patt_matches (name p q v : str) :
  name <> [] -> all dot_char name ->
  all num_char p -> p <> [] -> all num_char q -> q <> [] -> all num_char v -> v <> [] ->
  re_match patt (product_line name p q v) <> None.
Proof.
  intros Nn Hn Hp Np Hq Nq Hv Nv.
  assert (Hlen : forall x : str, x <> [] -> 1 <= 0 + length x).
  { intros [|? ?] Hx; [congruence | simpl; lia]. }
  assert (Hsp : all is_space [SP]) by (repeat constructor).
  unfold re_match, match_here, product_line.
  destruct (rmatch patt _ _) as [st|] eqn:H; [discriminate|]. exfalso.
  unfold patt, seq, NUM_TOKEN in H. cbn [fold_right rmatch pos prev rest caps Nat.eqb] in H.
  apply (fun Hx => rep_loop_none _ _ None _ _ 0 _ _ _ _ Hx name _ eq_refl Hn
                     (Hlen _ Nn) (or_intror I)) in H.
  cbn [prev pos rest caps rmatch] in H.
  apply (fun Hx => rep_loop_none _ _ None _ _ 0 _ _ _ _ Hx [SP] _ eq_refl Hsp
                     (le_n 1) (or_intror I)) in H.
  cbn [prev pos rest caps rmatch] in H.
  apply (fun Hx => rep_loop_none _ _ None _ _ 0 _ _ _ _ Hx p _ eq_refl Hp
                     (Hlen _ Np) (or_intror I)) in H.
  cbn [prev pos rest caps rmatch] in H.
  apply (fun Hx => rep_loop_none _ _ None _ _ 0 _ _ _ _ Hx [SP] _ eq_refl Hsp
                     (le_n 1) (or_intror I)) in H.
  cbn [prev pos rest caps rmatch] in H.
  apply (fun Hx => rep_loop_none _ _ None _ _ 0 _ _ _ _ Hx q _ eq_refl Hq
                     (Hlen _ Nq) (or_intror I)) in H.
  cbn [prev pos rest caps rmatch] in H.
  apply (fun Hx => rep_loop_none _ _ None _ _ 0 _ _ _ _ Hx [SP] _ eq_refl Hsp
                     (le_n 1) (or_intror I)) in H.
  cbn [prev pos rest caps rmatch] in H.
  apply (fun Hx => rep_loop_none _ _ None _ _ 0 _ _ _ _ Hx v [] (eq_sym (app_nil_r v)) Hv
                     (Hlen _ Nv) (or_intror I)) in H.
  cbn [prev pos rest caps rmatch] in H.
  apply orelse_none in H. destruct H as (_ & H). cbn in H. discriminate.
Qed.

(** ** The fields of a matched line, read off its tokens *)

(** The tokens of a matched line: those of the name, the three numeric
    fields, and those of what follows. *)
Lemma patt_match_tokens (s : str) (m : match_obj) :
  re_match patt s = Some m ->
  exists n w1 p w2 q w3 v r,
    s = n ++ w1 ++ p ++ w2 ++ q ++ w3 ++ v ++ r /\
    w1 <> [] /\ all is_space w1 /\ all num_char p /\
    w2 <> [] /\ all is_space w2 /\ all num_char q /\
    w3 <> [] /\ all is_space w3 /\ all num_char v /\
    split_ws s = split_ws n ++ p :: q :: v :: split_ws r /\
    group s m G_NOME = n /\ group s m G_PRECO = p /\
    group s m G_QTD = q /\ group s m G_VALOR = v /\
    n <> [] /\ p <> [] /\ q <> [] /\ v <> [].
Proof.
  intros H. apply patt_match_inv in H.
  destruct H as (n & w1 & p & w2 & q & w3 & v & r & E & Nn & _ & Nw1 & Hw1 & Np & Hp
                 & Nw2 & Hw2 & Nq & Hq & Nw3 & Hw3 & Nv & Hv & Hr & G1 & G2 & G3 & G4).
  exists n, w1, p, w2, q, w3, v, r. repeat split; auto.
  rewrite E at 1.
  rewrite (split_ws_app n w1 _ Hw1 Nw1). f_equal.
  rewrite (split_ws_token p _ Np (num_token_nonspace p Hp))
    by (destruct w2 as [|c w2]; [congruence | inversion Hw2; assumption]).
  f_equal. rewrite (split_ws_skip w2 _ Hw2).
  rewrite (split_ws_token q _ Nq (num_token_nonspace q Hq))
    by (destruct w3 as [|c w3]; [congruence | inversion Hw3; assumption]).
  f_equal. rewrite (split_ws_skip w3 _ Hw3).
  now rewrite (split_ws_token v r Nv (num_token_nonspace v Hv) Hr).
Qed.

Lemma product_line_tokens (name p q v : str) :
  all num_char p -> p <> [] -> all num_char q -> q <> [] -> all num_char v -> v <> [] ->
  split_ws (product_line name p q v) = split_ws name ++ [p; q; v].
Proof.
  intros Hp Np Hq Nq Hv Nv. unfold product_line.
  assert (Hsp : all is_space [SP]) by (repeat constructor).
  rewrite (split_ws_app name [SP] _ Hsp) by discriminate. f_equal.
  rewrite (split_ws_token p _ Np (num_token_nonspace p Hp)) by reflexivity.
  f_equal. rewrite (split_ws_skip [SP] _ Hsp).
  rewrite (split_ws_token q _ Nq (num_token_nonspace q Hq)) by reflexivity.
  f_equal. rewrite (split_ws_skip [SP] _ Hsp).
  rewrite <- (app_nil_r v) at 1.
  now rewrite (split_ws_token v [] Nv (num_token_nonspace v Hv) I).
Qed.

Lemma split_ws_aux_nil (s cur : str) : split_ws_aux cur s = [] -> cur = [] /\ all is_space s.
Proof.
  revert cur. induction s as [|c s IH]; intros cur; simpl.
  - destruct cur; [split; [reflexivity | constructor] | discriminate].
  - destruct (is_space c) eqn:E.
    + intros H. apply app_eq_nil in H. destruct H as (H1 & H2).
      apply IH in H2. destruct H2 as (_ & H2).
      split; [destruct cur; [reflexivity | discriminate] | now constructor].
    + intros H. apply IH in H. destruct H as (H & _). discriminate.
Qed.

Lemma app_eq_length {A : Type} (a b c d : list A) :
  a ++ b = c ++ d -> length a = length c -> a = c /\ b = d.
Proof.
  revert c. induction a as [|x a IH]; intros [|y c] E L; simpl in *; try discriminate.
  - auto.
  - injection E as -> E. destruct (IH c E) as (-> & ->); [lia | auto].
Qed.

(** The first numeric token of a line decides where its name ends. *)
Lemma tokens_unique (N X R : list str) (P Q V p q v : str) :
  forallb (fun t => negb (numeric_token t)) N = true ->
  all num_char p ->
  N ++ [P; Q; V] = X ++ p :: q :: v :: R ->
  X = N /\ p = P /\ q = Q /\ v = V /\ R = [].
Proof.
  intros HN Hp E.
  assert (Hlen : length N + 3 = length X + 3 + length R).
  { apply (f_equal (@length str)) in E. rewrite !length_app in E. simpl in E. lia. }
  assert (Hge : length N <= length X).
  { destruct (Nat.le_gt_cases (length N) (length X)) as [H|H]; [exact H | exfalso].
    assert (Hnth : nth_error (N ++ [P; Q; V]) (length X) = Some p).
    { rewrite E, nth_error_app2, Nat.sub_diag by lia. reflexivity. }
    rewrite nth_error_app1 in Hnth by exact H.
    apply nth_error_In in Hnth.
    rewrite forallb_forall in HN. specialize (HN p Hnth).
    apply numeric_token_all in Hp. rewrite Hp in HN. discriminate. }
  destruct (app_eq_length N [P; Q; V] X (p :: q :: v :: R) E) as (-> & E'); [lia|].
  injection E' as <- <- <- <-. auto.
Qed.

(** White space after a character that is none. *)
Lemma peel_space (x y w : str) :
  ends_nonspace x -> all is_space w -> w <> [] -> x ++ [SP] = y ++ w -> y = x /\ w = [SP].
Proof.
  intros (x' & c & -> & Hc) Hw Nw E.
  destruct (exists_last Nw) as (w' & s1 & ->).
  rewrite app_assoc in E. apply app_inj_tail in E. destruct E as (E & <-).
  destruct w' as [|s2 w'].
  - rewrite app_nil_r in E. now subst y.
  - exfalso. destruct (@exists_last _ (s2 :: w')) as (w'' & s3 & Ew); [discriminate|].
    rewrite Ew in E, Hw. rewrite app_assoc in E. apply app_inj_tail in E.
    destruct E as (_ & ->).
    apply Forall_app in Hw. destruct Hw as (Hw & _).
    apply Forall_app in Hw. destruct Hw as (_ & Hw). inversion Hw; subst. congruence.
Qed.

Lemma peel_tail (x y t r : str) :
  ends_nonspace t -> all is_space r -> x ++ t = y ++ t ++ r -> r = [] /\ x = y.
Proof.
  intros (t' & c & -> & Hc) Hr E.
  assert (r = []).
  { destruct r as [|s r]; [reflexivity | exfalso].
    destruct (@exists_last _ (s :: r)) as (r' & s1 & Er); [discriminate|].
    rewrite Er in E, Hr. rewrite !app_assoc in E. apply app_inj_tail in E.
    destruct E as (_ & ->).
    apply Forall_app in Hr. destruct Hr as (_ & Hr). inversion Hr; subst. congruence. }
  subst r. rewrite app_nil_r in E. apply app_inv_tail in E. auto.
Qed.

(** How a line of four fields splits into a name, white space and three
    numeric tokens: in one way only. *)
Lemma ends_nonspace_app (x t : str) : ends_nonspace t -> ends_nonspace (x ++ t).
Proof. intros (t' & c & -> & Hc). exists (x ++ t'), c. now rewrite app_assoc. Qed.

Lemma product_line_unique (name P Q V n w1 w2 w3 r : str) :
  ends_nonspace name -> ends_nonspace P -> ends_nonspace Q -> ends_nonspace V ->
  all is_space w1 -> w1 <> [] -> all is_space w2 -> w2 <> [] ->
  all is_space w3 -> w3 <> [] -> all is_space r ->
  product_line name P Q V = n ++ w1 ++ P ++ w2 ++ Q ++ w3 ++ V ++ r ->
  n = name.
Proof.
  intros En EP EQ EV Hw1 Nw1 Hw2 Nw2 Hw3 Nw3 Hr E. unfold product_line in E.
  assert (E1 : (name ++ [SP] ++ P ++ [SP] ++ Q ++ [SP]) ++ V
               = (n ++ w1 ++ P ++ w2 ++ Q ++ w3) ++ V ++ r).
  { rewrite <- !app_assoc. exact E. }
  apply peel_tail in E1; auto. destruct E1 as (_ & E1).
  assert (E2 : (name ++ [SP] ++ P ++ [SP] ++ Q) ++ [SP] = (n ++ w1 ++ P ++ w2 ++ Q) ++ w3).
  { rewrite <- !app_assoc. exact E1. }
  assert (HQ : ends_nonspace (name ++ [SP] ++ P ++ [SP] ++ Q)).
  { rewrite !app_assoc. now apply ends_nonspace_app. }
  apply (peel_space _ _ _ HQ Hw3 Nw3) in E2. destruct E2 as (E2 & _).
  assert (E3 : (n ++ w1 ++ P ++ w2) ++ Q = (name ++ [SP] ++ P ++ [SP]) ++ Q).
  { rewrite <- !app_assoc. exact E2. }
  apply app_inv_tail in E3.
  assert (E4 : (name ++ [SP] ++ P) ++ [SP] = (n ++ w1 ++ P) ++ w2).
  { rewrite <- !app_assoc. now rewrite E3. }
  assert (HP : ends_nonspace (name ++ [SP] ++ P)).
  { rewrite !app_assoc. now apply ends_nonspace_app. }
  apply (peel_space _ _ _ HP Hw2 Nw2) in E4. destruct E4 as (E4 & _).
  assert (E5 : (n ++ w1) ++ P = (name ++ [SP]) ++ P).
  { rewrite <- !app_assoc. exact E4. }
  apply app_inv_tail in E5. symmetry in E5.
  apply (peel_space _ _ _ En Hw1 Nw1) in E5. tauto.
Qed.

Lemma num_token_ends (t : str) : t <> [] -> all num_char t -> ends_nonspace t.
Proof. intros Hne Ht. apply ends_numeric_nonspace, all_num_ends; assumption. Qed.

(** On a line of a name without numeric token and three numeric fields the
    groups of the pattern are the four fields. *)
Lemma patt_product_line (name p q v : str) :
  ends_nonspace name -> all dot_char name -> no_numeric_token name ->
  all num_char p -> p <> [] -> all num_char q -> q <> [] -> all num_char v -> v <> [] ->
  exists m,
    re_match patt (product_line name p q v) = Some m /\
    group (product_line name p q v) m G_NOME = name /\
    group (product_line name p q v) m G_PRECO = p /\
    group (product_line name p q v) m G_QTD = q /\
    group (product_line name p q v) m G_VALOR = v.
Proof.
  intros En Hn Hnum Hp Np Hq Nq Hv Nv.
  assert (Nn : name <> []).
  { destruct En as (x & c & -> & _). destruct x; discriminate. }
  destruct (re_match patt (product_line name p q v)) as [m|] eqn:Hm.
  2: { exfalso. exact (patt_matches name p q v Nn Hn Hp Np Hq Nq Hv Nv Hm). }
  exists m. split; [reflexivity|].
  destruct (patt_match_tokens _ m Hm)
    as (n & w1 & p' & w2 & q' & w3 & v' & r & E & Nw1 & Hw1 & Hp' & Nw2 & Hw2 & Hq'
        & Nw3 & Hw3 & Hv' & Htok & G1 & G2 & G3 & G4 & _).
  rewrite (product_line_tokens name p q v Hp Np Hq Nq Hv Nv) in Htok.
  destruct (tokens_unique _ _ _ _ _ _ _ _ _ Hnum Hp' Htok) as (_ & -> & -> & -> & HR).
  apply (split_ws_aux_nil r []) in HR. destruct HR as (_ & HR).
  rewrite G1, G2, G3, G4. repeat split; auto.
  apply (product_line_unique name p q v n w1 w2 w3 r); auto using num_token_ends.
Qed.

(** ** Lines the two substitutions leave alone, and lines they shorten *)

Lemma ends_numeric_suffix (l x1 x2 : str) :
  l = x1 ++ x2 -> x2 <> [] -> ends_numeric l -> ends_numeric x2.
Proof.
  intros E Hne (l' & c & El & Hc).
  destruct (exists_last Hne) as (x2' & c' & ->).
  rewrite El, app_assoc in E. apply app_inj_tail in E. destruct E as (_ & ->).
  now exists x2', c'.
Qed.

Lemma span_prefix_length (p : ascii -> bool) (a b : str) :
  all p a -> length a <= length (fst (span p (a ++ b))).
Proof.
  induction 1 as [|c a Hc _ IH]; simpl; [lia|].
  rewrite Hc. destruct (span p (a ++ b)). simpl in *. lia.
Qed.

Lemma span_stop (p : ascii -> bool) (a b : str) (c : ascii) :
  p c = false -> fst (span p (a ++ c :: b)) = fst (span p a).
Proof.
  intros Hc. induction a as [|x a IH]; simpl.
  - now rewrite Hc.
  - destruct (p x); [|reflexivity].
    destruct (span p (a ++ c :: b)), (span p a). simpl in *. now rewrite IH.
Qed.

Lemma digit_tail_suffix (x a : str) : all is_digit a -> length a <= digit_tail (x ++ a).
Proof.
  intros Ha. unfold digit_tail. rewrite rev_app_distr, <- (length_rev a).
  apply span_prefix_length. unfold all in *. apply Forall_rev. exact Ha.
Qed.

Lemma digit_tail_field (x v : str) : digit_tail (x ++ [SP] ++ v) = digit_tail v.
Proof.
  unfold digit_tail. rewrite !rev_app_distr. simpl rev. rewrite <- app_assoc.
  simpl app. now rewrite span_stop.
Qed.

(** A line that ends in fewer than 8 digits holds no EAN; one that ends in
    fewer than 4 holds no internal code either. *)
Lemma sub_EAN_none (l : str) :
  ends_numeric l -> digit_tail l < 8 -> re_sub RE_EAN [] l = l.
Proof.
  intros Hend Ht. unfold re_sub. apply sub_loop_miss; [apply RE_EAN_no_empty|].
  intros x1 x2 E.
  destruct (match_here RE_EAN _ _ x2) as [m|] eqn:Hm; [exfalso | reflexivity].
  apply RE_EAN_inv in Hm. destruct Hm as (a & rst & El & Ha & La & Hr & _).
  assert (Hx2 : x2 <> []).
  { intros ->. symmetry in El. apply app_eq_nil in El. destruct El as [-> _]. simpl in La. lia. }
  destruct (trailing_run_is_digits x2 a [] rst) as (Ea & _ & _); auto; [constructor| |].
  - eapply ends_numeric_suffix; eauto.
  - rewrite Ea in E. subst l. pose proof (digit_tail_suffix x1 a Ha). lia.
Qed.

Lemma sub_CODE_none (l : str) :
  ends_numeric l -> digit_tail l < 4 -> re_sub RE_CODE [] l = l.
Proof.
  intros Hend Ht. unfold re_sub. apply sub_loop_miss; [apply RE_CODE_no_empty|].
  intros x1 x2 E.
  destruct (match_here RE_CODE _ _ x2) as [m|] eqn:Hm; [exfalso | reflexivity].
  apply RE_CODE_inv in Hm. destruct Hm as (a & w & rst & El & Ha & La & Hw & Hr & _).
  assert (Hx2 : x2 <> []).
  { intros ->. symmetry in El. apply app_eq_nil in El. destruct El as [-> _]. simpl in La. lia. }
  destruct (trailing_run_is_digits x2 a w rst) as (Ea & _ & _); auto.
  - eapply ends_numeric_suffix; eauto.
  - rewrite Ea in E. subst l. pose proof (digit_tail_suffix x1 a Ha). lia.
Qed.

Lemma digits_ends_numeric (a : str) : a <> [] -> all is_digit a -> ends_numeric a.
Proof.
  intros Hne Ha. apply all_num_ends; [exact Hne|].
  eapply all_weaken; [apply digit_is_num_char | exact Ha].
Qed.

(** A last field of 8 to 13 digits is removed as an EAN, and one of 4 to 8
    digits as an internal code. *)
Lemma sub_EAN_tail (x ean : str) :
  all is_digit ean -> 8 <= length ean <= 13 -> re_sub RE_EAN [] (x ++ [SP] ++ ean) = x ++ [SP].
Proof.
  intros Hd Hl.
  assert (Hne : ean <> []) by (destruct ean; simpl in *; [lia | discriminate]).
  unfold re_sub. rewrite app_assoc.
  destruct (RE_EAN_hit (last_or None (x ++ [SP])) (0 + length (x ++ [SP])) ean)
    as (m & Hm & He); [assumption | lia | apply last_or_space |].
  rewrite (sub_loop_hit RE_EAN [] RE_EAN_no_empty (x ++ [SP]) ean None 0 m).
  - apply app_nil_r.
  - apply no_EAN_before. now apply digits_ends_numeric.
  - exact Hne.
  - exact Hm.
  - exact He.
Qed.

Lemma sub_CODE_tail (x code : str) :
  all is_digit code -> 4 <= length code <= 8 -> re_sub RE_CODE [] (x ++ [SP] ++ code) = x ++ [SP].
Proof.
  intros Hd Hl.
  assert (Hne : code <> []) by (destruct code; simpl in *; [lia | discriminate]).
  unfold re_sub. rewrite app_assoc.
  destruct (RE_CODE_hit (last_or None (x ++ [SP])) (0 + length (x ++ [SP])) code)
    as (m & Hm & He); [assumption | lia | apply last_or_space |].
  rewrite (sub_loop_hit RE_CODE [] RE_CODE_no_empty (x ++ [SP]) code None 0 m).
  - apply app_nil_r.
  - apply no_CODE_before. now apply digits_ends_numeric.
  - exact Hne.
  - exact Hm.
  - exact He.
Qed.

Lemma starts_nonspace_app (x y : str) : starts_nonspace x -> starts_nonspace (x ++ y).
Proof. destruct x; simpl; [intros [] | auto]. Qed.

Lemma product_line_starts (name p q v : str) :
  starts_nonspace name -> starts_nonspace (product_line name p q v).
Proof. apply starts_nonspace_app. Qed.

Lemma product_line_ends (name p q v : str) :
  all num_char v -> v <> [] -> ends_numeric (product_line name p q v).
Proof.
  intros Hv Nv. unfold product_line. rewrite !app_assoc.
  apply ends_numeric_app, all_num_ends; assumption.
Qed.

(** A line of four fields whose value ends in fewer than 4 digits is left
    as it is by the two substitutions. *)
Lemma clean_product_line (name p q v : str) :
  starts_nonspace name -> all num_char v -> v <> [] -> digit_tail v < 4 ->
  clean_line (product_line name p q v) = product_line name p q v.
Proof.
  intros Sn Hv Nv Ht.
  pose proof (product_line_starts name p q v Sn) as Hs.
  pose proof (product_line_ends name p q v Hv Nv) as He.
  assert (Hd : digit_tail (product_line name p q v) = digit_tail v).
  { unfold product_line.
    replace (name ++ [SP] ++ p ++ [SP] ++ q ++ [SP] ++ v)
      with ((name ++ [SP] ++ p ++ [SP] ++ q) ++ [SP] ++ v) by (now rewrite <- !app_assoc).
    apply digit_tail_field. }
  unfold clean_line.
  rewrite sub_EAN_none by (auto; lia).
  rewrite (strip_clean _ Hs (ends_numeric_nonspace _ He)).
  rewrite sub_CODE_none by (auto; lia).
  apply (strip_clean _ Hs (ends_numeric_nonspace _ He)).
Qed.

(** With an internal code and an EAN after the value, both are removed and
    the four fields are left. *)
Lemma clean_coded_line (name p q v code ean : str) :
  starts_nonspace name -> all num_char v -> v <> [] ->
  all is_digit code -> 4 <= length code <= 8 ->
  all is_digit ean -> 8 <= length ean <= 13 ->
  clean_line (product_line name p q v ++ [SP] ++ code ++ [SP] ++ ean)
  = product_line name p q v.
Proof.
  intros Sn Hv Nv Hc Lc He Le.
  pose proof (product_line_starts name p q v Sn) as Hs.
  pose proof (product_line_ends name p q v Hv Nv) as Hend.
  assert (Nc : code <> []) by (destruct code; simpl in *; [lia | discriminate]).
  unfold clean_line.
  replace (product_line name p q v ++ [SP] ++ code ++ [SP] ++ ean)
    with ((product_line name p q v ++ [SP] ++ code) ++ [SP] ++ ean)
    by (now rewrite <- !app_assoc).
  rewrite (sub_EAN_tail _ ean He Le).
  rewrite strip_trailing; [| now apply starts_nonspace_app | | repeat constructor].
  2: { rewrite app_assoc. apply ends_nonspace_app, ends_numeric_nonspace.
       now apply digits_ends_numeric. }
  rewrite (sub_CODE_tail _ code Hc Lc).
  apply strip_trailing; [exact Hs | now apply ends_numeric_nonspace | repeat constructor].
Qed.

(** A line that is cleaned to four fields gives these as its candidate. *)
Lemma extract_of_clean (ln name p q v : str) :
  ln <> [] -> no_lixo ln -> clean_line ln = product_line name p q v ->
  starts_nonspace name -> ends_nonspace name -> all dot_char name -> no_numeric_token name ->
  all num_char p -> p <> [] -> all num_char q -> q <> [] -> all num_char v -> v <> [] ->
  extract ln = Some (Candidate name p q v).
Proof.
  intros Nl Hl Hc Sn En Hn Hnum Hp Np Hq Nq Hv Nv.
  destruct (patt_product_line name p q v En Hn Hnum Hp Np Hq Nq Hv Nv)
    as (m & Hm & G1 & G2 & G3 & G4).
  unfold extract. unfold no_lixo in Hl. rewrite Hl, Hc, Hm, G1, G2, G3, G4.
  rewrite (strip_clean name Sn En).
  destruct ln; [congruence | reflexivity].
Qed.

(** X12.  A line made of a name and three numeric fields, with single
    spaces between them, yields these four fields as its candidate when the
    name starts and ends with a character that is no white space, holds no
    line feed and no token of digits, dots and commas only, the line holds
    no word of the denylist, and the value ends in fewer than 4 digits (so
    that it cannot be taken for an internal code). *)
Theorem X12_product_line_candidate (name price qty value : str) :
  starts_nonspace name -> ends_nonspace name -> all dot_char name ->
  no_numeric_token name ->
  all num_char price -> price <> [] ->
  all num_char qty -> qty <> [] ->
  all num_char value -> value <> [] -> digit_tail value < 4 ->
  no_lixo (product_line name price qty value) ->
  clean_line (product_line name price qty value) = product_line name price qty value /\
  extract (product_line name price qty value) = Some (Candidate name price qty value) /\
  parse_line (product_line name price qty value) = validate (Candidate name price qty value).
Proof.
  intros Sn En Hn Hnum Hp Np Hq Nq Hv Nv Ht Hl.
  pose proof (clean_product_line name price qty value Sn Hv Nv Ht) as Hc.
  assert (He : extract (product_line name price qty value)
               = Some (Candidate name price qty value)).
  { apply extract_of_clean; auto.
    unfold product_line. destruct name; [destruct Sn | discriminate]. }
  repeat split; auto. unfold parse_line. now rewrite He.
Qed.

(** "ARROZ BRANCO 5KG 12,50 3,000 37,50" *)
Lemma X12_product_line_candidate_witness :
  extract (lit "ARROZ BRANCO 5KG 12,50 3,000 37,50")
  = Some (Candidate (lit "ARROZ BRANCO 5KG") (lit "12,50") (lit "3,000") (lit "37,50")).
Proof.
  apply (X12_product_line_candidate (lit "ARROZ BRANCO 5KG") (lit "12,50") (lit "3,000")
           (lit "37,50")).
  - reflexivity.
  - exists (lit "ARROZ BRANCO 5K"), (chr 71). split; reflexivity.
  - all_chars.
  - reflexivity.
  - all_chars.
  - discriminate.
  - all_chars.
  - discriminate.
  - all_chars.
  - discriminate.
  - vm_compute. lia.
  - reflexivity.
Defined.

(** X13.  When an internal code of 4 to 8 digits and an EAN of 8 to 13
    digits follow the value, both are removed and the candidate is that of
    the four fields, whatever digits the value ends in. *)
Theorem X13_coded_line_candidate (name price qty value code ean : str) :
  starts_nonspace name -> ends_nonspace name -> all dot_char name ->
  no_numeric_token name ->
  all num_char price -> price <> [] ->
  all num_char qty -> qty <> [] ->
  all num_char value -> value <> [] ->
  all is_digit code -> 4 <= length code <= 8 ->
  all is_digit ean -> 8 <= length ean <= 13 ->
  no_lixo (product_line name price qty value ++ [SP] ++ code ++ [SP] ++ ean) ->
  clean_line (product_line name price qty value ++ [SP] ++ code ++ [SP] ++ ean)
  = product_line name price qty value /\
  extract (product_line name price qty value ++ [SP] ++ code ++ [SP] ++ ean)
  = Some (Candidate name price qty value).
Proof.
  intros Sn En Hn Hnum Hp Np Hq Nq Hv Nv Hc Lc He Le Hl.
  pose proof (clean_coded_line name price qty value code ean Sn Hv Nv Hc Lc He Le) as Hcl.
  split; [exact Hcl|].
  apply extract_of_clean; auto.
  unfold product_line. destruct name; [destruct Sn | discriminate].
Qed.

(** "ARROZ BRANCO 12,50 3,000 3750 123456 7891234567890": the value 3750
    is kept. *)
Lemma X13_coded_line_candidate_witness :
  extract (lit "ARROZ BRANCO 12,50 3,000 3750 123456 7891234567890")
  = Some (Candidate (lit "ARROZ BRANCO") (lit "12,50") (lit "3,000") (lit "3750")).
Proof.
  apply (X13_coded_line_candidate (lit "ARROZ BRANCO") (lit "12,50") (lit "3,000")
           (lit "3750") (lit "123456") (lit "7891234567890")).
  - reflexivity.
  - exists (lit "ARROZ BRANC"), (chr 79). split; reflexivity.
  - all_chars.
  - reflexivity.
  - all_chars.
  - discriminate.
  - all_chars.
  - discriminate.
  - all_chars.
  - discriminate.
  - all_chars.
  - simpl. lia.
  - all_chars.
  - simpl. lia.
  - reflexivity.
Defined.

(** ** Names with three letters in a row *)

Lemma search_from_complete r (x1 x2 : str) :
  forall pv ps,
    match_here r (last_or pv x1) (ps + length x1) x2 <> None ->
    search_from r pv ps (x1 ++ x2) <> None.
Proof.
  induction x1 as [|c x1 IH]; intros pv ps H; rewrite search_from_eq.
  - simpl in *. rewrite Nat.add_0_r in H. destruct (match_here r pv ps x2); congruence.
  - destruct (match_here r pv ps ((c :: x1) ++ x2)); [discriminate|].
    apply IH. rewrite last_or_cons in H. simpl length in H. now rewrite Nat.add_succ_r in H.
Qed.

Lemma letters_found (s : str) : has_letters s <-> is_some (re_search RE_LETTERS s) = true.
Proof.
  split.
  - intros (a & b & c & -> & Hb & Lb).
    assert (H : re_search RE_LETTERS (a ++ b ++ c) <> None).
    { apply search_from_complete. unfold match_here, RE_LETTERS. cbn [rmatch prev pos rest caps].
      destruct (rep_loop _ _ _ _ _ _ _ _ _ _) eqn:E; [discriminate|].
      apply (fun Hx => rep_loop_none _ _ None _ _ 0 _ _ _ _ Hx b c eq_refl Hb Lb (or_intror I)) in E.
      discriminate. }
    destruct (re_search RE_LETTERS (a ++ b ++ c)); [reflexivity | congruence].
  - destruct (re_search RE_LETTERS s) as [m|] eqn:E; [intros _ | discriminate].
    apply search_from_inv in E. destruct E as (x1 & x2 & -> & E).
    unfold match_here, RE_LETTERS in E. cbn [rmatch prev pos rest caps] in E.
    destruct (rep_loop _ _ _ _ _ _ _ _ _ _) eqn:R; [|discriminate].
    apply rep_loop_inv in R. destruct R as (b & c & -> & Hb & Lb & _).
    exists x1, b, c. auto.
Qed.

Lemma dropwhile_head (p : ascii -> bool) (s : str) :
  match dropwhile p s with [] => True | c :: _ => p c = false end.
Proof.
  induction s as [|c s IH]; simpl; [exact I|].
  destruct (p c) eqn:E; [exact IH | exact E].
Qed.

Lemma dropwhile_snoc (p : ascii -> bool) (s : str) (c : ascii) :
  p c = false -> dropwhile p (s ++ [c]) = dropwhile p s ++ [c].
Proof.
  intros Hc. induction s as [|x s IH]; simpl.
  - now rewrite Hc.
  - destruct (p x); [exact IH | reflexivity].
Qed.

(** What [strip] returns is empty or starts and ends with a character that
    is no white space. *)
Lemma strip_spec (s : str) :
  strip s = [] \/ (starts_nonspace (strip s) /\ ends_nonspace (strip s)).
Proof.
  unfold strip, strip_by, lstrip_by, rstrip_by.
  pose proof (dropwhile_head is_space s) as Hh.
  destruct (dropwhile is_space s) as [|c t]; [now left|]. right.
  change (rev (c :: t)) with (rev t ++ [c]).
  rewrite (dropwhile_snoc _ _ _ Hh), rev_app_distr. cbn [rev app].
  pose proof (dropwhile_head is_space (rev t)) as Hr.
  destruct (dropwhile is_space (rev t)) as [|d u].
  - split; [exact Hh | exists [], c; auto].
  - split; [exact Hh|]. exists (c :: rev u), d. split; [reflexivity | exact Hr].
Qed.

Lemma has_letters_nonempty (s : str) : has_letters s -> s <> [].
Proof.
  intros (a & b & c & -> & _ & Lb) H.
  apply app_eq_nil in H. destruct H as (_ & H). apply app_eq_nil in H.
  destruct H as (-> & _). simpl in Lb. lia.
Qed.

Lemma validate_inv (c : candidate) (p : produto) :
  validate c = Ret (Some p) ->
  nome p = c_nome c /\ is_some (re_search RE_LETTERS (c_nome c)) = true.
Proof.
  unfold validate.
  destruct (br_to_float_total (Some (c_preco c))) as (a & ->).
  destruct (br_to_float_total (Some (c_qtd c))) as (b & ->).
  destruct (br_to_float_total (Some (c_valor c))) as (d & ->).
  cbn [bind].
  destruct a as [a|]; [|discriminate].
  destruct (fleb a fzero); [discriminate|].
  destruct d as [d|]; [|discriminate].
  destruct (fltb d fzero); [discriminate|].
  destruct b as [b|]; [|discriminate].
  destruct (fltb b fzero); [discriminate|].
  destruct (is_some (re_search RE_LETTERS (c_nome c))); [|discriminate].
  intros [= <-]. auto.
Qed.

(** What an accepted line guarantees of its record. *)
Lemma parse_line_accepts (ln : str) (p : produto) :
  parse_line ln = Ret (Some p) ->
  valid_record p /\ proper_name (nome p) /\ no_lixo ln /\ ln <> [].
Proof.
  intros H.
  assert (Hv : valid_record p).
  { destruct (parse_line_cases ln) as [E|(p' & E & Hv)]; rewrite E in H; [discriminate|].
    now injection H as <-. }
  unfold parse_line in H. destruct (extract ln) as [c|] eqn:E; [|discriminate].
  apply validate_inv in H. destruct H as (Hn & Hl).
  apply letters_found in Hl. rewrite <- Hn in Hl.
  unfold extract in E.
  destruct ln as [|x ln]; [discriminate|]. cbn [is_nil orb] in E.
  destruct (existsb _ lixo) eqn:Hx; [discriminate|].
  destruct (re_match patt _) as [m|]; [|discriminate].
  injection E as <-. cbn [c_nome] in Hn.
  repeat split; auto; try discriminate.
  - rewrite Hn. rewrite Hn in Hl.
    destruct (strip_spec (group (clean_line (x :: ln)) m G_NOME)) as [E|[E _]]; [|exact E].
    apply has_letters_nonempty in Hl. contradiction.
  - rewrite Hn. rewrite Hn in Hl.
    destruct (strip_spec (group (clean_line (x :: ln)) m G_NOME)) as [E|[_ E]]; [|exact E].
    apply has_letters_nonempty in Hl. contradiction.
Qed.

Lemma collect_Forall (P : produto -> Prop) (lines : list str) (ps : list produto) :
  (forall ln p, In ln lines -> parse_line ln = Ret (Some p) -> P p) ->
  collect lines = Ret ps -> Forall P ps.
Proof.
  revert ps. induction lines as [|ln lines IH]; intros ps HP.
  - intros [= <-]. constructor.
  - rewrite collect_cons.
    destruct (parse_line ln) as [r|e] eqn:E; [|discriminate]. cbn [bind].
    destruct (collect lines) as [rs|e] eqn:C; [|discriminate]. cbn [bind].
    assert (Hrs : Forall P rs).
    { apply IH; [|reflexivity]. intros l p Hl. apply HP. now right. }
    intros [= <-]. destruct r as [p|]; [|exact Hrs].
    constructor; [|exact Hrs]. apply (HP ln p); [now left | exact E].
Qed.

(** X18.  Every name in the output of [parse_lince_lines] holds at least
    three letters in a row and starts and ends with a character that is no
    white space. *)
Theorem X18_output_names_proper (text : str) :
  exists out,
    parse_lince_lines text = Ret out /\ Forall (fun p => proper_name (nome p)) out.
Proof.
  destruct (parse_lince_lines_run text) as (ps & Hps & _ & ->).
  exists (aggregate ps). split; [reflexivity|].
  assert (Hin : Forall (fun p => proper_name (nome p)) ps).
  { apply (collect_Forall _ (normalize_lines text)); [|exact Hps].
    intros ln p _ H. now apply parse_line_accepts in H. }
  rewrite Forall_forall in *. intros p Hp.
  assert (Hn : In (nome p) (map nome ps)).
  { apply group_keys_In. rewrite <- groupby_agg_names.
    apply (Permutation_in _ (Permutation_map nome (aggregate_perm ps))).
    now apply in_map. }
  apply in_map_iff in Hn. destruct Hn as (p' & <- & Hp'). now apply Hin.
Qed.

(** ** Lines in Brazilian format *)

Lemma br_token_num (groups : list str) (frac : str) :
  Forall (all is_digit) groups -> all is_digit frac -> all num_char (br_token groups frac).
Proof.
  intros Hg Hf. unfold br_token.
  assert (Hd : forall s, all is_digit s -> all num_char s).
  { intros s. apply all_weaken, digit_is_num_char. }
  apply Forall_app. split.
  - induction Hg as [|g gs Hg0 Hgs IH]; [constructor|].
    destruct gs as [|h gs]; [now apply Hd|].
    change (join [DOT] (g :: h :: gs)) with (g ++ [DOT] ++ join [DOT] (h :: gs)).
    apply Forall_app. split; [now apply Hd|]. constructor; [reflexivity | exact IH].
  - constructor; [reflexivity | now apply Hd].
Qed.

Lemma br_token_nonempty (groups : list str) (frac : str) : br_token groups frac <> [].
Proof. unfold br_token. intros H. apply app_eq_nil in H. destruct H as (_ & H). discriminate. Qed.

Lemma br_token_digit_tail (groups : list str) (frac : str) :
  all is_digit frac -> digit_tail (br_token groups frac) = length frac.
Proof.
  intros Hf. unfold digit_tail, br_token. rewrite !rev_app_distr. simpl rev.
  rewrite <- app_assoc. simpl app. rewrite span_stop by reflexivity.
  rewrite <- (app_nil_r (rev frac)), span_all.
  - simpl. apply length_rev.
  - unfold all in *. now apply Forall_rev.
  - exact I.
Qed.

Lemma digit_val_le9 (c : ascii) : is_digit c = true -> (digit_val c <=? 9)%Z = true.
Proof. by_cases_on_char c. Qed.

Lemma digits_val_lt (ds : str) :
  all is_digit ds -> (digits_val ds < 10 ^ Z.of_nat (length ds))%Z.
Proof.
  induction 1 as [|d ds Hd _ IH]; [reflexivity|].
  rewrite digits_val_cons. cbn [length]. rewrite Nat2Z.inj_succ, Z.pow_succ_r by lia.
  apply digit_val_le9, Z.leb_le in Hd.
  assert (0 < 10 ^ Z.of_nat (length ds))%Z by (apply Z.pow_pos_nonneg; lia).
  nia.
Qed.

(** A short numeral denotes zero or a number well inside the range of a
    double. *)
Lemma short_numeral_range (ip fp : str) :
  all is_digit ip -> all is_digit fp -> short_numeral ip fp ->
  double_range (decimal false (digits_val (ip ++ fp)) (- Z.of_nat (length fp))).
Proof.
  intros Hi Hf Hs. unfold short_numeral in Hs.
  assert (Hd : all is_digit (ip ++ fp)) by (apply Forall_app; now split).
  pose proof (digits_val_nonneg (ip ++ fp)) as H0.
  pose proof (digits_val_lt (ip ++ fp) Hd) as H1. rewrite length_app in H1.
  unfold double_range, decimal. rewrite Qred_correct.
  set (N := digits_val (ip ++ fp)) in *.
  assert (Hten : (1 <= 10 # 1)%Q) by discriminate.
  assert (Hpos : (0 < (10 # 1) ^ (- Z.of_nat (length fp)))%Q)
    by (apply Qpower_0_lt; reflexivity).
  destruct (Z.eq_dec N 0) as [->|Hnz]; [left; ring | right]. split.
  - apply Qle_trans with ((10 # 1) ^ (- Z.of_nat (length fp)))%Q.
    + apply Qpower_le_compat_l; [lia | exact Hten].
    + rewrite <- (Qmult_1_l ((10 # 1) ^ (- Z.of_nat (length fp)))) at 1.
      apply Qmult_le_compat_r; [|now apply Qlt_le_weak].
      change 1%Q with (inject_Z 1). rewrite <- Zle_Qle. lia.
  - apply Qlt_le_trans with ((10 # 1) ^ Z.of_nat (length ip))%Q.
    + assert (E : ((10 # 1) ^ Z.of_nat (length ip)
                   == inject_Z (10 ^ Z.of_nat (length ip + length fp))
                      * (10 # 1) ^ (- Z.of_nat (length fp)))%Q).
      { rewrite Zpower_Qpower by lia. change (inject_Z 10) with (10 # 1).
        rewrite <- Qpower_plus by discriminate.
        replace (Z.of_nat (length ip + length fp) + - Z.of_nat (length fp))%Z
          with (Z.of_nat (length ip)) by lia.
        reflexivity. }
      rewrite E. apply Qmult_lt_compat_r; [exact Hpos|].
      rewrite <- Zlt_Qlt. exact H1.
    + apply Qpower_le_compat_l; [lia | exact Hten].
Qed.

(** X17.  A line whose three numeric fields are in Brazilian format and of
    at most 300 digits each, with a unit price above 0 and at most three
    decimals in the value, and whose name is trimmed, holds three letters in
    a row and no line feed nor numeric token, yields the record of that name
    with the three numbers the fields denote, provided it holds no word of
    the denylist.  Each of the three numbers is zero or lies between 10^-300
    and 10^300, where [float] neither overflows nor underflows. *)
Theorem X17_br_line_record (name : str) (gp gq gv : list str) (fp fq fv : str) :
  proper_name name -> all dot_char name -> no_numeric_token name ->
  br_format gp fp -> br_format gq fq -> br_format gv fv ->
  short_numeral (concat gp) fp -> short_numeral (concat gq) fq ->
  short_numeral (concat gv) fv ->
  (0 < numeral_value (concat gp) fp)%Q ->
  length fv < 4 ->
  no_lixo (product_line name (br_token gp fp) (br_token gq fq) (br_token gv fv)) ->
  exists pu qt vl,
    parse_line (product_line name (br_token gp fp) (br_token gq fq) (br_token gv fv))
    = Ret (Some (Produto name (Fin pu) (Fin qt) (Fin vl))) /\
    (pu == numeral_value (concat gp) fp)%Q /\
    (qt == numeral_value (concat gq) fq)%Q /\
    (vl == numeral_value (concat gv) fv)%Q /\
    double_range pu /\ double_range qt /\ double_range vl.
Proof.
  intros (Hl & Sn & En) Hn Hnum Bp Bq Bv Sp Sq Sv Hpos Lv Hx.
  destruct (br_format_digits gp fp Bp) as (Gp & Fp & Np).
  destruct (br_format_digits gq fq Bq) as (Gq & Fq & Nq).
  destruct (br_format_digits gv fv Bv) as (Gv & Fv & Nv).
  assert (He : extract (product_line name (br_token gp fp) (br_token gq fq) (br_token gv fv))
               = Some (Candidate name (br_token gp fp) (br_token gq fq) (br_token gv fv))).
  { apply extract_of_clean; auto using br_token_num, br_token_nonempty.
    - unfold product_line. destruct name; [destruct Sn | discriminate].
    - apply clean_product_line; auto using br_token_num, br_token_nonempty.
      now rewrite br_token_digit_tail. }
  unfold parse_line. rewrite He. unfold validate. cbn [c_preco c_qtd c_valor c_nome].
  rewrite (br_to_float_groups gp fp Gp Fp Np), (br_to_float_groups gq fq Gq Fq Nq),
    (br_to_float_groups gv fv Gv Fv Nv).
  cbn [bind].
  pose proof (decimal_numeral (concat gp) fp (concat_digits gp Gp) Fp) as Dp.
  pose proof (decimal_numeral (concat gq) fq (concat_digits gq Gq) Fq) as Dq.
  pose proof (decimal_numeral (concat gv) fv (concat_digits gv Gv) Fv) as Dv.
  pose proof (short_numeral_range (concat gp) fp (concat_digits gp Gp) Fp Sp) as Rp.
  pose proof (short_numeral_range (concat gq) fq (concat_digits gq Gq) Fq Sq) as Rq.
  pose proof (short_numeral_range (concat gv) fv (concat_digits gv Gv) Fv Sv) as Rv.
  set (pu := decimal false (digits_val (concat gp ++ fp)) (- Z.of_nat (length fp))) in *.
  set (qt := decimal false (digits_val (concat gq ++ fq)) (- Z.of_nat (length fq))) in *.
  set (vl := decimal false (digits_val (concat gv ++ fv)) (- Z.of_nat (length fv))) in *.
  assert (Hqt : (0 <= qt)%Q) by apply decimal_nonneg, digits_val_nonneg.
  assert (Hvl : (0 <= vl)%Q) by apply decimal_nonneg, digits_val_nonneg.
  assert (E1 : fleb (Fin pu) fzero = false).
  { simpl. destruct (Qle_bool pu 0) eqn:E; [|reflexivity].
    apply Qle_bool_iff in E. rewrite Dp in E. exfalso. apply (Qlt_not_le _ _ Hpos E). }
  assert (E2 : fltb (Fin vl) fzero = false).
  { simpl. apply negb_false_iff. now apply Qle_bool_iff. }
  assert (E3 : fltb (Fin qt) fzero = false).
  { simpl. apply negb_false_iff. now apply Qle_bool_iff. }
  apply letters_found in Hl.
  rewrite E1, E2, E3, Hl. cbn [negb].
  exists pu, qt, vl. repeat split; auto.
Qed.

(** "QUEIJO MINAS 1.234,50 2,000 2.469,00" *)
Lemma X17_br_line_record_witness :
  exists pu qt vl,
    parse_line (lit "QUEIJO MINAS 1.234,50 2,000 2.469,00")
    = Ret (Some (Produto (lit "QUEIJO MINAS") (Fin pu) (Fin qt) (Fin vl))) /\
    (pu == 123450 # 100)%Q /\ (qt == 2)%Q /\ (vl == 2469)%Q.
Proof.
  destruct (X17_br_line_record (lit "QUEIJO MINAS")
              [lit "1"; lit "234"] [lit "2"] [lit "2"; lit "469"]
              (lit "50") (lit "000") (lit "00"))
    as (pu & qt & vl & E & Hp & Hq & Hv & _).
  - split; [|split].
    + exists [], (lit "QUEIJO"), (lit " MINAS"). split; [reflexivity|].
      split; [all_chars | simpl; lia].
    + reflexivity.
    + exists (lit "QUEIJO MINA"), (chr 83). split; reflexivity.
  - all_chars.
  - reflexivity.
  - split; [|split; [all_chars | discriminate]].
    split; [all_chars|]. split; [simpl; lia|]. all_chars.
  - split; [|split; [all_chars | discriminate]].
    split; [all_chars|]. split; [simpl; lia|]. all_chars.
  - split; [|split; [all_chars | discriminate]].
    split; [all_chars|]. split; [simpl; lia|]. all_chars.
  - unfold short_numeral. simpl. lia.
  - unfold short_numeral. simpl. lia.
  - unfold short_numeral. simpl. lia.
  - vm_compute. reflexivity.
  - simpl. lia.
  - reflexivity.
  - exists pu, qt, vl. split; [exact E|].
    split; [rewrite Hp; vm_compute; reflexivity|].
    split; [rewrite Hq; vm_compute; reflexivity|].
    rewrite Hv. vm_compute. reflexivity.
Defined.

(** ** Signs of the aggregated columns *)

Lemma Qsum_nonneg (l : list Q) : Forall (fun q => 0 <= q)%Q l -> (0 <= Qsum l)%Q.
Proof.
  induction 1; simpl; [apply Qle_refl|].
  change 0%Q with (0 + 0)%Q at 1. now apply Qplus_le_compat.
Qed.

Lemma Qsum_pos (l : list Q) : l <> [] -> Forall (fun q => 0 < q)%Q l -> (0 < Qsum l)%Q.
Proof.
  intros Hne H. destruct H as [|a l Ha Hl]; [congruence|]. simpl.
  assert (0 <= Qsum l)%Q.
  { apply Qsum_nonneg. eapply Forall_impl; [|exact Hl]. intros q. apply Qlt_le_weak. }
  apply Qlt_le_trans with (a + 0)%Q; [now rewrite Qplus_0_r|].
  apply Qplus_le_compat; [apply Qle_refl | assumption].
Qed.

Lemma Qred_twice (q : Q) : Qred (Qred q) = Qred q.
Proof. apply Qred_complete, Qred_correct. Qed.

Lemma fold_fadd_canonical (l : list pyfloat) :
  Forall is_fin l -> forall acc, Qred acc = acc ->
  exists q, fold_left fadd l (Fin acc) = Fin q /\ Qred q = q.
Proof.
  induction 1 as [|x l [a ->] Hl IH]; intros acc Hacc.
  - exists acc. auto.
  - change (fold_left fadd (Fin a :: l) (Fin acc))
      with (fold_left fadd l (Fin (Qred (acc + a)))).
    apply IH. apply Qred_twice.
Qed.

Lemma fsum_canonical (l : list pyfloat) :
  Forall is_fin l -> exists q, fsum l = Fin q /\ Qred q = q.
Proof.
  intros H. unfold fsum. rewrite (skipna_fin l H).
  apply (fold_fadd_canonical l H 0%Q). reflexivity.
Qed.

Lemma fmean_canonical (l : list pyfloat) :
  Forall is_fin l -> l <> [] -> exists q, fmean l = Fin q /\ Qred q = q.
Proof.
  intros H Hne. unfold fmean. rewrite (skipna_fin l H).
  destruct l as [|x l]; [congruence|]. unfold fzero. cbv beta iota.
  destruct (fold_fadd_canonical (x :: l) H 0%Q eq_refl) as (q & -> & _).
  eexists. split; [reflexivity|]. apply Qred_twice.
Qed.

Lemma Forall_map_qval (f : produto -> pyfloat) (P : Q -> Prop) (rows : DataFrame) :
  Forall (fun p => P (qval (f p))) rows -> Forall P (map qval (map f rows)).
Proof. induction 1; simpl; constructor; auto. Qed.

(** The record of a group of valid records is valid. *)
Lemma agg_group_valid (df : DataFrame) (k : str) :
  Forall valid_record df -> In k (map nome df) -> valid_record (agg_group df k).
Proof.
  intros Hv Hk.
  destruct (agg_group_fin df k Hv Hk) as (pu & qt & vl & E & Hpu & Hqt & Hvl).
  pose proof (group_rows_valid df k Hv) as Hr.
  pose proof (group_rows_nonempty df k Hk) as Hne.
  assert (Cpu : Qred pu = pu /\ Qred qt = qt /\ Qred vl = vl).
  { unfold agg_group in E.
    destruct (fmean_canonical (map preco_unit (group_rows df k))) as (a & Ea & Ca).
    { apply Forall_map_fin; [|exact Hr]. intros p Hp. now apply valid_record_fin. }
    { intros H. apply map_eq_nil in H. contradiction. }
    destruct (fsum_canonical (map quantidade (group_rows df k))) as (b & Eb & Cb).
    { apply Forall_map_fin; [|exact Hr]. intros p Hp. now apply valid_record_fin. }
    destruct (fsum_canonical (map valor (group_rows df k))) as (c & Ec & Cc).
    { apply Forall_map_fin; [|exact Hr]. intros p Hp. now apply valid_record_fin. }
    rewrite Ea, Eb, Ec in E. injection E as <- <- <-. auto. }
  destruct Cpu as (Cpu & Cqt & Cvl).
  exists pu, qt, vl. rewrite E. simpl. repeat split; auto.
  - rewrite Hpu. apply Qlt_shift_div_l.
    + change 0%Q with (inject_Z 0). rewrite <- Zlt_Qlt.
      destruct (group_rows df k); [congruence | simpl; lia].
    + rewrite Qmult_0_l. apply Qsum_pos.
      * intros H. apply map_eq_nil in H. apply map_eq_nil in H. contradiction.
      * apply Forall_map_qval. eapply Forall_impl; [|exact Hr].
        intros p (a & b & c & -> & _ & _ & Ha & _). exact Ha.
  - rewrite Hqt. apply Qsum_nonneg. apply Forall_map_qval.
    eapply Forall_impl; [|exact Hr].
    intros p (a & b & c & _ & -> & _ & _ & Hb & _). exact Hb.
  - rewrite Hvl. apply Qsum_nonneg. apply Forall_map_qval.
    eapply Forall_impl; [|exact Hr].
    intros p (a & b & c & _ & _ & -> & _ & _ & Hc & _). exact Hc.
Qed.

Lemma groupby_agg_valid (df : DataFrame) :
  Forall valid_record df -> Forall valid_record (groupby_agg df).
Proof.
  intros Hv. unfold groupby_agg. apply Forall_forall. intros p Hp.
  apply in_map_iff in Hp. destruct Hp as (k & <- & Hk).
  apply agg_group_valid; [exact Hv|]. now apply group_keys_In.
Qed.

Lemma aggregate_valid (df : DataFrame) :
  Forall valid_record df -> Forall valid_record (aggregate df).
Proof.
  intros Hv. apply Forall_forall. intros p Hp.
  apply (Permutation_in _ (aggregate_perm df)) in Hp.
  pose proof (groupby_agg_valid df Hv) as H.
  rewrite Forall_forall in H. now apply H.
Qed.

Lemma unique_length (l : list str) : length (unique l) <= length l.
Proof. induction l as [|x l IH]; simpl; [lia|]. destruct (mem_str x l); simpl; lia. Qed.

Lemma aggregate_length (df : DataFrame) : length (aggregate df) <= length df.
Proof.
  rewrite (Permutation_length (aggregate_perm df)). unfold groupby_agg, group_keys.
  rewrite length_map, (Permutation_length (stable_sort_perm _ _)).
  etransitivity; [apply unique_length|]. now rewrite length_map.
Qed.

Lemma aggregate_names (df : DataFrame) (k : str) :
  In k (map nome (aggregate df)) <-> In k (map nome df).
Proof.
  rewrite <- (group_keys_In df k), <- (groupby_agg_names df).
  split; apply Permutation_in, Permutation_map;
    [|symmetry]; apply aggregate_perm.
Qed.

Lemma agg_group_single (df : DataFrame) (p : produto) :
  valid_record p -> group_rows df (nome p) = [p] -> agg_group df (nome p) = p.
Proof.
  intros (a & b & c & Ea & Eb & Ec & _ & _ & _ & Ca & Cb & Cc) Hg.
  unfold agg_group. rewrite Hg. destruct p as [n pu qt vl].
  cbn [nome preco_unit quantidade valor map] in *. subst.
  change (fmean [Fin a]) with (Fin (Qred (Qred (0 + a) / 1))).
  change (fsum [Fin b]) with (Fin (Qred (0 + b))).
  change (fsum [Fin c]) with (Fin (Qred (0 + c))).
  f_equal; f_equal.
  - rewrite <- Ca at 2. apply Qred_complete. rewrite Qred_correct. field.
  - rewrite <- Cb at 2. apply Qred_complete. ring.
  - rewrite <- Cc at 2. apply Qred_complete. ring.
Qed.

Lemma valid_passes_filters (p : produto) : valid_record p -> passes_filters p.
Proof.
  intros (a & b & c & Ea & Eb & Ec & Ha & Hb & Hc & _). unfold passes_filters.
  rewrite Ea, Eb, Ec. simpl.
  apply Qle_bool_iff in Hb, Hc. rewrite Hb, Hc.
  destruct (Qle_bool a 0) eqn:E; [|auto].
  apply Qle_bool_iff in E. exfalso. apply (Qlt_not_le _ _ Ha E).
Qed.

(** X19.  Every record that [parse_lince_lines] returns has a unit price
    above 0 and a quantity and a value that are not below 0, as Python
    compares floats (so none of the three is NaN): the sanity filters of the
    loop hold of the aggregated table too. *)
Theorem X19_output_records_valid (text : str) :
  exists out, parse_lince_lines text = Ret out /\ Forall passes_filters out.
Proof.
  destruct (parse_lince_lines_run text) as (ps & _ & Hv & ->).
  exists (aggregate ps). split; [reflexivity|].
  eapply Forall_impl; [apply valid_passes_filters | now apply aggregate_valid].
Qed.

(** X20.  The names of the output are exactly the names of the records
    the loop accepted, none lost and none invented; the output has no more
    rows than records were accepted, and it is empty exactly when no line
    was accepted. *)
Theorem X20_output_names (text : str) :
  exists produtos out,
    collect (normalize_lines text) = Ret produtos /\
    parse_lince_lines text = Ret out /\
    (forall k, In k (map nome out) <-> In k (map nome produtos)) /\
    length out <= length produtos /\
    (out = [] <-> produtos = []).
Proof.
  destruct (parse_lince_lines_run text) as (ps & Hps & _ & ->).
  exists ps, (aggregate ps). repeat split; auto.
  - apply aggregate_names.
  - apply aggregate_names.
  - apply aggregate_length.
  - intros E. destruct ps as [|p ps]; [reflexivity|].
    assert (H : In (nome p) (map nome (aggregate (p :: ps)))).
    { apply aggregate_names. now left. }
    rewrite E in H. destruct H.
  - intros ->. reflexivity.
Qed.

(** X22.  A product named on one accepted line only comes out as it went
    in: same name, unit price, quantity and value. *)
Theorem X22_single_line_unchanged (text : str) :
  exists produtos out,
    collect (normalize_lines text) = Ret produtos /\
    parse_lince_lines text = Ret out /\
    forall p, group_rows produtos (nome p) = [p] -> group_rows out (nome p) = [p].
Proof.
  destruct (parse_lince_lines_run text) as (ps & Hps & Hv & ->).
  exists ps, (aggregate ps). repeat split; auto.
  intros p Hg.
  assert (Hin : In p ps).
  { assert (H : In p (group_rows ps (nome p))) by (rewrite Hg; now left).
    apply filter_In in H. tauto. }
  rewrite aggregate_group by now apply in_map.
  rewrite agg_group_single; auto.
  rewrite Forall_forall in Hv. now apply Hv.
Qed.

(** "FEIJAO" stands on one line of the example text. *)
Lemma X22_single_line_unchanged_witness :
  exists out,
    parse_lince_lines text_two_lines = Ret out /\
    group_rows out (lit "FEIJAO") = [Produto (lit "FEIJAO") (Fin 8) (Fin 1) (Fin 8)].
Proof.
  destruct (X22_single_line_unchanged text_two_lines) as (ps & out & Hps & Hout & H).
  exists out. split; [exact Hout|].
  vm_compute in Hps. injection Hps as <-.
  apply (H (Produto (lit "FEIJAO") (Fin 8) (Fin 1) (Fin 8))). reflexivity.
Defined.

(** ** Lines of the denylist *)

Lemma contains_infix (k pre post : str) : contains k (pre ++ k ++ post) = true.
Proof. apply contains_suffix, startswith_spec. now exists post. Qed.

(** X10.  A line that holds one of the words of the denylist anywhere, a
    well-formed product line included, yields no record and leaves no trace
    in the records of the text. *)
Theorem X10_denylist_line_skipped (k pre post : str) :
  In k lixo ->
  extract (pre ++ k ++ post) = None /\
  parse_line (pre ++ k ++ post) = Ret None /\
  forall before after,
    collect (before ++ (pre ++ k ++ post) :: after) = collect (before ++ after).
Proof.
  intros Hk.
  assert (He : extract (pre ++ k ++ post) = None).
  { unfold extract.
    assert (Hx : existsb (fun w => contains w (pre ++ k ++ post)) lixo = true).
    { apply existsb_exists. exists k. split; [exact Hk | apply contains_infix]. }
    rewrite Hx, orb_true_r. reflexivity. }
  assert (Hl : parse_line (pre ++ k ++ post) = Ret None).
  { unfold parse_line. now rewrite He. }
  repeat split; auto. intros before after. now apply collect_skip.
Qed.

(** A product whose name holds "CST". *)
Lemma X10_denylist_line_skipped_witness :
  parse_line (lit "BISCOITO CST 10,00 1,000 10,00") = Ret None /\
  parse_line (lit "BISCOITO CET 10,00 1,000 10,00")
  = Ret (Some (Produto (lit "BISCOITO CET") (Fin 10) (Fin 1) (Fin 10))).
Proof.
  split; [|vm_compute; reflexivity].
  apply (X10_denylist_line_skipped (lit "CST") (lit "BISCOITO ") (lit " 10,00 1,000 10,00")).
  simpl. tauto.
Defined.

(** ** Normalised lines *)

Lemma splitlines_aux_no_break (s : str) :
  forall cur f, none is_linebreak cur ->
    Forall (none is_linebreak) (splitlines_aux cur f s).
Proof.
  induction s as [|c s IH]; intros cur f Hcur; simpl.
  - destruct cur; constructor; [|constructor]. unfold none in *. now apply Forall_rev.
  - destruct (f && ascii_eqb c LF)%bool; [now apply IH|].
    destruct (is_linebreak c) eqn:E.
    + constructor; [unfold none in *; now apply Forall_rev | apply IH; constructor].
    + apply IH. now constructor.
Qed.

Lemma sub_loop_Forall (P : ascii -> Prop) r repl (l : str) :
  Forall P repl -> Forall P l ->
  forall pv ps skip, Forall P (sub_loop r repl pv ps skip l).
Proof.
  intros Hrepl. induction 1 as [|c l Hc Hl IH]; intros pv ps skip.
  - destruct skip; simpl; [|constructor].
    destruct (match_here r pv ps []); [|constructor].
    apply Forall_app. split; [exact Hrepl|]. destruct (m_end m - ps); constructor.
  - destruct skip; simpl; [|apply IH].
    destruct (match_here r pv ps (c :: l)).
    + apply Forall_app. split; [exact Hrepl|].
      destruct (m_end m - ps); [constructor; [exact Hc|]|]; apply IH.
    + constructor; [exact Hc | apply IH].
Qed.

Lemma strip_by_Forall (P : ascii -> Prop) (p : ascii -> bool) (s : str) :
  Forall P s -> Forall P (strip_by p s).
Proof.
  intros H. unfold strip_by, lstrip_by.
  destruct (dropwhile_decomp p s) as (w & _ & E).
  destruct (rstrip_decomp p (dropwhile p s)) as (w' & _ & E').
  rewrite E in H. apply Forall_app in H. destruct H as (_ & H).
  rewrite E' in H. apply Forall_app in H. tauto.
Qed.

Lemma linebreak_is_space (c : ascii) : is_linebreak c = true -> is_space c = true.
Proof. by_cases_on_char c. Qed.

(** Skipping the characters of a match. *)
Lemma sub_loop_skip r repl (a tl : str) :
  forall pv ps,
    sub_loop r repl pv ps (length a) (a ++ tl)
    = sub_loop r repl (last_or pv a) (ps + length a) 0 tl.
Proof.
  induction a as [|c a IH]; intros pv ps.
  - simpl. now rewrite Nat.add_0_r.
  - simpl length. cbn [app sub_loop]. rewrite IH, last_or_cons. f_equal. lia.
Qed.

Lemma span_decomp (p : ascii -> bool) (s : str) :
  s = fst (span p s) ++ snd (span p s) /\ all p (fst (span p s)) /\
  match snd (span p s) with [] => True | c :: _ => p c = false end.
Proof.
  induction s as [|c s (E & Ha & Hb)]; simpl.
  - repeat split. constructor.
  - destruct (p c) eqn:Pc.
    + destruct (span p s) as [a b]. simpl in *. repeat split; auto.
      * now rewrite E at 1.
      * now constructor.
    + simpl. repeat split; [constructor | exact Pc].
Qed.

(** Where [\s{2,}] matches: at two white-space characters, over the whole
    run. *)
Lemma RE_SPACES_hit pv ps (c1 c2 : ascii) (l : str) :
  is_space c1 = true -> is_space c2 = true ->
  exists run tl m,
    c1 :: c2 :: l = c1 :: run ++ tl /\
    match tl with [] => True | c :: _ => is_space c = false end /\
    match_here RE_SPACES pv ps (c1 :: c2 :: l) = Some m /\
    m_end m - ps = S (length run).
Proof.
  intros H1 H2.
  destruct (span_decomp is_space l) as (E & Ha & Hb).
  set (a := fst (span is_space l)) in *. set (tl := snd (span is_space l)) in *.
  exists (c2 :: a), tl.
  assert (Hrun : all is_space (c1 :: c2 :: a)) by (repeat constructor; assumption).
  unfold match_here, RE_SPACES. cbn [rmatch prev pos rest caps].
  replace (c1 :: c2 :: l) with ((c1 :: c2 :: a) ++ tl) by (simpl; now rewrite <- E).
  rewrite (rep_loop_greedy_all 2 None is_space (c1 :: c2 :: a) tl 0 pv ps []
             (fun st => Some st)
             (MState (last_or pv (c1 :: c2 :: a)) (ps + length (c1 :: c2 :: a)) tl [])
             Hrun Hb); [| simpl; lia | exact I | reflexivity].
  eexists. split; [reflexivity|]. split; [exact Hb|]. split; [reflexivity|].
  cbn [m_end pos]. simpl length. lia.
Qed.

Lemma RE_SPACES_miss pv ps (l : str) :
  match l with c1 :: c2 :: _ => (is_space c1 && is_space c2)%bool | _ => false end = false ->
  match_here RE_SPACES pv ps l = None.
Proof.
  intros H. unfold match_here, RE_SPACES. cbn [rmatch prev pos rest caps].
  destruct (rep_loop _ _ _ _ _ _ _ _ _ _) eqn:E; [exfalso | reflexivity].
  apply rep_loop_inv in E. destruct E as (a & tl & -> & Ha & La & _).
  destruct a as [|c1 [|c2 a]]; simpl in La; try lia.
  inversion Ha as [|? ? H1 Ha']; subst. inversion Ha' as [|? ? H2 _]; subst.
  simpl in H. rewrite H1, H2 in H. discriminate.
Qed.

Lemma single_spaced_cons (c d : ascii) (s : str) :
  single_spaced (c :: d :: s) = (negb (is_space c && is_space d) && single_spaced (d :: s))%bool.
Proof. reflexivity. Qed.

(** After the substitution no two white-space characters are next to each
    other, and the result starts with white space only if the subject
    does. *)
Lemma sub_spaces_single (n : nat) :
  forall l pv ps, length l <= n ->
    single_spaced (sub_loop RE_SPACES [SP] pv ps 0 l) = true /\
    head_space (sub_loop RE_SPACES [SP] pv ps 0 l) = head_space l.
Proof.
  induction n as [|n IH]; intros l pv ps Hl.
  - destruct l; [|simpl in Hl; lia]. rewrite sub_loop_zero.
    rewrite RE_SPACES_miss by reflexivity. auto.
  - destruct l as [|c1 l]; rewrite sub_loop_zero.
    { rewrite RE_SPACES_miss by reflexivity. auto. }
    destruct (match l with c2 :: _ => (is_space c1 && is_space c2)%bool | [] => false end)
      eqn:Hd.
    + destruct l as [|c2 l]; [discriminate|].
      apply andb_true_iff in Hd. destruct Hd as (H1 & H2).
      destruct (RE_SPACES_hit pv ps c1 c2 l H1 H2) as (run & tl & m & E & Htl & Hm & He).
      rewrite Hm, He. injection E as E. rewrite E, sub_loop_skip.
      destruct (IH tl (last_or (Some c1) run) (S ps + length run)) as (Hs & Hh).
      { apply (f_equal (@length ascii)) in E. rewrite length_app in E.
        simpl in Hl, E. lia. }
      cbn [app]. split; [|simpl; now rewrite H1].
      assert (Hhead : head_space tl = false).
      { destruct tl; [reflexivity | exact Htl]. }
      rewrite Hhead in Hh.
      destruct (sub_loop RE_SPACES [SP] _ _ 0 tl) as [|d out] eqn:Eo; [reflexivity|].
      simpl in Hh. rewrite single_spaced_cons, Hh, andb_false_r. exact Hs.
    + rewrite RE_SPACES_miss by (destruct l; [reflexivity | exact Hd]).
      destruct (IH l (Some c1) (S ps)) as (Hs & Hh); [simpl in Hl; lia|].
      split; [|reflexivity].
      destruct (sub_loop RE_SPACES [SP] (Some c1) (S ps) 0 l) as [|d out] eqn:Eo; [reflexivity|].
      rewrite single_spaced_cons, Hs, andb_true_r.
      simpl in Hh. destruct l as [|c2 l]; [discriminate|]. simpl in Hh.
      rewrite Hh. now rewrite Hd.
Qed.

Lemma single_spaced_tail (c : ascii) (s : str) :
  single_spaced (c :: s) = true -> single_spaced s = true.
Proof.
  destruct s as [|d s]; [reflexivity|]. rewrite single_spaced_cons.
  intros H. apply andb_true_iff in H. tauto.
Qed.

Lemma single_spaced_suffix (w s : str) : single_spaced (w ++ s) = true -> single_spaced s = true.
Proof.
  induction w as [|c w IH]; [auto|]. intros H. apply IH.
  now apply (single_spaced_tail c).
Qed.

Lemma single_spaced_prefix (s w : str) : single_spaced (s ++ w) = true -> single_spaced s = true.
Proof.
  induction s as [|c s IH]; [reflexivity|]. intros H.
  pose proof (single_spaced_tail _ _ H) as Ht. specialize (IH Ht).
  destruct s as [|d s]; [reflexivity|]. cbn [app] in *.
  rewrite single_spaced_cons in *.
  apply andb_true_iff in H. destruct H as (H & _). now rewrite H, IH.
Qed.

Lemma strip_single_spaced (s : str) : single_spaced s = true -> single_spaced (strip s) = true.
Proof.
  intros H. unfold strip, strip_by, lstrip_by.
  destruct (dropwhile_decomp is_space s) as (w & _ & E).
  destruct (rstrip_decomp is_space (dropwhile is_space s)) as (w' & _ & E').
  rewrite E in H. apply single_spaced_suffix in H.
  rewrite E' in H. now apply single_spaced_prefix in H.
Qed.

(** What every normalised line is. *)
Lemma normalize_lines_spec (text ln : str) :
  In ln (normalize_lines text) ->
  none is_linebreak ln /\ single_spaced ln = true /\ trimmed ln.
Proof.
  intros H. unfold normalize_lines in H. apply in_map_iff in H.
  destruct H as (raw & <- & Hraw).
  pose proof (splitlines_aux_no_break text [] false ltac:(constructor)) as Hb.
  fold (splitlines text) in Hb. rewrite Forall_forall in Hb. specialize (Hb raw Hraw).
  unfold normalize_line. repeat split.
  - apply strip_by_Forall. apply sub_loop_Forall; [repeat constructor | exact Hb].
  - apply strip_single_spaced. now apply (sub_spaces_single (length raw)).
  - destruct (strip_spec (re_sub RE_SPACES (lit " ") raw)) as [E|E]; [now left | now right].
Qed.

(** X9.  Every line the loop of [parse_lince_lines] works on holds no
    line boundary, has no two white-space characters next to each other,
    and is empty or starts and ends with a character that is no white
    space. *)
Theorem X9_lines_normalised (text : str) :
  Forall (fun ln => none is_linebreak ln /\ single_spaced ln = true /\ trimmed ln)
         (normalize_lines text).
Proof. apply Forall_forall. intros ln. apply normalize_lines_spec. Qed.

(** ** What the cleaning of a line removes *)

(** When every match runs to the end of the subject, the substitution
    keeps a prefix and removes one match at most. *)
Lemma sub_loop_suffix r (Q : str -> Prop) (l : str) :
  (forall pv ps, match_here r pv ps [] = None) ->
  forall pv ps,
    (forall x1 x2 m, l = x1 ++ x2 ->
       match_here r (last_or pv x1) (ps + length x1) x2 = Some m ->
       m_end m = ps + length x1 + length x2 /\ Q x2) ->
    exists y1 y2, l = y1 ++ y2 /\ sub_loop r [] pv ps 0 l = y1 /\ (y2 = [] \/ Q y2).
Proof.
  intros Hnil. induction l as [|c l IH]; intros pv ps H; rewrite sub_loop_zero.
  - rewrite Hnil. exists [], []. auto.
  - destruct (match_here r pv ps (c :: l)) as [m|] eqn:Hm.
    + destruct (H [] (c :: l) m eq_refl) as (He & HQ).
      { simpl. now rewrite Nat.add_0_r. }
      simpl in He. rewrite He.
      replace (ps + 0 + S (length l) - ps) with (S (length l)) by lia.
      cbv beta iota. rewrite sub_loop_skip_all by exact Hnil.
      exists [], (c :: l). auto.
    + destruct (IH (Some c) (S ps)) as (y1 & y2 & E & Hs & HQ).
      { intros x1 x2 m E Hx. destruct (H (c :: x1) x2 m) as (He & HQ).
        - now rewrite E.
        - rewrite last_or_cons. simpl length. now rewrite Nat.add_succ_r.
        - split; [simpl in He; lia | exact HQ]. }
      exists (c :: y1), y2. split; [now rewrite E|]. split; [|exact HQ].
      cbv beta iota. now rewrite Hs.
Qed.

Lemma not_linebreak_LF (s : str) : none is_linebreak s -> ~ In LF s.
Proof.
  intros H Hin. unfold none in H. rewrite Forall_forall in H.
  specialize (H LF Hin). discriminate.
Qed.

Lemma sub_EAN_prefix (l : str) :
  none is_linebreak l ->
  exists y1 y2, l = y1 ++ y2 /\ re_sub RE_EAN [] l = y1 /\ all digit_or_space y2.
Proof.
  intros Hl. unfold re_sub.
  destruct (sub_loop_suffix RE_EAN (all digit_or_space) l RE_EAN_no_empty None 0)
    as (y1 & y2 & E & Hs & HQ).
  - intros x1 x2 m E Hm. apply RE_EAN_inv in Hm.
    destruct Hm as (a & tl & -> & Ha & _ & Ht & He).
    assert (tl = []).
    { destruct Ht as [->| ->]; [reflexivity|]. exfalso.
      apply (not_linebreak_LF l Hl). rewrite E. apply in_or_app. right.
      apply in_or_app. right. now left. }
    subst tl. rewrite app_nil_r. split; [exact He|].
    eapply all_weaken; [|exact Ha]. intros c Hc. unfold digit_or_space. now rewrite Hc.
  - exists y1, y2. repeat split; auto. destruct HQ as [->|HQ]; [constructor | exact HQ].
Qed.

Lemma sub_CODE_prefix (l : str) :
  none is_linebreak l ->
  exists y1 y2, l = y1 ++ y2 /\ re_sub RE_CODE [] l = y1 /\ all digit_or_space y2.
Proof.
  intros Hl. unfold re_sub.
  destruct (sub_loop_suffix RE_CODE (all digit_or_space) l RE_CODE_no_empty None 0)
    as (y1 & y2 & E & Hs & HQ).
  - intros x1 x2 m E Hm. apply RE_CODE_inv in Hm.
    destruct Hm as (a & w & tl & -> & Ha & _ & Hw & Ht & He).
    assert (tl = []).
    { destruct Ht as [->| ->]; [reflexivity|]. exfalso.
      apply (not_linebreak_LF l Hl). rewrite E. apply in_or_app. right.
      apply in_or_app. right. apply in_or_app. right. now left. }
    subst tl. rewrite app_nil_r, length_app. split; [lia|].
    apply Forall_app. split.
    + eapply all_weaken; [|exact Ha]. intros c Hc. unfold digit_or_space. now rewrite Hc.
    + eapply all_weaken; [|exact Hw]. intros c Hc. unfold digit_or_space.
      now rewrite Hc, orb_true_r.
  - exists y1, y2. repeat split; auto. destruct HQ as [->|HQ]; [constructor | exact HQ].
Qed.

(** Stripping a prefix of a trimmed line removes white space at its end
    only. *)
Lemma strip_prefix (y1 y2 : str) :
  y1 ++ y2 = [] \/ starts_nonspace (y1 ++ y2) ->
  exists w, y1 = strip y1 ++ w /\ all is_space w.
Proof.
  intros H.
  assert (Hl : lstrip_by is_space y1 = y1).
  { destruct y1 as [|c y1]; [reflexivity|]. apply lstrip_starts.
    destruct H as [H|H]; [discriminate | exact H]. }
  unfold strip, strip_by. rewrite Hl.
  destruct (rstrip_decomp is_space y1) as (w & Hw & E). exists w. auto.
Qed.

Lemma space_is_digit_or_space (w : str) : all is_space w -> all digit_or_space w.
Proof. apply all_weaken. intros c Hc. unfold digit_or_space. now rewrite Hc, orb_true_r. Qed.

Lemma trimmed_prefix (y1 r : str) :
  y1 ++ r = [] \/ starts_nonspace (y1 ++ r) -> y1 = [] \/ starts_nonspace y1.
Proof. destruct y1; [now left | intros [H|H]; [discriminate | now right]]. Qed.

(** The cleaning keeps a prefix of the line and removes digits and white
    space only. *)
Lemma clean_line_prefix (ln : str) :
  none is_linebreak ln -> ln = [] \/ starts_nonspace ln ->
  exists removed, ln = clean_line ln ++ removed /\ all digit_or_space removed.
Proof.
  intros Hb Hs. unfold clean_line.
  destruct (sub_EAN_prefix ln Hb) as (y1 & y2 & E & -> & H2).
  rewrite E in Hs. destruct (strip_prefix y1 y2 Hs) as (w & Ew & Hw).
  set (c1 := strip y1) in *.
  assert (E1 : ln = c1 ++ (w ++ y2)) by (now rewrite app_assoc, <- Ew).
  assert (Hb1 : none is_linebreak c1).
  { rewrite E1 in Hb. unfold none in *. apply Forall_app in Hb. tauto. }
  assert (Hs1 : c1 = [] \/ starts_nonspace c1).
  { apply (trimmed_prefix c1 (w ++ y2)). rewrite <- E1, E. exact Hs. }
  destruct (sub_CODE_prefix c1 Hb1) as (z1 & z2 & Ez & -> & Hz).
  rewrite Ez in Hs1. destruct (strip_prefix z1 z2 Hs1) as (w' & Ew' & Hw').
  exists (w' ++ z2 ++ w ++ y2). split.
  - rewrite E1, Ez. rewrite Ew' at 1. now rewrite <- !app_assoc.
  - repeat (apply Forall_app; split); auto; now apply space_is_digit_or_space.
Qed.

(** X11.  On every line the loop works on, removing the trailing EAN and
    internal code takes digits and white space off the end of the line and
    nothing else: the cleaned line is a prefix of the line, and what is
    removed holds no letter. *)
Theorem X11_cleaning_removes_digits_only (text : str) :
  Forall (fun ln => exists removed,
                      ln = clean_line ln ++ removed /\ all digit_or_space removed)
         (normalize_lines text).
Proof.
  apply Forall_forall. intros ln Hln.
  destruct (normalize_lines_spec text ln Hln) as (Hb & _ & Ht).
  apply clean_line_prefix; [exact Hb|]. destruct Ht as [->|[Hs _]]; auto.
Qed.

(** ** The text of the pages *)

Lemma all_text_acc (pages : list (option str)) (acc : str) :
  fold_left (fun a page => (a ++ page_text page) ++ [LF]) pages acc
  = acc ++ all_text pages.
Proof.
  unfold all_text. revert acc. induction pages as [|p pages IH]; intros acc; simpl.
  - now rewrite app_nil_r.
  - rewrite IH, (IH (page_text p ++ [LF])). now rewrite <- !app_assoc.
Qed.

Lemma all_text_cons (p : option str) (pages : list (option str)) :
  all_text (p :: pages) = page_text p ++ LF :: all_text pages.
Proof.
  unfold all_text at 1. simpl. rewrite all_text_acc. now rewrite <- app_assoc.
Qed.

(** A line feed ends the line: what follows is split on its own. *)
Lemma splitlines_aux_LF (a b : str) :
  forall cur f, (f = true -> cur = []) ->
    splitlines_aux cur f (a ++ LF :: b)
    = splitlines_aux cur f (a ++ [LF]) ++ splitlines b.
Proof.
  induction a as [|c a IH]; intros cur f Hf.
  - simpl. destruct f; simpl.
    + rewrite (Hf eq_refl). reflexivity.
    + reflexivity.
  - cbn [app splitlines_aux].
    destruct (f && ascii_eqb c LF)%bool; [apply IH; discriminate|].
    destruct (is_linebreak c).
    + cbn [app]. f_equal. apply IH. reflexivity.
    + apply IH. discriminate.
Qed.

(** A final line feed adds an empty line at most. *)
Lemma splitlines_aux_final_LF (a : str) :
  forall cur f, (f = true -> cur = []) ->
    exists extra, (extra = [] \/ extra = [[]]) /\
      splitlines_aux cur f (a ++ [LF]) = splitlines_aux cur f a ++ extra.
Proof.
  induction a as [|c a IH]; intros cur f Hf.
  - simpl. destruct f; simpl.
    + rewrite (Hf eq_refl). exists []. auto.
    + destruct cur; [exists [[]] | exists []]; auto.
  - cbn [app splitlines_aux].
    destruct (f && ascii_eqb c LF)%bool; [apply IH; discriminate|].
    destruct (is_linebreak c).
    + destruct (IH [] (ascii_eqb c CR) (fun _ => eq_refl)) as (extra & He & ->).
      exists extra. auto.
    + apply IH. discriminate.
Qed.

Lemma collect_app (l1 l2 : list str) :
  collect (l1 ++ l2) = r1 <- collect l1 ;; r2 <- collect l2 ;; Ret (r1 ++ r2).
Proof.
  induction l1 as [|ln l1 IH]; cbn [app].
  - simpl. destruct (collect l2); reflexivity.
  - rewrite !collect_cons, IH.
    destruct (parse_line ln) as [r|]; cbn [bind]; [|reflexivity].
    destruct (collect l1) as [r1|]; cbn [bind]; [|reflexivity].
    destruct (collect l2) as [r2|]; cbn [bind]; [|reflexivity].
    destruct r; reflexivity.
Qed.

Lemma collect_page_LF (a : str) :
  collect (normalize_lines (a ++ [LF])) = collect (normalize_lines a).
Proof.
  unfold normalize_lines, splitlines.
  destruct (splitlines_aux_final_LF a [] false ltac:(discriminate)) as (extra & [->| ->] & ->).
  - now rewrite app_nil_r.
  - rewrite map_app. cbn [map].
    rewrite (collect_skip _ [] (normalize_line [])) by reflexivity.
    now rewrite app_nil_r.
Qed.

Lemma collect_pages (pages : list (option str)) :
  exists rss,
    Forall2 (fun page rs => collect (normalize_lines (page_text page)) = Ret rs) pages rss /\
    collect (normalize_lines (all_text pages)) = Ret (concat rss).
Proof.
  induction pages as [|p pages (rss & HF & Hc)].
  - exists []. split; [constructor | reflexivity].
  - destruct (collect_valid (normalize_lines (page_text p))) as (rs & Hrs & _).
    exists (rs :: rss). split; [now constructor|].
    rewrite all_text_cons. unfold normalize_lines, splitlines.
    rewrite splitlines_aux_LF by discriminate. rewrite map_app, collect_app.
    fold (splitlines (page_text p ++ [LF])). fold (normalize_lines (page_text p ++ [LF])).
    fold (normalize_lines (all_text pages)).
    rewrite collect_page_LF, Hrs, Hc. reflexivity.
Qed.

(** X23.  The text of a document is that of its pages, each followed by a
    line feed, so no line runs over two pages: the records of the document
    are those of its pages, one page after the other, a page without text
    giving none; [parse_lince_lines] aggregates them all together. *)
Theorem X23_records_page_by_page (pages : list (option str)) :
  exists rss,
    Forall2 (fun page rs => collect (normalize_lines (page_text page)) = Ret rs) pages rss /\
    collect (normalize_lines (all_text pages)) = Ret (concat rss) /\
    parse_lince_lines (all_text pages) = Ret (aggregate (concat rss)).
Proof.
  destruct (collect_pages pages) as (rss & HF & Hc).
  exists rss. repeat split; auto.
  unfold parse_lince_lines, parse_lines. now rewrite Hc.
Qed.

(** ** The default selection *)

Lemma StronglySorted_app_inv {A : Type} (R : A -> A -> Prop) (l1 l2 : list A) :
  StronglySorted R (l1 ++ l2) -> forall a b, In a l1 -> In b l2 -> R a b.
Proof.
  induction l1 as [|x l1 IH]; intros H a b Ha Hb; [destruct Ha|].
  cbn [app] in H. apply StronglySorted_inv in H. destruct H as (H & Hx).
  destruct Ha as [<-|Ha]; [|now apply IH].
  rewrite Forall_forall in Hx. apply Hx. apply in_or_app. now right.
Qed.

Lemma default_selection_eq (df : DataFrame) :
  default_selection df = map nome (firstn 10 df).
Proof.
  unfold default_selection, nomes. rewrite firstn_map.
  destruct (Nat.le_gt_cases 10 (length (map nome df))) as [H|H].
  - now rewrite Nat.min_l.
  - rewrite Nat.min_r by lia. rewrite length_map in H.
    rewrite length_map. now rewrite !firstn_all2 by lia.
Qed.

Lemma isin_rows_prefix (l1 l2 : DataFrame) :
  NoDup (map nome (l1 ++ l2)) ->
  isin_rows (map nome l1) (l1 ++ l2) = l1.
Proof.
  intros Hnd. unfold isin_rows. rewrite filter_app.
  assert (H1 : filter (fun p => mem_str (nome p) (map nome l1)) l1 = l1).
  { apply filter_all. apply Forall_forall. intros p Hp.
    apply mem_str_In. now apply in_map. }
  assert (H2 : filter (fun p => mem_str (nome p) (map nome l1)) l2 = []).
  { rewrite map_app in Hnd.
    induction l2 as [|q l2 IH]; [reflexivity|]. simpl.
    destruct (mem_str (nome q) (map nome l1)) eqn:E.
    - exfalso. apply mem_str_In in E.
      apply NoDup_remove_2 in Hnd. apply Hnd. apply in_or_app. now left.
    - apply IH. simpl in Hnd. now apply NoDup_remove_1 in Hnd. }
  now rewrite H1, H2, app_nil_r.
Qed.

(** X24.  The products selected by default are those of the first ten rows
    of the table, ten at most, and no row left out has a greater value than
    a row selected; generating the sheet with this selection takes exactly
    these rows. *)
Theorem X24_default_selection (text : str) :
  exists out,
    parse_lince_lines text = Ret out /\
    default_selection out = map nome (firstn 10 out) /\
    length (default_selection out) = Nat.min 10 (length out) /\
    isin_rows (default_selection out) out = firstn 10 out /\
    forall a b, In a (firstn 10 out) -> In b (skipn 10 out) -> valor_ge a b.
Proof.
  destruct (parse_lince_lines_run text) as (ps & _ & Hv & ->).
  exists (aggregate ps). split; [reflexivity|].
  split; [apply default_selection_eq|].
  split.
  { rewrite default_selection_eq, length_map, length_firstn. reflexivity. }
  split.
  { rewrite default_selection_eq.
    rewrite <- (firstn_skipn 10 (aggregate ps)) at 2.
    apply isin_rows_prefix. rewrite firstn_skipn. apply aggregate_names_NoDup. }
  apply StronglySorted_app_inv. rewrite firstn_skipn.
  now apply aggregate_sorted.
Qed.

(** ** The tokens of a candidate *)

Lemma clean_line_trimmed (ln : str) : trimmed (clean_line ln).
Proof. unfold clean_line, trimmed. apply strip_spec. Qed.

(** X15.  The fields of a candidate are tokens of the cleaned line, in
    this order: the tokens of the name, of which there is one at least,
    then the price, the quantity and the value, each made of digits, dots
    and commas; what follows them is ignored.  A line whose cleaned form
    has fewer than four tokens gives no candidate. *)
Theorem X15_candidate_tokens (ln : str) (c : candidate) :
  extract ln = Some c ->
  (exists ignored,
     split_ws (clean_line ln)
     = split_ws (c_nome c) ++ [c_preco c; c_qtd c; c_valor c] ++ ignored) /\
  split_ws (c_nome c) <> [] /\
  Forall (fun t => numeric_token t = true /\ t <> []) [c_preco c; c_qtd c; c_valor c] /\
  4 <= length (split_ws (clean_line ln)).
Proof.
  intros H. unfold extract in H.
  destruct (is_nil ln || existsb _ lixo)%bool; [discriminate|].
  destruct (re_match patt (clean_line ln)) as [m|] eqn:Hm; [|discriminate].
  injection H as <-. cbn [c_nome c_preco c_qtd c_valor].
  destruct (patt_match_tokens _ m Hm)
    as (n & w1 & p & w2 & q & w3 & v & r & E & Nw1 & Hw1 & Hp & Nw2 & Hw2 & Hq
        & Nw3 & Hw3 & Hv & Htok & G1 & G2 & G3 & G4 & Nn & Np & Nq & Nv).
  rewrite G1, G2, G3, G4.
  rewrite split_ws_strip.
  assert (Hn : split_ws n <> []).
  { destruct (clean_line_trimmed ln) as [E'|[Hs _]].
    - rewrite E' in E. symmetry in E. apply app_eq_nil in E. tauto.
    - rewrite E in Hs. destruct n as [|x n]; [congruence|]. simpl in Hs.
      unfold split_ws. simpl. rewrite Hs. intros H.
      apply split_ws_aux_nil in H. destruct H as (H & _). discriminate. }
  split; [exists (split_ws r); exact Htok|]. split; [exact Hn|]. split.
  - repeat constructor; auto; now apply numeric_token_all.
  - rewrite Htok, length_app. simpl. destruct (split_ws n); [congruence | simpl; lia].
Qed.

Lemma X15_candidate_tokens_witness :
  split_ws (lit "ARROZ BRANCO 5KG") <> [] /\
  4 <= length (split_ws (clean_line line_arroz)).
Proof.
  destruct (X15_candidate_tokens line_arroz
              (Candidate (lit "ARROZ BRANCO 5KG") (lit "12,50") (lit "3,000") (lit "37,50")))
    as (_ & H1 & _ & H2).
  - vm_compute. reflexivity.
  - split; [exact H1 | exact H2].
Defined.

(** ** The shortest name *)

(** What a lazy repetition takes is the shortest run after which the rest
    of the pattern matches. *)
Lemma rep_loop_lazy_inv lo hi p l :
  forall n pv ps cs k res,
    rep_loop false lo hi p n pv ps cs l k = Some res ->
    exists a tl,
      l = a ++ tl /\ all p a /\ lo <= n + length a /\
      k (MState (last_or pv a) (ps + length a) tl cs) = Some res /\
      forall a' t', l = a' ++ t' -> length a' < length a -> lo <= n + length a' ->
        k (MState (last_or pv a') (ps + length a') t' cs) = None.
Proof.
  induction l as [|c l IH]; intros n pv ps cs k res H;
    rewrite rep_loop_eq in H; cbv beta zeta in H;
    apply orelse_some in H; cbv beta in H.
  - destruct H as [H|[_ H]]; [|discriminate].
    destruct (lo <=? n) eqn:Hlo; [|discriminate]. apply Nat.leb_le in Hlo.
    exists [], []. simpl. rewrite !Nat.add_0_r.
    split; [reflexivity|]. split; [constructor|]. split; [lia|]. split; [exact H|].
    intros a' t' _ Hlt. simpl in Hlt. lia.
  - destruct H as [H|[Hstop H]].
    + destruct (lo <=? n) eqn:Hlo; [|discriminate]. apply Nat.leb_le in Hlo.
      exists [], (c :: l). simpl. rewrite !Nat.add_0_r.
      split; [reflexivity|]. split; [constructor|]. split; [lia|]. split; [exact H|].
      intros a' t' _ Hlt. simpl in Hlt. lia.
    + destruct (p c && below hi n)%bool eqn:Hc; [|discriminate].
      apply andb_true_iff in Hc. destruct Hc as (Hc & _).
      destruct (IH _ _ _ _ _ _ H) as (a & tl & -> & Ha & Hlo & Hk & Hmin).
      exists (c :: a), tl. rewrite last_or_cons. simpl length.
      rewrite !Nat.add_succ_r.
      split; [reflexivity|]. split; [now constructor|]. split; [lia|]. split; [exact Hk|].
      intros a' t' E Hlt Hlo'. destruct a' as [|c' a'].
      * simpl in E, Hlo' |- *. subst t'. rewrite !Nat.add_0_r in *.
        apply Nat.leb_le in Hlo'. now rewrite Hlo' in Hstop.
      * injection E as <- E. rewrite last_or_cons. simpl length.
        rewrite !Nat.add_succ_r. apply Hmin; [exact E | simpl in Hlt; lia | simpl in Hlo'; lia].
Qed.

(** The rest of the pattern matches three numeric fields and what follows
    them on the line. *)
Lemma patt_tail_matches (a b c rst : str) pv ps cs :
  all num_char a -> a <> [] -> all num_char b -> b <> [] -> all num_char c -> c <> [] ->
  all dot_char rst -> rst <> [] ->
  rmatch patt_tail (MState pv ps ([SP] ++ a ++ [SP] ++ b ++ [SP] ++ c ++ [SP] ++ rst) cs)
         (fun st => Some st) <> None.
Proof.
  intros Ha Na Hb Nb Hc Nc Hr Nr H.
  assert (Hlen : forall x : str, x <> [] -> 1 <= 0 + length x).
  { intros [|? ?] Hx; [congruence | simpl; lia]. }
  assert (Hsp : all is_space [SP]) by (repeat constructor).
  unfold patt_tail, seq, NUM_TOKEN in H.
  cbn [fold_right rmatch pos prev rest caps] in H.
  apply (fun Hx => rep_loop_none _ _ None _ _ 0 _ _ _ _ Hx [SP] _ eq_refl Hsp
                     (le_n 1) (or_intror I)) in H.
  cbn [prev pos rest caps rmatch] in H.
  apply (fun Hx => rep_loop_none _ _ None _ _ 0 _ _ _ _ Hx a _ eq_refl Ha
                     (Hlen _ Na) (or_intror I)) in H.
  cbn [prev pos rest caps rmatch] in H.
  apply (fun Hx => rep_loop_none _ _ None _ _ 0 _ _ _ _ Hx [SP] _ eq_refl Hsp
                     (le_n 1) (or_intror I)) in H.
  cbn [prev pos rest caps rmatch] in H.
  apply (fun Hx => rep_loop_none _ _ None _ _ 0 _ _ _ _ Hx b _ eq_refl Hb
                     (Hlen _ Nb) (or_intror I)) in H.
  cbn [prev pos rest caps rmatch] in H.
  apply (fun Hx => rep_loop_none _ _ None _ _ 0 _ _ _ _ Hx [SP] _ eq_refl Hsp
                     (le_n 1) (or_intror I)) in H.
  cbn [prev pos rest caps rmatch] in H.
  apply (fun Hx => rep_loop_none _ _ None _ _ 0 _ _ _ _ Hx c _ eq_refl Hc
                     (Hlen _ Nc) (or_intror I)) in H.
  cbn [prev pos rest caps rmatch] in H.
  apply orelse_none in H. destruct H as (H & _).
  apply (fun Hx => rep_loop_none _ _ None _ _ 0 _ _ _ _ Hx [SP] _ eq_refl Hsp
                     (le_n 1) (or_intror I)) in H.
  cbn [prev pos rest caps rmatch] in H.
  apply (fun Hx => rep_loop_none _ _ None _ _ 0 _ _ _ _ Hx rst [] (eq_sym (app_nil_r rst)) Hr
                     (Hlen _ Nr) (or_intror I)) in H.
  cbn in H. discriminate.
Qed.

(** The name the pattern captures is the shortest start of the line after
    which the rest of the pattern matches. *)
Lemma patt_match_shortest (s : str) (m : match_obj) :
  re_match patt s = Some m ->
  exists n tl,
    s = n ++ tl /\ group s m G_NOME = n /\
    forall n' t', s = n' ++ t' -> length n' < length n -> n' <> [] ->
      rmatch patt_tail
             (MState (last_or None n') (0 + length n') t' [(G_NOME, (0, 0 + length n'))])
             (fun st => Some st) = None.
Proof.
  unfold re_match, match_here.
  destruct (rmatch patt (MState None 0 s []) (fun st => Some st)) as [st|] eqn:H; [|discriminate].
  intros [= <-].
  unfold patt, seq, NUM_TOKEN in H. cbn [fold_right rmatch pos prev rest caps Nat.eqb] in H.
  apply rep_loop_lazy_inv in H.
  destruct H as (n & t1 & E1 & Hn & Ln & H & Hmin).
  cbn [prev pos rest caps rmatch] in H.
  exists n, t1. split; [exact E1|]. split.
  - rep_step H w1 t2 E2 Hw1 Lw1.
    rep_step H p t3 E3 Hp Lp.
    rep_step H w2 t4 E4 Hw2 Lw2.
    rep_step H q t5 E5 Hq Lq.
    rep_step H w3 t6 E6 Hw3 Lw3.
    rep_step H v r E7 Hv Lv.
    assert (Hcaps : lookup_cap G_NOME (caps st) = Some (0, 0 + length n)).
    { apply orelse_some in H. destruct H as [H|[_ H]].
      - rep_step H w4 t8 E8 Hw4 Lw4.
        rep_step H x t9 E9 Hx Lx.
        destruct (at_end _); [|discriminate]. injection H as <-. reflexivity.
      - destruct (at_end _); [|discriminate]. injection H as <-. reflexivity. }
    unfold group. cbn [m_caps]. rewrite Hcaps.
    apply (span_of_subject s [] n t1); [exact E1 | reflexivity | reflexivity].
  - intros n' t' E Hlt Hne.
    assert (Hlo : 1 <= 0 + length n') by (destruct n'; [congruence | simpl; lia]).
    exact (Hmin n' t' E Hlt Hlo).
Qed.

Lemma app_prefix {A : Type} (a b c d : list A) :
  a ++ b = c ++ d -> length a <= length c -> exists x, c = a ++ x /\ b = x ++ d.
Proof.
  revert c. induction a as [|y a IH]; intros c E L.
  - exists c. auto.
  - destruct c as [|z c]; [simpl in L; lia|]. injection E as -> E.
    destruct (IH c E) as (x & -> & ->); [simpl in L; lia|]. exists x. auto.
Qed.

Lemma fields_tokens (a b c : str) (R : list str) (rst : str) :
  all num_char a -> a <> [] -> all num_char b -> b <> [] -> all num_char c -> c <> [] ->
  split_ws rst = R ->
  split_ws (a ++ [SP] ++ b ++ [SP] ++ c ++ [SP] ++ rst) = a :: b :: c :: R.
Proof.
  intros Ha Na Hb Nb Hc Nc <-.
  assert (Hsp : all is_space [SP]) by (repeat constructor).
  rewrite (split_ws_token a _ Na (num_token_nonspace a Ha)) by reflexivity.
  f_equal. rewrite (split_ws_skip [SP] _ Hsp).
  rewrite (split_ws_token b _ Nb (num_token_nonspace b Hb)) by reflexivity.
  f_equal. rewrite (split_ws_skip [SP] _ Hsp).
  rewrite (split_ws_token c _ Nc (num_token_nonspace c Hc)) by reflexivity.
  f_equal; try apply (split_ws_skip [SP] _ Hsp).
Qed.

(** On a line with more after the three fields, the groups are the name
    and the first three fields all the same. *)
Lemma patt_leftmost (name a b c rst : str) :
  ends_nonspace name -> all dot_char name -> no_numeric_token name ->
  all num_char a -> a <> [] -> all num_char b -> b <> [] -> all num_char c -> c <> [] ->
  all dot_char rst -> rst <> [] ->
  exists m,
    re_match patt (product_line name a b c ++ [SP] ++ rst) = Some m /\
    group (product_line name a b c ++ [SP] ++ rst) m G_NOME = name /\
    group (product_line name a b c ++ [SP] ++ rst) m G_PRECO = a /\
    group (product_line name a b c ++ [SP] ++ rst) m G_QTD = b /\
    group (product_line name a b c ++ [SP] ++ rst) m G_VALOR = c.
Proof.
  intros En Hn Hnum Ha Na Hb Nb Hc Nc Hr Nr.
  assert (Nn : name <> []).
  { destruct En as (x & y & -> & _). destruct x; discriminate. }
  assert (Ln : 1 <= 0 + length name) by (destruct name; [congruence | simpl; lia]).
  remember (product_line name a b c ++ [SP] ++ rst) as s eqn:Es0.
  assert (Es : s = name ++ [SP] ++ a ++ [SP] ++ b ++ [SP] ++ c ++ [SP] ++ rst).
  { rewrite Es0. unfold product_line. now rewrite <- !app_assoc. }
  clear Es0.
  assert (Htail : forall pv ps cs,
             rmatch patt_tail
               (MState pv ps ([SP] ++ a ++ [SP] ++ b ++ [SP] ++ c ++ [SP] ++ rst) cs)
               (fun st => Some st) <> None).
  { intros pv ps cs. apply patt_tail_matches; assumption. }
  destruct (re_match patt s) as [m|] eqn:Hm.
  2: { exfalso. unfold re_match, match_here in Hm.
       destruct (rmatch patt _ _) as [st|] eqn:H; [discriminate|].
       unfold patt, seq, NUM_TOKEN in H.
       cbn [fold_right rmatch pos prev rest caps Nat.eqb] in H.
       apply (fun Hx => rep_loop_none _ _ None _ _ 0 _ _ _ _ Hx name _ Es Hn
                          Ln (or_intror I)) in H.
       apply (Htail (last_or None name) (0 + length name) [(G_NOME, (0, 0 + length name))]).
       exact H. }
  exists m. split; [reflexivity|].
  destruct (patt_match_shortest s m Hm) as (n & t1 & E1 & G0 & Hmin).
  destruct (patt_match_tokens s m Hm)
    as (n2 & w1 & p & w2 & q & w3 & v & r & E & Nw1 & Hw1 & Hp & Nw2 & Hw2 & Hq
        & Nw3 & Hw3 & Hv & Htok & G1 & G2 & G3 & G4 & Nn2 & Np & Nq & Nv).
  rewrite G0 in G1. subst n2.
  assert (Hle : length n <= length name).
  { destruct (Nat.le_gt_cases (length n) (length name)) as [H|H]; [exact H | exfalso].
    apply (Htail (last_or None name) (0 + length name) [(G_NOME, (0, 0 + length name))]).
    exact (Hmin name _ Es H Nn). }
  assert (Hfull : split_ws s = split_ws name ++ a :: b :: c :: split_ws rst).
  { rewrite Es. rewrite (split_ws_app name [SP]) by (repeat constructor || discriminate).
    f_equal. now apply fields_tokens. }
  rewrite E in Es.
  destruct (app_prefix _ _ _ _ Es Hle) as (x & Ex & Et).
  assert (Hx : x = []).
  { destruct x as [|y x]; [reflexivity | exfalso].
    assert (Hy : is_space y = true).
    { destruct w1 as [|z w1]; [congruence|]. injection Et as -> _. now inversion Hw1. }
    assert (Hsplit : split_ws name = split_ws n ++ split_ws x).
    { rewrite Ex. apply (split_ws_app n [y] x); [repeat constructor; exact Hy | discriminate]. }
    rewrite Htok, Hsplit, <- app_assoc in Hfull. apply app_inv_head in Hfull.
    destruct (split_ws x) as [|t T] eqn:Ext.
    - apply (split_ws_aux_nil x []) in Ext. destruct Ext as (_ & Hsp).
      destruct En as (name' & z & En & Hz).
      destruct (@exists_last _ (y :: x)) as (x' & z' & Ez); [discriminate|].
      rewrite Ex, Ez, app_assoc in En. apply app_inj_tail in En. destruct En as (_ & ->).
      assert (Hall : all is_space (y :: x)) by (constructor; assumption).
      rewrite Ez in Hall. apply Forall_app in Hall. destruct Hall as (_ & Hall).
      inversion Hall; subst. congruence.
    - injection Hfull as <- _.
      unfold no_numeric_token in Hnum. rewrite Hsplit in Hnum.
      rewrite forallb_app in Hnum. apply andb_true_iff in Hnum. destruct Hnum as (_ & Hnum).
      simpl in Hnum. apply andb_true_iff in Hnum. destruct Hnum as (Hnum & _).
      apply numeric_token_all in Hp. rewrite Hp in Hnum. discriminate. }
  subst x. rewrite app_nil_r in Ex. rewrite <- Ex in Htok, G0.
  rewrite Htok in Hfull. apply app_inv_head in Hfull. injection Hfull as -> -> -> _.
  rewrite G0, G2, G3, G4. auto.
Qed.

(** X14.  Of a line with more after the three numeric fields, the first
    three fields are price, quantity and value, and what follows is
    ignored.  So when a number stands between the name and the price, as in
    "ARROZ 5 10,00 1,000 10,00", it is taken for the price, the price for
    the quantity and the quantity for the value. *)
Theorem X14_first_three_fields (name a b c rst : str) :
  starts_nonspace name -> ends_nonspace name -> all dot_char name ->
  no_numeric_token name ->
  all num_char a -> a <> [] -> all num_char b -> b <> [] -> all num_char c -> c <> [] ->
  all dot_char rst -> rst <> [] ->
  no_lixo (product_line name a b c ++ [SP] ++ rst) ->
  clean_line (product_line name a b c ++ [SP] ++ rst)
  = product_line name a b c ++ [SP] ++ rst ->
  extract (product_line name a b c ++ [SP] ++ rst) = Some (Candidate name a b c).
Proof.
  intros Sn En Hn Hnum Ha Na Hb Nb Hc Nc Hr Nr Hl Hcl.
  destruct (patt_leftmost name a b c rst En Hn Hnum Ha Na Hb Nb Hc Nc Hr Nr)
    as (m & Hm & G1 & G2 & G3 & G4).
  unfold extract. unfold no_lixo in Hl. rewrite Hl, Hcl, Hm, G1, G2, G3, G4.
  rewrite (strip_clean name Sn En).
  unfold product_line. destruct name; [destruct Sn | reflexivity].
Qed.

Lemma X14_first_three_fields_witness :
  extract (lit "ARROZ 5 10,00 1,000 10,00")
  = Some (Candidate (lit "ARROZ") (lit "5") (lit "10,00") (lit "1,000")).
Proof.
  apply (X14_first_three_fields (lit "ARROZ") (lit "5") (lit "10,00") (lit "1,000")
           (lit "10,00")).
  - reflexivity.
  - exists (lit "ARRO"), (chr 90). split; reflexivity.
  - all_chars.
  - reflexivity.
  - all_chars.
  - discriminate.
  - all_chars.
  - discriminate.
  - all_chars.
  - discriminate.
  - all_chars.
  - discriminate.
  - reflexivity.
  - vm_compute. reflexivity.
Defined.
